(** * containerfs: the tiny-file blob store and its follower-side repair

    A shallow embedding of
      - package [storage], file blob_store.go: [BlobStore] and its methods
        [Write], [Read], [WriteDeleteDentry], [GetDelObjects],
        [IsReadyToCompact], [GetChunkForWrite], ...
      - package [datanode], file blob_repair.go: [streamRepairBlobObjects]
        and [applyRepairBlobObjects],
    together with the parts of package [storage] they call ([Object],
    [ObjectTree], [WalkIndexFile], [NewChunk]), of the Go runtime (slices,
    integer conversions, panics) and of the libraries [os], [hash/crc32] and
    [github.com/juju/errors].

    Go integers are modelled as [Z] with the wrap-around of every conversion
    written out; byte slices are [list byte]; a Go map is a [gmap]; a buffered
    channel is the list of its queued elements; a function that returns an
    [error] returns an [option Error] ([None] is Go's [nil]); a run-time
    panic is the [Panic] outcome. The model is sequential: one call runs at a
    time, and a lock is only ever observed held when some other party (the
    compactor) holds it. *)

From Stdlib Require Import ZArith List Lia Bool String.
From Stdlib Require Import Strings.Byte.
From Stdlib Require Import Floats.SpecFloat.
From stdpp Require Import base gmap list.

Local Open Scope Z_scope.

(** ** Go runtime: integer conversions, panics, slices *)

(** Conversions between integer types keep the low bits (Go spec,
    "Conversions between numeric types"). [int] is 64 bits wide. *)
Definition uint32 (z : Z) : Z := z mod 2 ^ 32.
Definition uint64 (z : Z) : Z := z mod 2 ^ 64.
Definition int64 (z : Z) : Z := (z + 2 ^ 63) mod 2 ^ 64 - 2 ^ 63.

Definition is_uint32 (z : Z) : Prop := 0 <= z < 2 ^ 32.
Definition is_uint64 (z : Z) : Prop := 0 <= z < 2 ^ 64.
Definition is_int64 (z : Z) : Prop := - 2 ^ 63 <= z < 2 ^ 63.

(** Outcome of a Go call: it returns, or the goroutine panics. *)
Inductive go (A : Type) : Type :=
| Ret (a : A)
| Panic.
Arguments Ret {A} a.
Arguments Panic {A}.

#[global] Instance go_fmap : FMap go :=
  fun A B f r => match r with Ret a => Ret (f a) | Panic => Panic end.

(** [len(b)] as an [int]. *)
Definition len {A : Type} (b : list A) : Z := Z.of_nat (length b).

(** The slice expression [b[lo:hi]]; it panics unless [0 <= lo <= hi <= cap(b)].
    Slices are modelled with [cap(b) = len(b)]. *)
Definition slice {A : Type} (b : list A) (lo hi : Z) : go (list A) :=
  if (0 <=? lo) && (lo <=? hi) && (hi <=? len b)
  then Ret (take (Z.to_nat (hi - lo)) (drop (Z.to_nat lo) b))
  else Panic.

(** Storing [src] through the slice [b[:len src]]: the first bytes of [b] are
    overwritten, the rest of the backing array is kept. *)
Definition fill {A : Type} (b src : list A) : list A :=
  src ++ drop (length src) b.

(** ** Errors *)

(** The error values of package [storage] that blob_store.go returns, and the
    errors of [os], [io], [fmt] and the packet transport that reach it. *)
Inductive Error : Type :=
| ErrorFileNotFound
| ErrorObjNotFound
| ErrorParamMismatch
| ErrObjectSmaller
| ErrorAgain
| ErrorNoAvaliFile
| ErrorNoUnAvaliFile
| ErrorCompaction
| ErrorCommit
| ErrClosed          (* os.ErrClosed: operation on a closed file *)
| ErrNegativeOffset  (* os: negative offset *)
| ErrEOF             (* io.EOF *)
| ErrExceedSyncLastOid   (* errors.New("Exceed syncLastOid") *)
| ErrInvalidOffset   (* fmt.Errorf("invalid offset of OpCRepairReadResp: ...") *)
| ErrConn.           (* connection pool and packet transport failures *)

#[global] Instance Error_eq_dec : EqDecision Error.
Proof. solve_decision. Defined.

(** [errors.Annotatef] of github.com/juju/errors: a nil error stays nil
    ("if other == nil { return nil }"); any other error is wrapped with a
    message, which the model drops. *)
Definition Annotatef (other : option Error) : option Error :=
  match other with
  | None => None
  | Some e => Some e
  end.

(** ** Bytes and big-endian integers ([encoding/binary.BigEndian]) *)

Definition byte_to_Z (b : byte) : Z := Z.of_N (Byte.to_N b).

Definition byte_of_Z (z : Z) : byte :=
  match Byte.of_N (Z.to_N (z mod 256)) with
  | Some b => b
  | None => x00
  end.

(** [PutUint64] and [PutUint32]: the [n] low bytes of [z], most significant
    first. *)
Fixpoint be_encode (n : nat) (z : Z) : list byte :=
  match n with
  | O => []
  | S n' => be_encode n' (z / 256) ++ [byte_of_Z z]
  end.

(** [Uint64] and [Uint32]. *)
Definition be_decode (bs : list byte) : Z :=
  fold_left (fun acc b => acc * 256 + byte_to_Z b) bs 0.

(** ** hash/crc32: the IEEE checksum *)

Definition IEEE : Z := 0xedb88320.

Fixpoint crc_bits (n : nat) (c : Z) : Z :=
  match n with
  | O => c
  | S n' =>
      crc_bits n' (if Z.testbit c 0
                   then Z.lxor (Z.shiftr c 1) IEEE
                   else Z.shiftr c 1)
  end.

Definition crc_update (c : Z) (b : byte) : Z :=
  crc_bits 8 (Z.lxor c (byte_to_Z b)).

Definition ChecksumIEEE (data : list byte) : Z :=
  Z.lxor (fold_left crc_update data 0xffffffff) 0xffffffff.

(** ** os.File *)

Module File.

(** An open or closed file and its bytes. Every operation on a closed file
    fails with [os.ErrClosed]; an open file never fails otherwise (disk-full
    and media errors are outside the model). *)
Record t : Type := mk { closed : bool; content : list byte }.

(** [f.Stat()], reduced to the [Size()] of the result. *)
Definition Stat (f : t) : Z * option Error :=
  if closed f then (0, Some ErrClosed) else (len (content f), None).

(** [f.WriteAt(b, off)]: the bytes at [off .. off+len b) are replaced, the
    file is extended (with zeros over a gap) when they lie beyond its end.
    The chunk files are opened with [O_APPEND] (ChunkOpenOpt), where the
    kernel appends whatever the offset; [Write] always passes the size of the
    file as offset, and there the two agree (lemma [WriteAt_eof]). *)
Definition WriteAt (f : t) (b : list byte) (off : Z) : t * option Error :=
  if closed f then (f, Some ErrClosed)
  else if off <? 0 then (f, Some ErrNegativeOffset)
  else
    let o := Z.to_nat off in
    (mk false (take o (content f) ++ replicate (o - length (content f)) x00
               ++ b ++ drop (o + length b) (content f)), None).

(** [f.ReadAt(b, off)] with [len b = n]: the bytes read, and [io.EOF] when
    fewer than [n] were available. *)
Definition ReadAt (f : t) (n : Z) (off : Z) : list byte * option Error :=
  if closed f then ([], Some ErrClosed)
  else if off <? 0 then ([], Some ErrNegativeOffset)
  else
    let got := take (Z.to_nat n) (drop (Z.to_nat off) (content f)) in
    if len got <? n then (got, Some ErrEOF) else (got, None).

(** [f.Write(b)] on a file opened with [O_APPEND]. *)
Definition Write (f : t) (b : list byte) : t * option Error :=
  if closed f then (f, Some ErrClosed)
  else (mk false (content f ++ b), None).

(** [f.Close()]. *)
Definition Close (f : t) : t := mk true (content f).

End File.

(** ** storage.Object *)

Module Object.

Record t : Type := mk { Oid : Z; Offset : Z; Size : Z; Crc : Z }.

(** Modelled from the spec: the constants [ObjectHeaderSize] and
    [TombstoneFileSize] of package [storage] (object.go is not part of the
    sources at hand). Spec section 6: an index record is
    [oid:u64 big-endian][offset:u32][size:u32][crc:u32], 20 bytes; section 3:
    the sentinel TOMBSTONE is u32::MAX. *)
Definition ObjectHeaderSize : Z := 20.
Definition TombstoneFileSize : Z := 4294967295.

(** Modelled from the spec: [Object.Marshal] and [Object.Unmarshal], the
    fixed big-endian layout of spec section 6. *)
Definition Marshal (o : t) : list byte :=
  be_encode 8 (Oid o) ++ be_encode 4 (Offset o)
    ++ be_encode 4 (Size o) ++ be_encode 4 (Crc o).

Definition Unmarshal (b : list byte) : t :=
  mk (be_decode (take 8 b))
     (be_decode (take 4 (drop 8 b)))
     (be_decode (take 4 (drop 12 b)))
     (be_decode (take 4 (drop 16 b))).

Definition isTombstone (o : t) : bool := Size o =? TombstoneFileSize.

End Object.

(** ** storage.ObjectTree and the index file *)

Module ObjectTree.

(** Modelled from the spec: the index tree of package [storage]
    (object_tree.go is not part of the sources at hand). Spec sections 3 and
    4.1: an in-memory map from object id to record, the append-only index
    file behind it, and the counters [fileBytes] and [deleteBytes] (uint64). *)
Record t : Type := mk {
  idxFile : File.t;
  tree : gmap Z Object.t;
  fileBytes : Z;
  deleteBytes : Z
}.

(** Modelled from the spec: [appendToIdxFile(record)] "serialize 20 bytes
    (big-endian, fixed layout) and write to the index file without fsync;
    returns I/O error if the append fails". *)
Definition appendToIdxFile (o : t) (obj : Object.t) : t * option Error :=
  let '(f, err) := File.Write (idxFile o) (Object.Marshal obj) in
  (mk f (tree o) (fileBytes o) (deleteBytes o), err).

(** Modelled from the spec: [set(oid, offset, size, crc)] "inserts or
    overwrites the in-memory entry; appends a new 20-byte line to the index
    file; if oid was already present with size s_old, increment deleteBytes
    by s_old; always add size to fileBytes (for live sizes) or keep fileBytes
    unchanged when size == TOMBSTONE while incrementing deleteBytes by the
    shadowed live size". The old offset and size that the Go method also
    returns are dropped: [Write] discards them. *)
Definition set (o : t) (oid offset size crc : Z) : t * option Error :=
  let shadowed :=
    match tree o !! oid with
    | Some old => if Object.isTombstone old then 0 else Object.Size old
    | None => 0
    end in
  let obj := Object.mk oid offset size crc in
  let fb := if Object.isTombstone obj then fileBytes o
            else uint64 (fileBytes o + size) in
  let db := uint64 (deleteBytes o + shadowed) in
  appendToIdxFile (mk (idxFile o) (<[oid := obj]> (tree o)) fb db) obj.

(** Modelled from the spec: [get(oid)] "returns None if absent or if the
    current record is a tombstone". *)
Definition get (o : t) (oid : Z) : option Object.t :=
  match tree o !! oid with
  | Some obj => if Object.isTombstone obj then None else Some obj
  | None => None
  end.

(** Modelled from the spec: [delete(oid)] "marks the existing entry as a
    tombstone (equivalent to set(oid, 0, TOMBSTONE, 0)) and persists via
    appendToIdxFile", with error NotFound when there is no entry. *)
Definition delete (o : t) (oid : Z) : t * option Error :=
  match tree o !! oid with
  | None => (o, Some ErrorObjNotFound)
  | Some _ => set o oid 0 Object.TombstoneFileSize 0
  end.

End ObjectTree.

(** The complete 20-byte records of an index file, in append order; a
    partial final record is ignored (spec section 4.1, failure mode). *)
Fixpoint records (n : nat) (b : list byte) : list Object.t :=
  match n with
  | O => []
  | S n' => Object.Unmarshal (take 20 b) :: records n' (drop 20 b)
  end.

Definition idxRecords (f : File.t) : list Object.t :=
  records (Z.to_nat (len (File.content f) / Object.ObjectHeaderSize))
          (File.content f).

(** The callback of a walk: it updates what its closure captured (a value of
    type [A]) and may stop the walk with an error. *)
Definition walkFn (A : Type) : Type :=
  A -> Z -> Z -> Z -> Z -> A * option Error.

Fixpoint walk {A : Type} (fn : walkFn A) (rs : list Object.t) (a : A)
  : A * option Error :=
  match rs with
  | [] => (a, None)
  | r :: rs' =>
      match fn a (Object.Oid r) (Object.Offset r) (Object.Size r) (Object.Crc r) with
      | (a', Some e) => (a', Some e)
      | (a', None) => walk fn rs' a'
      end
  end.

(** Modelled from the spec: [WalkIndexFile(f, fn)] "replay the on-disk index
    file in append order, invoking f(oid, offset, size, crc)"; an error
    returned by the callback ends the walk and is returned. *)
Definition WalkIndexFile {A : Type} (f : File.t) (fn : walkFn A) (a : A)
  : A * option Error :=
  if File.closed f then (a, Some ErrClosed) else walk fn (idxRecords f) a.

(** ** storage.Chunk *)

(** Modelled from the spec: the fields of [Chunk] that blob_store.go uses
    (chunk.go is not part of the sources at hand). [compactLock] is [true]
    while another party, the compactor, holds the lock; the reader-writer
    [commitLock] is never held exclusively between two calls of a sequential
    run and is left out. *)
Record Chunk : Type := mkChunk {
  file : File.t;
  tree : ObjectTree.t;
  lastOid : Z;
  syncLastOid : Z;
  compactLock : bool
}.

Definition loadLastOid (c : Chunk) : Z := lastOid c.

Definition storeLastOid (c : Chunk) (v : Z) : Chunk :=
  mkChunk (file c) (tree c) v (syncLastOid c) (compactLock c).

Definition storeSyncLastOid (c : Chunk) (v : Z) : Chunk :=
  mkChunk (file c) (tree c) (lastOid c) v (compactLock c).

Definition setFile (c : Chunk) (f : File.t) : Chunk :=
  mkChunk f (tree c) (lastOid c) (syncLastOid c) (compactLock c).

Definition setTree (c : Chunk) (t : ObjectTree.t) : Chunk :=
  mkChunk (file c) t (lastOid c) (syncLastOid c) (compactLock c).

(** Modelled from the spec: [NewChunk(dataDir, id)] in a directory that has
    no file for [id] yet: both files are created empty, the tree is empty and
    [lastOid] is 0. *)
Definition NewChunk : Chunk :=
  mkChunk (File.mk false []) (ObjectTree.mk (File.mk false []) ∅ 0 0) 0 0 false.

(** ** storage.BlobStore (blob_store.go) *)

Definition TinyChunkCount : Z := 10.
Definition CompactThreshold : Z := 40.
Definition MinWriteAbleChunk : Z := 1.
Definition ObjectIdLen : Z := 8.

Record BlobStore : Type := mkBlobStore {
  dataDir : string;
  chunks : gmap Z Chunk;
  availChunkCh : list Z;
  unavailChunkCh : list Z;
  storeSize : Z;
  chunkSize : Z
}.

(** Assignment through the pointer [s.chunks[chunkId]]. *)
Definition setChunk (s : BlobStore) (chunkId : Z) (c : Chunk) : BlobStore :=
  mkBlobStore (dataDir s) (<[chunkId := c]> (chunks s))
              (availChunkCh s) (unavailChunkCh s) (storeSize s) (chunkSize s).

Definition setAvail (s : BlobStore) (q : list Z) : BlobStore :=
  mkBlobStore (dataDir s) (chunks s) q (unavailChunkCh s)
              (storeSize s) (chunkSize s).

Definition setUnavail (s : BlobStore) (q : list Z) : BlobStore :=
  mkBlobStore (dataDir s) (chunks s) (availChunkCh s) q
              (storeSize s) (chunkSize s).

(** [initChunkFile]: chunks 1 .. TinyChunkCount. *)
Definition initChunkFile : gmap Z Chunk :=
  foldr (fun i m => <[i := NewChunk]> m) ∅ (seqZ 1 TinyChunkCount).

(** [NewBlobStore(dataDir, storeSize)] on a fresh directory. *)
Definition NewBlobStore (dir : string) (size : Z) : BlobStore :=
  mkBlobStore dir initChunkFile [] (seqZ 1 TinyChunkCount)
              size (Z.quot size TinyChunkCount).

Definition WriteDeleteDentry (s : BlobStore) (objectId chunkId crc : Z)
  : BlobStore * option Error :=
  match chunks s !! chunkId with
  | None => (s, Some ErrorFileNotFound)
  | Some c =>
      if compactLock c then (s, Some ErrorAgain)
      else
        (* the lock is taken here and released when the call returns *)
        match File.Stat (file c) with
        | (_, Some e) => (s, Some e)
        | (fiSize, None) =>
            let o := Object.mk objectId (uint32 fiSize)
                               Object.TombstoneFileSize crc in
            let '(t, err) := ObjectTree.appendToIdxFile (tree c) o in
            let c := setTree c t in
            match err with
            | Some e => (setChunk s chunkId c, Some e)
            | None =>
                let c := if loadLastOid c <? objectId
                         then storeLastOid c objectId else c in
                (setChunk s chunkId c, None)
            end
        end
  end.

Definition Write (s : BlobStore) (fileId objectId size : Z)
    (data : list byte) (crc : Z) : go (BlobStore * option Error) :=
  let chunkId := fileId in
  match chunks s !! chunkId with
  | None => Ret (s, Some ErrorFileNotFound)
  | Some c =>
      if compactLock c then Ret (s, Some ErrorAgain)
      else
        (* the lock is taken here and released when the call returns *)
        if objectId <? loadLastOid c then Ret (s, Some ErrObjectSmaller)
        else
          match File.Stat (file c) with
          | (_, Some e) => Ret (s, Some e)
          | (fiSize, None) =>
              let newOffset := fiSize in
              match slice data 0 size with
              | Panic => Panic
              | Ret d =>
                  match File.WriteAt (file c) d newOffset with
                  | (f, Some e) => Ret (setChunk s chunkId (setFile c f), Some e)
                  | (f, None) =>
                      let c := setFile c f in
                      let '(t, err) :=
                        ObjectTree.set (tree c) objectId (uint32 newOffset)
                                       (uint32 size) crc in
                      let c := setTree c t in
                      match err with
                      | Some e => Ret (setChunk s chunkId c, Some e)
                      | None =>
                          let c := if loadLastOid c <? objectId
                                   then storeLastOid c objectId else c in
                          Ret (setChunk s chunkId c, None)
                      end
                  end
              end
          end
  end.

(** [Read] returns the crc, the error and the contents of [nbuf] after the
    call. *)
Definition Read (s : BlobStore) (fileId offset size : Z) (nbuf : list byte)
  : go (Z * option Error * list byte) :=
  let chunkId := fileId in
  let objectId := uint64 offset in
  match chunks s !! chunkId with
  | None => Ret (0, Some ErrorFileNotFound, nbuf)
  | Some c =>
      let lastOid := loadLastOid c in
      if lastOid <? objectId then Ret (0, Some ErrorFileNotFound, nbuf)
      else
        match File.Stat (file c) with
        | (_, Some e) => Ret (0, Some e, nbuf)
        | (fiSize, None) =>
            match ObjectTree.get (tree c) objectId with
            | None => Ret (0, Some ErrorObjNotFound, nbuf)
            | Some o =>
                if negb (Object.Size o =? size)
                   || (int64 (Object.Offset o + size) >? fiSize)
                then Ret (0, Some ErrorParamMismatch, nbuf)
                else
                  match slice nbuf 0 size with
                  | Panic => Panic
                  | Ret b =>
                      match File.ReadAt (file c) (len b) (Object.Offset o) with
                      | (got, Some e) => Ret (0, Some e, fill nbuf got)
                      | (got, None) => Ret (Object.Crc o, None, fill nbuf got)
                      end
                  end
            end
        end
  end.

(** storage.FileInfo, as far as the watermark and the repair use it. *)
Module FileInfo.
Record t : Type := mk { Source : string; FileId : Z; Size : Z }.
End FileInfo.

Definition GetWatermark (s : BlobStore) (fileId : Z)
  : option FileInfo.t * option Error :=
  let chunkId := int64 fileId in
  match chunks s !! chunkId with
  | None => (None, Some ErrorFileNotFound)
  | Some c => (Some (FileInfo.mk EmptyString chunkId (loadLastOid c)), None)
  end.

Definition GetAvailChunk (s : BlobStore) : BlobStore * Z * option Error :=
  match availChunkCh s with
  | chunkId :: rest => (setAvail s rest, chunkId, None)
  | [] => (s, 0, Some ErrorNoAvaliFile)
  end.

(** The body of the [for] loop returns in both branches of its [select], so
    the loop runs its first iteration or none at all. *)
Definition GetChunkForWrite (s : BlobStore) : BlobStore * Z * option Error :=
  let chLen := len (availChunkCh s) in
  if 0 <? chLen then
    match availChunkCh s with
    | chunkId :: rest => (setAvail s rest, chunkId, None)
    | [] => (s, -1, Some ErrorNoAvaliFile)
    end
  else (s, 0, None).

(** [s.availChunkCh <- chunkId]: the send blocks for ever ([None]) on a full
    channel when nobody receives. *)
Definition PutAvailChunk (s : BlobStore) (chunkId : Z) : option BlobStore :=
  if len (availChunkCh s) <? TinyChunkCount + 1
  then Some (setAvail s (availChunkCh s ++ [chunkId]))
  else None.

Definition GetUnAvailChunk (s : BlobStore) : BlobStore * Z * option Error :=
  match unavailChunkCh s with
  | chunkId :: rest => (setUnavail s rest, chunkId, None)
  | [] => (s, 0, Some ErrorNoUnAvaliFile)
  end.

Definition MarkDelete (s : BlobStore) (fileId offset size : Z)
  : BlobStore * option Error :=
  let chunkId := fileId in
  let objectId := uint64 offset in
  match chunks s !! chunkId with
  | None => (s, Some ErrorFileNotFound)
  | Some c =>
      let '(t, err) := ObjectTree.delete (tree c) objectId in
      (setChunk s chunkId (setTree c t), err)
  end.

Definition AllocObjectId (s : BlobStore) (fileId : Z) : Z * option Error :=
  match chunks s !! fileId with
  | None => (0, Some ErrorFileNotFound)
  | Some c => (uint64 (loadLastOid c + 1), None)
  end.

Definition GetObject (s : BlobStore) (fileId objectId : Z)
  : option Object.t * option Error :=
  match chunks s !! fileId with
  | None => (None, Some ErrorFileNotFound)
  | Some c =>
      match ObjectTree.get (tree c) objectId with
      | None => (None, Some ErrorObjNotFound)
      | Some o => (Some o, None)
      end
  end.

(** The callback that [GetDelObjects] passes to [WalkIndexFile]; the slice
    [objects] it appends to is the captured state. *)
Definition delObjectsFn (syncLastOid : Z) : walkFn (list Z) :=
  fun objects oid offset size crc =>
    if oid >? syncLastOid then (objects, Some ErrExceedSyncLastOid)
    else if size =? Object.TombstoneFileSize then (objects ++ [oid], None)
    else (objects, None).

Definition GetDelObjects (s : BlobStore) (fileId : Z) : BlobStore * list Z :=
  let objects := [] in
  match chunks s !! fileId with
  | None => (s, objects)
  | Some c =>
      let syncLastOid := loadLastOid c in
      let c := storeSyncLastOid c syncLastOid in
      let '(objects, _) :=
        WalkIndexFile (ObjectTree.idxFile (tree c))
                      (delObjectsFn syncLastOid) objects in
      (setChunk s fileId c, objects)
  end.

(** [float64(x)] for an unsigned integer [x], and the float64 quotient
    (IEEE 754 binary64, round to nearest even). *)
Definition float64 (x : Z) : spec_float := binary_normalize 53 1024 x 0 false.
Definition float64_div (x y : spec_float) : spec_float := SFdiv 53 1024 x y.

(** [s.chunks[chunkID]] of a missing chunk is a nil pointer, and [c.tree]
    then panics ("make sure chunkID is valid"). *)
Definition IsReadyToCompact (s : BlobStore) (chunkID thresh : Z)
  : go (bool * spec_float) :=
  let thresh := if thresh <? 0 then CompactThreshold else thresh in
  match chunks s !! chunkID with
  | None => Panic
  | Some c =>
      let objects := tree c in
      let deletePercent :=
        float64_div (float64 (ObjectTree.deleteBytes objects))
                    (float64 (ObjectTree.fileBytes objects)) in
      let maxChunkSize := Z.quot (storeSize s) TinyChunkCount in
      if ObjectTree.fileBytes objects
         <? uint64 (uint64 maxChunkSize * CompactThreshold) / 100
      then Ret (false, deletePercent)
      else if ObjectTree.deleteBytes objects
              <? uint64 (ObjectTree.fileBytes objects * uint64 thresh) / 100
      then Ret (false, deletePercent)
      else Ret (true, deletePercent)
  end.

(** ** datanode: the follower side of the repair (blob_repair.go) *)

(** The fields of the response [Packet] that the repair reads. *)
Module Packet.
Record t : Type := mk { Offset : Z; Data : list byte }.
End Packet.

(** The leader's end of the connection: whether [gConnPool.Get] and
    [request.WriteToConn] succeed, and the response packets that
    [request.ReadFromConn] will deliver, in order; reading past the last one
    fails (deadline). *)
Record Conn : Type := mkConn {
  dialOk : bool;
  sendOk : bool;
  responses : list Packet.t
}.

Record RepairBlobFileTask : Type := mkTask {
  BlobFileId : Z;
  StartObj : Z;
  EndObj : Z
}.

(** The [for] loop of [applyRepairBlobObjects]. Every iteration that goes on
    moves [offset] forward by at least the header size, so [fuel] beyond the
    length of [data] is never used up; [None] is "out of fuel". The variable
    [err] is the function's named result, which the loop reads and writes. *)
Fixpoint applyLoop (fuel : nat) (store : BlobStore) (blobfileId : Z)
    (data : list byte) (endObjectId offset applyObjectId : Z)
    (err : option Error) : option (go (BlobStore * option Error)) :=
  match fuel with
  | O => None
  | S fuel' =>
      let dataLen := len data in
      if offset + Object.ObjectHeaderSize >? len data
      then Some (Ret (store, None))
      else if applyObjectId >=? endObjectId
      then Some (Ret (store, None))
      else
        match slice data offset (offset + Object.ObjectHeaderSize) with
        | Panic => Some Panic
        | Ret hdr =>
            let o := Object.Unmarshal hdr in
            let offset := offset + Object.ObjectHeaderSize in
            let '(store, err) :=
              if Object.Size o =? Object.TombstoneFileSize
              then WriteDeleteDentry store (Object.Oid o) blobfileId (Object.Crc o)
              else (store, err) in
            match err with
            | Some _ => Some (Ret (store, Annotatef err))
            | None =>
                if offset + Object.Size o >? dataLen
                then Some (Ret (store, Annotatef err))
                else
                  match slice data offset (offset + Object.Size o) with
                  | Panic => Some Panic
                  | Ret ndata =>
                      let offset := offset + Object.Size o in
                      let ncrc := ChecksumIEEE ndata in
                      if negb (ncrc =? Object.Crc o)
                      then Some (Ret (store, Annotatef err))
                      else
                        match Write store (uint32 blobfileId)
                                    (uint64 (Object.Oid o))
                                    (int64 (Object.Size o)) ndata
                                    (Object.Crc o) with
                        | Panic => Some Panic
                        | Ret (store, Some e) =>
                            Some (Ret (store, Annotatef (Some e)))
                        | Ret (store, None) =>
                            applyLoop fuel' store blobfileId data endObjectId
                                      offset (Object.Oid o) None
                        end
                  end
            end
        end
  end.

Definition applyRepairBlobObjects (store : BlobStore) (blobfileId : Z)
    (data : list byte) (endObjectId : Z)
  : option (go (BlobStore * option Error)) :=
  applyLoop (S (length data)) store blobfileId data endObjectId 0 0 None.

(** The [for] loop of [streamRepairBlobObjects]; it goes round once per
    response packet. *)
Fixpoint streamLoop (store : BlobStore) (remoteBlobFileInfo : FileInfo.t)
    (incoming : list Packet.t) : option (go (BlobStore * option Error)) :=
  match GetWatermark store (uint64 (FileInfo.FileId remoteBlobFileInfo)) with
  | (_, Some e) => Some (Ret (store, Annotatef (Some e)))
  | (None, None) => Some Panic
  | (Some localBlobFileInfo, None) =>
      if FileInfo.Size localBlobFileInfo >=? FileInfo.Size remoteBlobFileInfo
      then Some (Ret (store, None))
      else
        match incoming with
        | [] => Some (Ret (store, Annotatef (Some ErrConn)))
        | request :: rest =>
            let newLastOid := uint64 (Packet.Offset request) in
            if newLastOid >? uint64 (FileInfo.FileId remoteBlobFileInfo)
            then Some (Ret (store, Some ErrInvalidOffset))
            else
              match applyRepairBlobObjects store
                      (FileInfo.FileId remoteBlobFileInfo)
                      (Packet.Data request) newLastOid with
              | None => None
              | Some Panic => Some Panic
              | Some (Ret (store, Some e)) =>
                  Some (Ret (store, Annotatef (Some e)))
              | Some (Ret (store, None)) =>
                  streamLoop store remoteBlobFileInfo rest
              end
        end
  end.

(** The task that the follower sends to the leader before the loop. *)
Definition repairTask (localBlobFileInfo remoteBlobFileInfo : FileInfo.t)
  : RepairBlobFileTask :=
  mkTask (FileInfo.FileId remoteBlobFileInfo)
         (uint64 (FileInfo.Size localBlobFileInfo + 1))
         (FileInfo.Size remoteBlobFileInfo).

Definition streamRepairBlobObjects (store : BlobStore)
    (remoteBlobFileInfo : FileInfo.t) (conn : Conn)
  : option (go (BlobStore * option Error)) :=
  match GetWatermark store (uint64 (FileInfo.FileId remoteBlobFileInfo)) with
  | (_, Some e) => Some (Ret (store, Annotatef (Some e)))
  | (None, None) => Some Panic
  | (Some localBlobFileInfo, None) =>
      if negb (dialOk conn) then Some (Ret (store, Annotatef (Some ErrConn)))
      else if negb (sendOk conn)
      then Some (Ret (store, Annotatef (Some ErrConn)))
      else streamLoop store remoteBlobFileInfo (responses conn)
  end.

(** ** The claims of the specification, in its own words *)

(** Specification section 4.4, the compaction trigger: "Eligible iff
    F >= M * 40 / 100 AND D >= F * threshold / 100", over the integers, with
    "threshold defaults to 40 if negative". *)
Definition spec_eligible (storeSz fileB deleteB thresh : Z) : bool :=
  let threshold := if thresh <? 0 then 40 else thresh in
  let M := storeSz / 10 in
  (M * 40 / 100 <=? fileB) && (fileB * threshold / 100 <=? deleteB).

(** Specification section 4.3, [getDelObjects]: "returns oids whose last
    persisted record is a tombstone AND whose oid <= syncLastOid". *)
Definition lastRecord (rs : list Object.t) (oid : Z) : option Object.t :=
  last (filter (fun r => bool_decide (Object.Oid r = oid)) rs).

Definition spec_isDeleted (rs : list Object.t) (syncLastOid oid : Z) : bool :=
  match lastRecord rs oid with
  | Some r => Object.isTombstone r && (oid <=? syncLastOid)
  | None => false
  end.

(** What [GetDelObjects] collects: the tombstones among the records that come
    before the first record whose oid exceeds [syncLastOid]. *)
Fixpoint upTo (syncLastOid : Z) (rs : list Object.t) : list Object.t :=
  match rs with
  | [] => []
  | r :: rs' =>
      if Object.Oid r >? syncLastOid then [] else r :: upTo syncLastOid rs'
  end.

Definition tombstonesUpTo (syncLastOid : Z) (rs : list Object.t) : list Z :=
  map Object.Oid (filter (fun r => Is_true (Object.isTombstone r)) (upTo syncLastOid rs)).

(** ** Runs of writes *)

(** The arguments of one call of [Write]. *)
Record WriteReq : Type := mkWriteReq {
  wFileId : Z;
  wOid : Z;
  wSize : Z;
  wData : list byte;
  wCrc : Z
}.

(** The calls made one after the other, whatever error each returns. *)
Fixpoint runWrites (s : BlobStore) (ws : list WriteReq) : go BlobStore :=
  match ws with
  | [] => Ret s
  | w :: ws' =>
      match Write s (wFileId w) (wOid w) (wSize w) (wData w) (wCrc w) with
      | Panic => Panic
      | Ret (s', _) => runWrites s' ws'
      end
  end.

(** The write [w] is not a write of object [oid] to chunk [fileId]. *)
Definition otherObject (fileId oid : Z) (w : WriteReq) : Prop :=
  wFileId w <> fileId \/ wOid w <> oid.

(** Object [oid] of chunk [fileId] is indexed live with [size] and [crc], its
    id is within the watermark and its bytes in the open data file are
    [payload]. *)
Definition Readable (s : BlobStore) (fileId oid size : Z)
    (payload : list byte) (crc : Z) : Prop :=
  exists c o,
    chunks s !! fileId = Some c
    /\ File.closed (file c) = false
    /\ oid <= lastOid c
    /\ ObjectTree.tree (tree c) !! oid = Some o
    /\ Object.isTombstone o = false
    /\ Object.Size o = size
    /\ Object.Crc o = crc
    /\ 0 <= size
    /\ 0 <= Object.Offset o
    /\ is_int64 (Object.Offset o + size)
    /\ Object.Offset o + size <= len (File.content (file c))
    /\ take (Z.to_nat size) (drop (Z.to_nat (Object.Offset o)) (File.content (file c)))
       = payload.

(** ** Concrete stores *)

Definition hello : list byte := [x68; x65; x6c; x6c; x6f].

(** A store of 100 MiB on a fresh directory. *)
Definition store0 : BlobStore := NewBlobStore "/data" 104857600.

(** The contents of [store0]'s chunk 1 after [hello] was written as object 1. *)
Definition crcHello : Z := 0x3610a686.

(** A chunk whose data file has grown to 4 GiB: object 1 takes all of it but
    the last two bytes, object 2 the last two. Nothing in [Write] bounds the
    size of a data file. *)
Definition fourGiB : Z := 4294967296.

Definition zeros (n : Z) : list byte := replicate (Z.to_nat n) x00.

Definition bigObj1 : Object.t := Object.mk 1 0 4294967294 0.
Definition bigObj2 : Object.t := Object.mk 2 4294967294 2 0.

Definition bigTree : ObjectTree.t :=
  ObjectTree.mk (File.mk false (Object.Marshal bigObj1 ++ Object.Marshal bigObj2))
                (<[2 := bigObj2]> (<[1 := bigObj1]> ∅)) fourGiB 0.

Definition bigChunk : Chunk :=
  mkChunk (File.mk false (zeros fourGiB)) bigTree 2 0 false.

Definition bigStore : BlobStore := setChunk store0 1 bigChunk.

(** [store0] after [hello] was written to chunk 1 as object 1. *)
Definition storeHello : BlobStore :=
  match Write store0 1 1 5 hello crcHello with
  | Ret (s, _) => s
  | Panic => store0
  end.

Definition crcA : Z := 0xd3d99e8b.

(** [storeHello] after a tombstone for object 1 was appended to chunk 1. *)
Definition storeHelloDel : BlobStore :=
  fst (WriteDeleteDentry storeHello 1 1 crcHello).

(** [store0] after a tombstone for object 1 was appended to chunk 1 and
    object 1 was written after it. *)
Definition storeDel : BlobStore := fst (WriteDeleteDentry store0 1 1 0).

Definition storeDelThenWrite : BlobStore :=
  match Write storeDel 1 1 5 hello crcHello with
  | Ret (s, _) => s
  | Panic => store0
  end.

(** The index records of a chunk. *)
Definition idxOf (s : BlobStore) (chunkId : Z) : list Object.t :=
  match chunks s !! chunkId with
  | Some c => idxRecords (ObjectTree.idxFile (tree c))
  | None => []
  end.

(** A store of 100 bytes whose chunk 1 holds one object of four bytes. *)
Definition storeTiny : BlobStore :=
  match Write (NewBlobStore "/data" 100) 1 1 4 [x41; x42; x43; x44] 0 with
  | Ret (s, _) => s
  | Panic => store0
  end.

(** The chunk that a store has under an id. *)
Definition chunkOf (s : BlobStore) (chunkId : Z) : Chunk :=
  default NewChunk (chunks s !! chunkId).

(** Repair payloads: the header of a tombstone for object [oid], and the
    header and the one-byte payload "A" of a live object [oid]. *)
Definition tombstoneOf (oid : Z) : list byte :=
  Object.Marshal (Object.mk oid 0 Object.TombstoneFileSize 0).

Definition objectA (oid : Z) : list byte :=
  Object.Marshal (Object.mk oid 0 1 crcA) ++ [x41].

(** Object 1 with payload "A" under a header whose crc field is 0. *)
Definition objectBadCrc : list byte :=
  Object.Marshal (Object.mk 1 0 1 0) ++ [x41].

(** [store0] after the objects 1 and 2 with payload "A" were written to
    chunk [chunkId]. *)
Definition storeAA (chunkId : Z) : BlobStore :=
  match Write store0 chunkId 1 1 [x41] crcA with
  | Ret (s, _) =>
      match Write s chunkId 2 1 [x41] crcA with
      | Ret (s', _) => s'
      | Panic => store0
      end
  | Panic => store0
  end.

(** [store0] after object 1 with payload "A" was written to chunk 1. *)
Definition storeA : BlobStore :=
  match Write store0 1 1 1 [x41] crcA with
  | Ret (s, _) => s
  | Panic => store0
  end.

Definition world : list byte := [x77; x6f; x72; x6c; x64].
Definition crcWorld : Z := 0x3a771143.

(** [storeHello] after object 2 with payload "A" was written to chunk 1. *)
Definition storeHelloA : BlobStore :=
  match runWrites storeHello [mkWriteReq 1 2 1 [x41] crcA] with
  | Ret s => s
  | Panic => store0
  end.

(** [storeHello] after [world] was written to chunk 1 under the id 1 that
    [hello] has. *)
Definition storeWorld : BlobStore :=
  match Write storeHello 1 1 5 world crcWorld with
  | Ret (s, _) => s
  | Panic => store0
  end.

(** A store of 4611686018427387910 bytes (4 EiB) whose chunk 1 holds one
    object of four bytes, and a store made with a negative size. *)
Definition storeHuge : BlobStore :=
  match Write (NewBlobStore "/data" 4611686018427387910) 1 1 4
              [x41; x42; x43; x44] 0 with
  | Ret (s, _) => s
  | Panic => store0
  end.

Definition storeNeg : BlobStore := NewBlobStore "/data" (-1000).

(** The error that a call returned. *)
Definition errOf {A : Type} (r : go (A * option Error)) : option Error :=
  match r with
  | Ret (_, e) => e
  | Panic => None
  end.

(** [storeHello] after [hello] was written once more under the same id. *)
Definition storeHelloTwice : BlobStore :=
  match Write storeHello 1 1 5 hello crcHello with
  | Ret (s, _) => s
  | Panic => store0
  end.

(** The bytes of a chunk's data file. *)
Definition dataOf (s : BlobStore) (chunkId : Z) : list byte :=
  match chunks s !! chunkId with
  | Some c => File.content (file c)
  | None => []
  end.

(** ** The rest of blob_store.go *)

(** [f.Sync()] of [os.File]. *)
Definition FileSync (f : File.t) : option Error :=
  if File.closed f then Some ErrClosed else None.

Definition Sync (s : BlobStore) (fileId : Z) : option Error :=
  let chunkId := fileId in
  match chunks s !! chunkId with
  | None => Some ErrorFileNotFound
  | Some c =>
      match FileSync (ObjectTree.idxFile (tree c)) with
      | Some e => Some e
      | None => FileSync (file c)
      end
  end.

(** The order in which Go ranges over [s.chunks] is not specified; the model
    takes the order of [map_to_list]. *)
Definition GetAllWatermark (s : BlobStore) : list FileInfo.t * option Error :=
  ((fun kc => FileInfo.mk EmptyString kc.1 (loadLastOid kc.2))
     <$> map_to_list (chunks s), None).

Definition GetLastOid (s : BlobStore) (fileId : Z) : Z * option Error :=
  match chunks s !! fileId with
  | None => (0, Some ErrorFileNotFound)
  | Some c => (loadLastOid c, None)
  end.

Definition closeChunk (c : Chunk) : Chunk :=
  mkChunk (File.Close (file c))
          (ObjectTree.mk (File.Close (ObjectTree.idxFile (tree c)))
                         (ObjectTree.tree (tree c))
                         (ObjectTree.fileBytes (tree c))
                         (ObjectTree.deleteBytes (tree c)))
          (lastOid c) (syncLastOid c) (compactLock c).

Definition CloseAll (s : BlobStore) : BlobStore :=
  mkBlobStore (dataDir s) (closeChunk <$> chunks s)
              (availChunkCh s) (unavailChunkCh s) (storeSize s) (chunkSize s).

(** [DeleteStore] closes the files of every chunk and deletes the chunk from
    the map (the removal of the directory is outside the model). *)
Definition DeleteStore (s : BlobStore) : BlobStore :=
  mkBlobStore (dataDir s) ∅
              (availChunkCh s) (unavailChunkCh s) (storeSize s) (chunkSize s).

(** [s.unavailChunkCh <- chunkId]; like [PutAvailChunk] it blocks on a full
    channel. *)
Definition PutUnAvailChunk (s : BlobStore) (chunkId : Z) : option BlobStore :=
  if len (unavailChunkCh s) <? TinyChunkCount + 1
  then Some (setUnavail s (unavailChunkCh s ++ [chunkId]))
  else None.

Definition GetUnAvailChanLen (s : BlobStore) : Z := len (unavailChunkCh s).
Definition GetAvailChanLen (s : BlobStore) : Z := len (availChunkCh s).
Definition GetStoreChunkCount (s : BlobStore) : Z * option Error :=
  (TinyChunkCount, None).

(** The [for] loop of [MoveChunkToUnavailChan], [n] iterations to go. *)
Fixpoint moveLoop (n : nat) (s : BlobStore) : option BlobStore :=
  match n with
  | O => Some s
  | S n' =>
      match availChunkCh s with
      | chunkId :: rest =>
          match PutUnAvailChunk (setAvail s rest) chunkId with
          | None => None
          | Some s' => moveLoop n' s'
          end
      | [] => Some s
      end
  end.

Definition MoveChunkToUnavailChan (s : BlobStore) : option BlobStore :=
  if len (unavailChunkCh s) >=? 2 then Some s else moveLoop 2 s.

(** ** Runs of store operations *)

(** The calls of a run: [Write], [WriteDeleteDentry], [MarkDelete],
    [GetDelObjects] and the six calls on the queues of chunk ids. [CloseAll],
    [DeleteStore] and the compaction are not among them. *)
Inductive Op : Type :=
| OpWrite (w : WriteReq)
| OpWriteDeleteDentry (objectId chunkId crc : Z)
| OpMarkDelete (fileId offset size : Z)
| OpGetDelObjects (fileId : Z)
| OpGetAvailChunk
| OpGetChunkForWrite
| OpPutAvailChunk (chunkId : Z)
| OpGetUnAvailChunk
| OpPutUnAvailChunk (chunkId : Z)
| OpMoveChunkToUnavailChan.

(** The store after one call; [None] when the call panics or blocks. *)
Definition stepOp (s : BlobStore) (op : Op) : option BlobStore :=
  match op with
  | OpWrite w =>
      match Write s (wFileId w) (wOid w) (wSize w) (wData w) (wCrc w) with
      | Ret (s', _) => Some s'
      | Panic => None
      end
  | OpWriteDeleteDentry objectId chunkId crc =>
      Some (WriteDeleteDentry s objectId chunkId crc).1
  | OpMarkDelete fileId offset size => Some (MarkDelete s fileId offset size).1
  | OpGetDelObjects fileId => Some (GetDelObjects s fileId).1
  | OpGetAvailChunk => Some (GetAvailChunk s).1.1
  | OpGetChunkForWrite => Some (GetChunkForWrite s).1.1
  | OpPutAvailChunk chunkId => PutAvailChunk s chunkId
  | OpGetUnAvailChunk => Some (GetUnAvailChunk s).1.1
  | OpPutUnAvailChunk chunkId => PutUnAvailChunk s chunkId
  | OpMoveChunkToUnavailChan => MoveChunkToUnavailChan s
  end.

Fixpoint runOps (s : BlobStore) (ops : list Op) : option BlobStore :=
  match ops with
  | [] => Some s
  | op :: ops' =>
      match stepOp s op with
      | Some s' => runOps s' ops'
      | None => None
      end
  end.

(** Both files of the chunk are open; every record of its index lies under
    its own object id and within the watermark; the live ones fit 32 bits and
    lie inside the data file. *)
Definition chunkValid (c : Chunk) : Prop :=
  File.closed (file c) = false
  /\ File.closed (ObjectTree.idxFile (tree c)) = false
  /\ forall oid o,
       ObjectTree.tree (tree c) !! oid = Some o ->
       Object.Oid o = oid
       /\ oid <= lastOid c
       /\ (Object.isTombstone o = false ->
           is_uint32 (Object.Offset o) /\ is_uint32 (Object.Size o)
           /\ Object.Offset o + Object.Size o <= len (File.content (file c))).

Definition indexValid (s : BlobStore) : Prop :=
  forall chunkId c, chunks s !! chunkId = Some c -> chunkValid c.

(** A run on [store0]: write [hello] as object 1 of chunk 1, write "A" as
    object 2, mark object 1 deleted, list the deleted objects, move chunk ids
    between the queues. *)
Definition opsDemo : list Op :=
  [OpWrite (mkWriteReq 1 1 5 hello crcHello);
   OpWrite (mkWriteReq 1 2 1 [x41] crcA);
   OpMarkDelete 1 1 5;
   OpGetDelObjects 1;
   OpGetUnAvailChunk;
   OpPutAvailChunk 1;
   OpMoveChunkToUnavailChan].

Definition storeDemo : BlobStore := default store0 (runOps store0 opsDemo).

(** [store0] after object 18446744073709551615 (the largest uint64) was
    written to chunk 1. *)
Definition maxOid : Z := 18446744073709551615.

Definition storeMaxOid : BlobStore :=
  match Write store0 1 maxOid 1 [x41] crcA with
  | Ret (s, _) => s
  | Panic => store0
  end.

(** A chunk with its compact lock taken or released by another party. *)
Definition setLock (c : Chunk) (held : bool) : Chunk :=
  mkChunk (file c) (tree c) (lastOid c) (syncLastOid c) held.

(** [PutAvailChunk] for each id of a list, and [n] calls of
    [GetAvailChunk] with the ids they return (a call that finds the queue
    empty returns no id). *)
Fixpoint putAvailAll (s : BlobStore) (ids : list Z) : option BlobStore :=
  match ids with
  | [] => Some s
  | chunkId :: ids' =>
      match PutAvailChunk s chunkId with
      | Some s' => putAvailAll s' ids'
      | None => None
      end
  end.

Fixpoint getAvailN (n : nat) (s : BlobStore) : BlobStore * list Z :=
  match n with
  | O => (s, [])
  | S n' =>
      match GetAvailChunk s with
      | (s', chunkId, None) =>
          let '(s'', got) := getAvailN n' s' in (s'', chunkId :: got)
      | (s', _, Some _) => getAvailN n' s'
      end
  end.

(** ** Repair packets as lists of objects *)

(** The bytes of a repair packet that carries the given headers, each
    followed by its payload. *)
Definition wire (objs : list (Object.t * list byte)) : list byte :=
  concat ((fun op => Object.Marshal op.1 ++ op.2) <$> objs).

(** A header of a live object that fits its fields and tells the length and
    the checksum of the payload behind it. *)
Definition liveObject (op : Object.t * list byte) : Prop :=
  is_uint64 (Object.Oid op.1)
  /\ is_uint32 (Object.Offset op.1)
  /\ Object.Size op.1 = len op.2
  /\ Object.Size op.1 < Object.TombstoneFileSize
  /\ Object.Crc op.1 = ChecksumIEEE op.2.

(** What [applyRepairBlobObjects] comes to on a packet of live objects: a
    [Write] for each in turn, until the object last applied has reached
    [endObjectId] or a [Write] fails. *)
Fixpoint applyObjects (store : BlobStore) (blobfileId : Z)
    (objs : list (Object.t * list byte)) (endObjectId applyObjectId : Z)
  : go (BlobStore * option Error) :=
  match objs with
  | [] => Ret (store, None)
  | op :: rest =>
      if applyObjectId >=? endObjectId then Ret (store, None)
      else
        match Write store blobfileId (Object.Oid op.1) (Object.Size op.1)
                    op.2 (Object.Crc op.1) with
        | Panic => Panic
        | Ret (store1, Some e) => Ret (store1, Some e)
        | Ret (store1, None) =>
            applyObjects store1 blobfileId rest endObjectId (Object.Oid op.1)
        end
  end.

(** The object ids of the list grow strictly, starting above [lo]. *)
Fixpoint ascendingFrom (lo : Z) (objs : list (Object.t * list byte)) : Prop :=
  match objs with
  | [] => True
  | op :: rest => lo < Object.Oid op.1 /\ ascendingFrom (Object.Oid op.1) rest
  end.

(** The bytes of all payloads together. *)
Definition payloadBytes (objs : list (Object.t * list byte)) : Z :=
  foldr (fun op n => len op.2 + n) 0 objs.

(** The packet with the objects 1 ("hello") and 2 ("A"). *)
Definition packetHelloA : list (Object.t * list byte) :=
  [(Object.mk 1 0 5 crcHello, hello); (Object.mk 2 0 1 crcA, [x41])].

(** The errors that [Write] and [WriteDeleteDentry] return. *)
Definition storeError (e : Error) : Prop :=
  e = ErrorFileNotFound \/ e = ErrorAgain \/ e = ErrObjectSmaller
  \/ e = ErrClosed.

(** The leader's answer to the repair task for chunk 2 with the watermark 2:
    one packet with the objects 1 and 2. *)
Definition connHelloA : Conn :=
  mkConn true true [Packet.mk 2 (wire packetHelloA)].

(** ** The watermarks of the members (blob_repair.go) *)

(** The loop [for _, file := range files { fileMetas.files[file.FileId] = file }]
    on the empty map of [NewMemberFileMetas]. *)
Definition fileMap (files : list FileInfo.t) : gmap Z FileInfo.t :=
  foldl (fun m file => <[FileInfo.FileId file := file]> m) ∅ files.

(** The two nested loops that collect the entries whose FileId is in the
    filter: an entry is appended once for each time its id is met in
    [filterBlobFileids]. *)
Definition filterFiles (all : list FileInfo.t) (filterBlobFileids : list Z)
  : list FileInfo.t :=
  flat_map (fun cid =>
              flat_map (fun ccid =>
                          if FileInfo.FileId cid =? ccid then [cid] else [])
                       filterBlobFileids)
           all.

(** [getLocalBlobFileMetas], reduced to the map [files] of the
    [MembersFileMetas] that it returns (the function touches no other field
    of it). *)
Definition getLocalBlobFileMetas (store : BlobStore) (filterBlobFileids : list Z)
  : option (gmap Z FileInfo.t) * option Error :=
  match GetAllWatermark store with
  | (_, Some e) => (None, Some e)
  | (blobFiles, None) =>
      let files := filterFiles blobFiles filterBlobFileids in
      (Some (fileMap files), None)
  end.

(** What comes of the request that [getRemoteBlobFileMetas] sends: no
    connection, a failed write, a failed read, bytes that [json.Unmarshal]
    refuses, or the list that it decodes. *)
Inductive Reply : Type :=
| NoConnection
| WriteFailed
| ReadFailed
| UnmarshalFailed
| Files (allFiles : list FileInfo.t).

Inductive RemoteError : Type :=
| ErrGetConnection
| ErrWriteToConn
| ErrReadFromConn
| ErrUnmarshal.

(** [getRemoteBlobFileMetas], reduced to the map [files] of its result. The
    list [files] that the nested loops build is not used afterwards: the map
    is filled from [allFiles]. *)
Definition getRemoteBlobFileMetas (remote : Reply) (filterBlobFileids : list Z)
  : option (gmap Z FileInfo.t) * option RemoteError :=
  match remote with
  | NoConnection => (None, Some ErrGetConnection)
  | WriteFailed => (None, Some ErrWriteToConn)
  | ReadFailed => (None, Some ErrReadFromConn)
  | UnmarshalFailed => (None, Some ErrUnmarshal)
  | Files allFiles =>
      let files := filterFiles allFiles filterBlobFileids in
      (Some (fileMap allFiles), None)
  end.

(** ** The index file as the log of the deletes *)

(** The types of the arguments: an object id is a uint64, a crc a uint32. *)
Definition opTyped (op : Op) : Prop :=
  match op with
  | OpWrite w => is_uint64 (wOid w) /\ is_uint32 (wCrc w)
  | OpWriteDeleteDentry objectId _ crc => is_uint64 objectId /\ is_uint32 crc
  | _ => True
  end.

(** The index file is made of whole records, each with an object id within
    the watermark. *)
Definition logValid (c : Chunk) : Prop :=
  len (File.content (ObjectTree.idxFile (tree c))) mod Object.ObjectHeaderSize = 0
  /\ Forall (fun r => Object.Oid r <= lastOid c)
            (idxRecords (ObjectTree.idxFile (tree c))).

Definition logsValid (s : BlobStore) : Prop :=
  forall chunkId c, chunks s !! chunkId = Some c -> logValid c.

(** ** Chunks and objects in a run *)

(** The chunk that a call names, if it names one. *)
Definition opChunk (op : Op) : option Z :=
  match op with
  | OpWrite w => Some (wFileId w)
  | OpWriteDeleteDentry _ chunkId _ => Some chunkId
  | OpMarkDelete fileId _ _ => Some fileId
  | OpGetDelObjects fileId => Some fileId
  | _ => None
  end.

(** The call writes or mark-deletes object [oid] of chunk [fileId]. *)
Definition sameObject (fileId oid : Z) (op : Op) : Prop :=
  match op with
  | OpWrite w => wFileId w = fileId /\ wOid w = oid
  | OpMarkDelete f offset _ => f = fileId /\ uint64 offset = oid
  | _ => False
  end.

(** The data file and the index file of [c'] are those of [c] with bytes
    added at the end. *)
Definition grows (c c' : Chunk) : Prop :=
  exists d i,
    File.content (file c') = File.content (file c) ++ d
    /\ File.content (ObjectTree.idxFile (tree c'))
       = File.content (ObjectTree.idxFile (tree c)) ++ i.

(** The bytes of the two objects in the data file do not overlap. *)
Definition disjointObjects (o1 o2 : Object.t) : Prop :=
  Object.Offset o1 + Object.Size o1 <= Object.Offset o2
  \/ Object.Offset o2 + Object.Size o2 <= Object.Offset o1.

(** No two live objects of the chunk share a byte, as long as the data file
    is shorter than 4 GiB. *)
Definition liveDisjoint (c : Chunk) : Prop :=
  len (File.content (file c)) < 2 ^ 32 ->
  forall oid1 oid2 o1 o2,
    ObjectTree.tree (tree c) !! oid1 = Some o1 ->
    ObjectTree.tree (tree c) !! oid2 = Some o2 ->
    oid1 <> oid2 ->
    Object.isTombstone o1 = false -> Object.isTombstone o2 = false ->
    disjointObjects o1 o2.

Definition storeDisjoint (s : BlobStore) : Prop :=
  forall k c, chunks s !! k = Some c -> liveDisjoint c.

(** Calls that follow the write of [hello] as object 1 of chunk 1 and leave
    that object alone, and the store they make of [storeHello]. *)
Definition opsOther : list Op :=
  [OpWrite (mkWriteReq 1 2 1 [x41] crcA);
   OpWriteDeleteDentry 1 1 crcHello;
   OpGetDelObjects 1;
   OpGetUnAvailChunk;
   OpPutAvailChunk 1].

Definition storeOther : BlobStore := default store0 (runOps storeHello opsOther).

(** The two writes that make [storeHelloA] of [store0]. *)
Definition opsHelloA : list Op :=
  [OpWrite (mkWriteReq 1 1 5 hello crcHello);
   OpWrite (mkWriteReq 1 2 1 [x41] crcA)].

(** ** NewBlobStore on any directory *)

Module Boot.

(** What the calls outside blob_store.go do for [NewBlobStore]: whether
    [CheckAndCreateSubdir(dataDir)] succeeds, and what [NewChunk(dataDir, i)]
    returns, the chunk that it makes of the files it finds in the directory
    (a new and empty one in a fresh directory) or [None] for an error. *)
Record Env : Type := mkEnv {
  CheckAndCreateSubdir : string -> bool;
  NewChunk : string -> Z -> option Chunk
}.

(** The loop of [initChunkFile] over the ids still to come; it returns at the
    first [NewChunk] that fails. *)
Fixpoint initLoop (env : Env) (dataDir : string) (ids : list Z)
    (chunks : gmap Z Chunk) : option (gmap Z Chunk) :=
  match ids with
  | [] => Some chunks
  | i :: ids' =>
      match NewChunk env dataDir i with
      | None => None
      | Some c => initLoop env dataDir ids' (<[i := c]> chunks)
      end
  end.

Definition initChunkFile (env : Env) (dataDir : string) (chunks : gmap Z Chunk)
  : option (gmap Z Chunk) :=
  initLoop env dataDir (seqZ 1 TinyChunkCount) chunks.

(** [NewBlobStore(dataDir, storeSize)]; [None] is the error return. The ten
    sends to [unavailChunkCh] find room in a channel made for eleven. *)
Definition NewBlobStore (env : Env) (dataDir : string) (storeSize : Z)
  : option BlobStore :=
  if negb (CheckAndCreateSubdir env dataDir) then None
  else
    match initChunkFile env dataDir ∅ with
    | None => None
    | Some chunks =>
        Some (mkBlobStore dataDir chunks [] (seqZ 1 TinyChunkCount)
                          storeSize (Z.quot storeSize TinyChunkCount))
    end.

End Boot.

(** A directory that can be made and holds no chunk file yet. *)
Definition freshDir : Boot.Env :=
  Boot.mkEnv (fun _ => true) (fun _ _ => Some NewChunk).

(** A response packet that asks for nothing: offset 0 and no data. *)
Definition idlePacket : Packet.t := Packet.mk 0 [].

(** No [MarkDelete] of the run meets an index entry that is already a
    tombstone (the case in which [delete] has nothing left to mark). *)
Fixpoint noRepeatedDelete (s : BlobStore) (ops : list Op) : bool :=
  match ops with
  | [] => true
  | op :: ops' =>
      match op with
      | OpMarkDelete fileId offset _ =>
          match chunks s !! fileId with
          | Some c =>
              match ObjectTree.tree (tree c) !! uint64 offset with
              | Some o => negb (Object.isTombstone o)
              | None => true
              end
          | None => true
          end
      | _ => true
      end
      && match stepOp s op with
         | Some s' => noRepeatedDelete s' ops'
         | None => true
         end
  end.

Example crc_check : ChecksumIEEE [x31;x32;x33;x34;x35;x36;x37;x38;x39] = 0xcbf43926.
Proof. vm_compute. reflexivity. Qed.

Example crc_hello : ChecksumIEEE hello = crcHello.
Proof. vm_compute. reflexivity. Qed.

Example crc_world : ChecksumIEEE world = crcWorld.
Proof. vm_compute. reflexivity. Qed.

Example crc_A : ChecksumIEEE [x41] = crcA.
Proof. vm_compute. reflexivity. Qed.

(** * Properties *)

(** ** Integer conversions *)

Lemma uint32_id z : is_uint32 z -> uint32 z = z.
Proof. unfold is_uint32, uint32. intros H. apply Z.mod_small. lia. Qed.

Lemma uint64_id z : is_uint64 z -> uint64 z = z.
Proof. unfold is_uint64, uint64. intros H. apply Z.mod_small. lia. Qed.

Lemma int64_id z : is_int64 z -> int64 z = z.
Proof.
  unfold is_int64, int64. intros H.
  rewrite Z.mod_small; lia.
Qed.

Lemma uint32_range z : is_uint32 (uint32 z).
Proof. unfold is_uint32, uint32. apply Z.mod_pos_bound. lia. Qed.

Lemma uint64_range z : is_uint64 (uint64 z).
Proof. unfold is_uint64, uint64. apply Z.mod_pos_bound. lia. Qed.

(** An object id survives the trip through the [int64] parameter of [Read]. *)
Lemma uint64_int64 z : is_uint64 z -> uint64 (int64 z) = z.
Proof.
  unfold is_uint64, uint64, int64. intros H.
  rewrite Zminus_mod_idemp_l.
  replace (z + 2 ^ 63 - 2 ^ 63) with z by lia.
  apply Z.mod_small. lia.
Qed.

Lemma len_nonneg {A : Type} (b : list A) : 0 <= len b.
Proof. unfold len. lia. Qed.

Lemma len_app {A : Type} (a b : list A) : len (a ++ b) = len a + len b.
Proof. unfold len. rewrite length_app. lia. Qed.

(** ** Slices and files *)

Lemma slice_prefix {A : Type} (b : list A) (n : Z) :
  0 <= n <= len b -> slice b 0 n = Ret (take (Z.to_nat n) b).
Proof.
  intros H. unfold slice.
  replace (0 <=? 0) with true by reflexivity.
  destruct (Z.leb_spec 0 n); [|lia].
  destruct (Z.leb_spec n (len b)); [|lia].
  simpl. rewrite Z.sub_0_r. reflexivity.
Qed.

Lemma slice_prefix_inv {A : Type} (b d : list A) (n : Z) :
  slice b 0 n = Ret d -> 0 <= n <= len b /\ d = take (Z.to_nat n) b.
Proof.
  unfold slice. replace (0 <=? 0) with true by reflexivity.
  destruct (Z.leb_spec 0 n); destruct (Z.leb_spec n (len b)); simpl;
    intros E; inversion E.
  rewrite Z.sub_0_r. split; [lia | reflexivity].
Qed.

Lemma len_take_prefix {A : Type} (b : list A) (n : Z) :
  0 <= n <= len b -> len (take (Z.to_nat n) b) = n.
Proof. unfold len. intros H. rewrite length_take. lia. Qed.

(** [WriteAt] at the end of the file appends. *)
Lemma WriteAt_eof f d :
  File.closed f = false ->
  File.WriteAt f d (len (File.content f)) = (File.mk false (File.content f ++ d), None).
Proof.
  intros Hc. unfold File.WriteAt. rewrite Hc.
  destruct (Z.ltb_spec (len (File.content f)) 0) as [Hneg|_].
  { pose proof (len_nonneg (File.content f)). lia. }
  unfold len. rewrite Nat2Z.id.
  rewrite take_ge by lia.
  rewrite Nat.sub_diag. simpl.
  rewrite drop_ge by lia.
  rewrite app_nil_r. reflexivity.
Qed.

(** [ReadAt] of a range that lies inside the file. *)
Lemma ReadAt_inside f n off :
  File.closed f = false -> 0 <= off -> 0 <= n ->
  off + n <= len (File.content f) ->
  File.ReadAt f n off
  = (take (Z.to_nat n) (drop (Z.to_nat off) (File.content f)), None).
Proof.
  intros Hc Hoff Hn Hin. unfold File.ReadAt. rewrite Hc.
  destruct (Z.ltb_spec off 0); [lia|].
  match goal with |- context [len ?l <? n] => assert (len l = n) as -> end.
  { unfold len in *. rewrite length_take, length_drop. lia. }
  rewrite Z.ltb_irrefl. reflexivity.
Qed.

(** ** The index tree *)

Lemma appendToIdxFile_open o obj :
  File.closed (ObjectTree.idxFile o) = false ->
  ObjectTree.appendToIdxFile o obj
  = (ObjectTree.mk
       (File.mk false (File.content (ObjectTree.idxFile o) ++ Object.Marshal obj))
       (ObjectTree.tree o) (ObjectTree.fileBytes o) (ObjectTree.deleteBytes o),
     None).
Proof.
  intros Hc. unfold ObjectTree.appendToIdxFile, File.Write. rewrite Hc.
  reflexivity.
Qed.

Lemma appendToIdxFile_closed o obj :
  File.closed (ObjectTree.idxFile o) = true ->
  snd (ObjectTree.appendToIdxFile o obj) = Some ErrClosed.
Proof.
  intros Hc. unfold ObjectTree.appendToIdxFile, File.Write. rewrite Hc.
  reflexivity.
Qed.

Lemma set_ok_inv o oid offset size crc o' :
  ObjectTree.set o oid offset size crc = (o', None) ->
  File.closed (ObjectTree.idxFile o) = false
  /\ ObjectTree.idxFile o'
     = File.mk false (File.content (ObjectTree.idxFile o)
                      ++ Object.Marshal (Object.mk oid offset size crc))
  /\ ObjectTree.tree o' = <[oid := Object.mk oid offset size crc]> (ObjectTree.tree o).
Proof.
  unfold ObjectTree.set, ObjectTree.appendToIdxFile, File.Write. simpl.
  destruct (File.closed (ObjectTree.idxFile o)) eqn:Hc; intros E; inversion E.
  auto.
Qed.

Lemma set_open o oid offset size crc :
  File.closed (ObjectTree.idxFile o) = false ->
  exists o', ObjectTree.set o oid offset size crc = (o', None).
Proof.
  intros Hc. unfold ObjectTree.set, ObjectTree.appendToIdxFile, File.Write.
  simpl. rewrite Hc. eauto.
Qed.

Lemma get_insert_live t oid obj :
  ObjectTree.tree t !! oid = Some obj ->
  Object.isTombstone obj = false ->
  ObjectTree.get t oid = Some obj.
Proof. intros Hl Ht. unfold ObjectTree.get. rewrite Hl, Ht. reflexivity. Qed.

(** ** Write *)

(** What a successful [Write] has found and what it leaves behind. *)
Lemma Write_ok_inv s fileId objectId size data crc s' :
  Write s fileId objectId size data crc = Ret (s', None) ->
  exists c c',
    chunks s !! fileId = Some c
    /\ s' = setChunk s fileId c'
    /\ compactLock c = false
    /\ lastOid c <= objectId
    /\ File.closed (file c) = false
    /\ 0 <= size <= len data
    /\ file c' = File.mk false (File.content (file c) ++ take (Z.to_nat size) data)
    /\ ObjectTree.idxFile (tree c')
       = File.mk false
           (File.content (ObjectTree.idxFile (tree c))
            ++ Object.Marshal
                 (Object.mk objectId (uint32 (len (File.content (file c))))
                            (uint32 size) crc))
    /\ ObjectTree.tree (tree c')
       = <[objectId := Object.mk objectId (uint32 (len (File.content (file c))))
                                 (uint32 size) crc]> (ObjectTree.tree (tree c))
    /\ lastOid c' = objectId
    /\ syncLastOid c' = syncLastOid c
    /\ compactLock c' = false.
Proof.
  unfold Write. intros H.
  destruct (chunks s !! fileId) as [c|] eqn:Hc; [|discriminate].
  destruct (compactLock c) eqn:Hlock; [discriminate|].
  unfold loadLastOid in H.
  destruct (Z.ltb_spec objectId (lastOid c)) as [|Hoid]; [discriminate|].
  unfold File.Stat in H.
  destruct (File.closed (file c)) eqn:Hclosed; [discriminate|].
  destruct (slice data 0 size) as [d|] eqn:Hslice; [|discriminate].
  apply slice_prefix_inv in Hslice as [Hsize ->].
  rewrite WriteAt_eof in H by assumption.
  simpl in H.
  destruct (ObjectTree.set (tree c) objectId _ _ crc) as [t err] eqn:Hset.
  destruct err as [e|]; [discriminate|].
  apply set_ok_inv in Hset as (Hidx & Hidx' & Htree).
  inversion H; subst s'; clear H.
  eexists c, _. split; [reflexivity|]. split; [reflexivity|].
  simpl. unfold loadLastOid. simpl.
  destruct (Z.ltb_spec (lastOid c) objectId); simpl;
    repeat split; try assumption; try reflexivity; try lia.
Qed.

(** [Write] succeeds whenever nothing stands in its way. *)
Lemma Write_ok s fileId objectId size data crc c :
  chunks s !! fileId = Some c ->
  compactLock c = false ->
  lastOid c <= objectId ->
  File.closed (file c) = false ->
  File.closed (ObjectTree.idxFile (tree c)) = false ->
  0 <= size <= len data ->
  exists s', Write s fileId objectId size data crc = Ret (s', None).
Proof.
  intros Hc Hlock Hoid Hf Hidx Hsize. unfold Write.
  rewrite Hc, Hlock. unfold loadLastOid.
  destruct (Z.ltb_spec objectId (lastOid c)); [lia|].
  unfold File.Stat. rewrite Hf.
  rewrite slice_prefix by assumption.
  rewrite WriteAt_eof by assumption. simpl.
  destruct (set_open (tree c) objectId (uint32 (len (File.content (file c))))
                     (uint32 size) crc Hidx) as [o' Ho'].
  rewrite Ho'. eauto.
Qed.

(** A stale object id is turned away before anything is touched. *)
Lemma Write_smaller s fileId objectId size data crc c :
  chunks s !! fileId = Some c ->
  compactLock c = false ->
  objectId < lastOid c ->
  Write s fileId objectId size data crc = Ret (s, Some ErrObjectSmaller).
Proof.
  intros Hc Hlock Hoid. unfold Write. rewrite Hc, Hlock. unfold loadLastOid.
  destruct (Z.ltb_spec objectId (lastOid c)); [reflexivity|lia].
Qed.

Lemma lookup_setChunk s chunkId c : chunks (setChunk s chunkId c) !! chunkId = Some c.
Proof. unfold setChunk. simpl. apply lookup_insert_eq. Qed.

(** ** Read *)

(** [Read] of an object that the index knows, with the size that the index
    has for it and a buffer that can take it. *)
Lemma Read_eval s fileId offset size nbuf c o :
  chunks s !! fileId = Some c ->
  uint64 offset <= lastOid c ->
  File.closed (file c) = false ->
  ObjectTree.get (tree c) (uint64 offset) = Some o ->
  Object.Size o = size ->
  0 <= Object.Offset o ->
  is_int64 (Object.Offset o + size) ->
  Object.Offset o + size <= len (File.content (file c)) ->
  0 <= size <= len nbuf ->
  Read s fileId offset size nbuf
  = Ret (Object.Crc o, None,
         fill nbuf (take (Z.to_nat size)
                         (drop (Z.to_nat (Object.Offset o)) (File.content (file c))))).
Proof.
  intros Hc Hoid Hf Hget Hsz Hoff Hi64 Hin Hbuf. unfold Read.
  rewrite Hc. unfold loadLastOid.
  destruct (Z.ltb_spec (lastOid c) (uint64 offset)); [lia|].
  unfold File.Stat. rewrite Hf, Hget, Hsz, Z.eqb_refl.
  rewrite (int64_id _ Hi64).
  destruct (Z.gtb_spec (Object.Offset o + size) (len (File.content (file c))));
    [lia|].
  simpl. rewrite slice_prefix by assumption.
  rewrite len_take_prefix by assumption.
  rewrite ReadAt_inside by (assumption || lia).
  reflexivity.
Qed.

(** Beyond the watermark [Read] does not look at the index at all. *)
Lemma Read_beyond s fileId offset size nbuf c :
  chunks s !! fileId = Some c ->
  lastOid c < uint64 offset ->
  Read s fileId offset size nbuf = Ret (0, Some ErrorFileNotFound, nbuf).
Proof.
  intros Hc Hoid. unfold Read. rewrite Hc. unfold loadLastOid.
  destruct (Z.ltb_spec (lastOid c) (uint64 offset)); [reflexivity|lia].
Qed.

(** What was appended to a file is what is read back at its old length. *)
Lemma take_drop_appended {A : Type} (old d : list A) :
  take (length d) (drop (length old) (old ++ d)) = d.
Proof. rewrite drop_app_length. apply take_ge. lia. Qed.

(** ** The 4 GiB chunk *)

Lemma len_zeros n : 0 <= n -> len (zeros n) = n.
Proof. intros H. unfold len, zeros. rewrite length_replicate. lia. Qed.

Lemma zeros_head n l : 0 < n -> take 1 (zeros n ++ l) = [x00].
Proof.
  intros H. unfold zeros.
  destruct (Z.to_nat n) as [|k] eqn:E; [lia|]. reflexivity.
Qed.

Lemma bigStore_chunk : chunks bigStore !! 1 = Some bigChunk.
Proof. apply lookup_setChunk. Qed.

Lemma bigChunk_len : len (File.content (file bigChunk)) = fourGiB.
Proof. apply len_zeros. unfold fourGiB. lia. Qed.

Local Opaque zeros.

(** ** C1: a write followed by a read *)

Lemma set_tree o oid offset size crc :
  ObjectTree.tree (fst (ObjectTree.set o oid offset size crc))
  = <[oid := Object.mk oid offset size crc]> (ObjectTree.tree o).
Proof.
  unfold ObjectTree.set, ObjectTree.appendToIdxFile, File.Write. simpl.
  destruct (File.closed (ObjectTree.idxFile o)); reflexivity.
Qed.

(** Whatever a call of [Write] returns, it has either left the store alone or
    appended to the data file of its chunk, possibly put its own object id
    into the index of that chunk, and not lowered the chunk's lastOid. *)
Lemma Write_inv s fileId objectId size data crc s' e :
  Write s fileId objectId size data crc = Ret (s', e) ->
  s' = s
  \/ exists c c' extra,
       chunks s !! fileId = Some c
       /\ s' = setChunk s fileId c'
       /\ File.closed (file c) = false
       /\ file c' = File.mk false (File.content (file c) ++ extra)
       /\ (forall oid, oid <> objectId ->
             ObjectTree.tree (tree c') !! oid = ObjectTree.tree (tree c) !! oid)
       /\ lastOid c <= lastOid c'.
Proof.
  unfold Write. intros H.
  destruct (chunks s !! fileId) as [c|] eqn:Hc; [|inversion H; auto].
  destruct (compactLock c) eqn:Hlock; [inversion H; auto|].
  unfold loadLastOid in H.
  destruct (Z.ltb_spec objectId (lastOid c)) as [|Hoid]; [inversion H; auto|].
  unfold File.Stat in H.
  destruct (File.closed (file c)) eqn:Hclosed; [inversion H; auto|].
  destruct (slice data 0 size) as [d|] eqn:Hslice; [|discriminate].
  rewrite WriteAt_eof in H by assumption.
  simpl in H.
  pose proof (set_tree (tree c) objectId (uint32 (len (File.content (file c))))
                       (uint32 size) crc) as Htree.
  destruct (ObjectTree.set (tree c) objectId _ _ crc) as [t err].
  simpl in Htree.
  right. exists c.
  destruct err as [e'|]; inversion H; subst s' e; clear H;
    eexists _, d; (split; [reflexivity|]); (split; [reflexivity|]);
    (split; [assumption|]).
  - simpl. split; [reflexivity|]. split; [|lia].
    intros oid Hne. rewrite Htree. apply lookup_insert_ne. congruence.
  - unfold loadLastOid. simpl.
    destruct (Z.ltb_spec (lastOid c) objectId); simpl;
      (split; [reflexivity|]); (split; [|lia]);
      intros oid Hne; rewrite Htree; apply lookup_insert_ne; congruence.
Qed.

(** A successful write makes its object readable. *)
Lemma Write_Readable s fileId objectId size data crc s' c :
  chunks s !! fileId = Some c ->
  Write s fileId objectId size data crc = Ret (s', None) ->
  len (File.content (file c)) < 2 ^ 32 ->
  size < Object.TombstoneFileSize ->
  Readable s' fileId objectId size (take (Z.to_nat size) data) crc.
Proof.
  intros Hc Hw Hlen Hsz.
  destruct (Write_ok_inv _ _ _ _ _ _ _ Hw)
    as (c0 & c' & Hc0 & -> & _ & _ & _ & Hsize & Hfile & _ & Htree & Hlast & _).
  rewrite Hc in Hc0. inversion Hc0; subst c0; clear Hc0.
  pose proof (len_nonneg (File.content (file c))) as Hnn.
  assert (Hu32 : uint32 size = size).
  { apply uint32_id. unfold is_uint32, Object.TombstoneFileSize in *. lia. }
  assert (Hoff : uint32 (len (File.content (file c))) = len (File.content (file c))).
  { apply uint32_id. unfold is_uint32. lia. }
  rewrite Hu32, Hoff in Htree.
  exists c', (Object.mk objectId (len (File.content (file c))) size crc).
  split; [apply lookup_setChunk|]. split; [rewrite Hfile; reflexivity|].
  split; [lia|]. split; [rewrite Htree; apply lookup_insert_eq|].
  split; [unfold Object.isTombstone; simpl; apply Z.eqb_neq; lia|].
  split; [reflexivity|]. split; [reflexivity|]. split; [lia|].
  split; [simpl; lia|].
  split; [simpl; unfold is_int64, Object.TombstoneFileSize in *; lia|].
  rewrite Hfile. simpl.
  split; [rewrite len_app, len_take_prefix by assumption; lia|].
  unfold len. rewrite Nat2Z.id.
  assert (Hl : length (take (Z.to_nat size) data) = Z.to_nat size).
  { rewrite length_take. unfold len in Hsize. lia. }
  rewrite <- Hl at 1. apply take_drop_appended.
Qed.

(** A write of another object, to this chunk or to another one, leaves a
    readable object readable, whether the write succeeds or not. *)
Lemma Readable_Write_other s fileId oid size payload crc w s' e :
  Readable s fileId oid size payload crc ->
  otherObject fileId oid w ->
  Write s (wFileId w) (wOid w) (wSize w) (wData w) (wCrc w) = Ret (s', e) ->
  Readable s' fileId oid size payload crc.
Proof.
  intros (c & o & Hc & Hf & Hoid & Ht & Htomb & Hsz & Hcrc & Hsz0 & Hoff & Hi64 & Hin & Hpay)
         Hother Hw.
  destruct (Write_inv _ _ _ _ _ _ _ _ Hw)
    as [-> | (c1 & c1' & extra & Hc1 & -> & Hf1 & Hfile & Htree & Hlast)].
  { exists c, o. repeat (split; [assumption|]). assumption. }
  destruct (decide (wFileId w = fileId)) as [Heq|Hne].
  - rewrite Heq in *. rewrite Hc in Hc1. inversion Hc1; subst c1; clear Hc1.
    assert (Hoid' : oid <> wOid w) by (destruct Hother; congruence).
    exists c1', o. split; [apply lookup_setChunk|].
    split; [rewrite Hfile; reflexivity|]. split; [lia|].
    split; [rewrite Htree by assumption; assumption|].
    repeat (split; [assumption|]).
    rewrite Hfile. simpl. split; [rewrite len_app; pose proof (len_nonneg extra); lia|].
    unfold len in Hin.
    rewrite drop_app_le by lia. rewrite take_app_le; [assumption|].
    rewrite length_drop. lia.
  - exists c, o. split.
    { unfold setChunk. simpl. rewrite lookup_insert_ne by assumption. assumption. }
    repeat (split; [assumption|]). assumption.
Qed.

Lemma Readable_runWrites ws s fileId oid size payload crc s' :
  Readable s fileId oid size payload crc ->
  Forall (otherObject fileId oid) ws ->
  runWrites s ws = Ret s' ->
  Readable s' fileId oid size payload crc.
Proof.
  revert s. induction ws as [|w ws IH]; intros s Hr Hall Hrun.
  - simpl in Hrun. inversion Hrun; subst. assumption.
  - inversion Hall as [|? ? Hw Hws]; subst. cbn [runWrites] in Hrun.
    destruct (Write s _ _ _ _ _) as [[s1 e]|] eqn:Hwr; [|discriminate].
    apply (IH s1); [|assumption|assumption].
    apply (Readable_Write_other s _ _ _ _ _ w s1 e); assumption.
Qed.

(** [Read] returns a readable object. *)
Lemma Readable_Read s fileId oid size payload crc nbuf :
  Readable s fileId oid size payload crc ->
  is_uint64 oid ->
  0 <= size <= len nbuf ->
  Read s fileId (int64 oid) size nbuf = Ret (crc, None, fill nbuf payload).
Proof.
  intros (c & o & Hc & Hf & Hoid & Ht & Htomb & Hsz & Hcrc & Hsz0 & Hoff & Hi64 & Hin & Hpay)
         Hu Hbuf.
  rewrite (Read_eval _ _ _ _ _ c o); try assumption.
  - rewrite Hcrc, Hpay. reflexivity.
  - rewrite (uint64_int64 _ Hu). assumption.
  - rewrite (uint64_int64 _ Hu). apply get_insert_live; assumption.
Qed.

(** C1, as amended: for a chunk present in the store whose data file is
    shorter than 4 GiB, every object id, every size below the TOMBSTONE
    sentinel, every data and crc: if [Write] succeeds and only writes of
    other objects (to this chunk or to others) follow it, then a [Read] with
    the same id and size and a buffer of at least [size] bytes succeeds,
    returns [crc] and leaves [data[:size]] in the first [size] bytes of the
    buffer. *)
Theorem write_then_read s fileId objectId size data crc s1 ws s2 nbuf c :
  chunks s !! fileId = Some c ->
  is_uint64 objectId ->
  Write s fileId objectId size data crc = Ret (s1, None) ->
  len (File.content (file c)) < 2 ^ 32 ->
  size < Object.TombstoneFileSize ->
  Forall (otherObject fileId objectId) ws ->
  runWrites s1 ws = Ret s2 ->
  size <= len nbuf ->
  Read s2 fileId (int64 objectId) size nbuf
  = Ret (crc, None, take (Z.to_nat size) data ++ drop (Z.to_nat size) nbuf).
Proof.
  intros Hc Hoid Hw Hlen Hsz Hws Hrun Hbuf.
  pose proof (Write_ok_inv _ _ _ _ _ _ _ Hw)
    as (_ & _ & _ & _ & _ & _ & _ & Hsize & _).
  pose proof (Write_Readable _ _ _ _ _ _ _ _ Hc Hw Hlen Hsz) as Hr.
  pose proof (Readable_runWrites _ _ _ _ _ _ _ _ Hr Hws Hrun) as Hr2.
  rewrite (Readable_Read _ _ _ _ _ _ nbuf Hr2 Hoid) by lia.
  unfold fill. rewrite length_take. unfold len in Hsize.
  replace (Z.to_nat size `min` length data)%nat with (Z.to_nat size) by lia.
  reflexivity.
Qed.

Lemma write_then_read_witness :
  chunks store0 !! 1 = Some NewChunk
  /\ is_uint64 1
  /\ Write store0 1 1 5 hello crcHello = Ret (storeHello, None)
  /\ len (File.content (file NewChunk)) < 2 ^ 32
  /\ 5 < Object.TombstoneFileSize
  /\ Forall (otherObject 1 1) [mkWriteReq 1 2 1 [x41] crcA]
  /\ runWrites storeHello [mkWriteReq 1 2 1 [x41] crcA] = Ret storeHelloA
  /\ 5 <= len [xff; xff; xff; xff; xff; xff]
  /\ Read storeHelloA 1 (int64 1) 5 [xff; xff; xff; xff; xff; xff]
     = Ret (crcHello, None, hello ++ [xff]).
Proof.
  assert (H1 : chunks store0 !! 1 = Some NewChunk) by reflexivity.
  assert (H2 : is_uint64 1) by (unfold is_uint64; lia).
  assert (H3 : Write store0 1 1 5 hello crcHello = Ret (storeHello, None))
    by (vm_compute; reflexivity).
  assert (H4 : len (File.content (file NewChunk)) < 2 ^ 32)
    by (vm_compute; reflexivity).
  assert (H5 : 5 < Object.TombstoneFileSize) by (vm_compute; reflexivity).
  assert (H6 : Forall (otherObject 1 1) [mkWriteReq 1 2 1 [x41] crcA]).
  { constructor; [right; simpl; lia|constructor]. }
  assert (H7 : runWrites storeHello [mkWriteReq 1 2 1 [x41] crcA] = Ret storeHelloA)
    by (vm_compute; reflexivity).
  assert (H8 : 5 <= len [xff; xff; xff; xff; xff; xff])
    by (vm_compute; discriminate).
  repeat (split; [assumption|]).
  exact (write_then_read store0 1 1 5 hello crcHello storeHello _ storeHelloA
           [xff; xff; xff; xff; xff; xff] NewChunk H1 H2 H3 H4 H5 H6 H7 H8).
Defined.

(** An index miss at or below the watermark. *)
Lemma Read_index_miss s fileId offset size nbuf c :
  chunks s !! fileId = Some c ->
  uint64 offset <= lastOid c ->
  File.closed (file c) = false ->
  ObjectTree.get (tree c) (uint64 offset) = None ->
  Read s fileId offset size nbuf = Ret (0, Some ErrorObjNotFound, nbuf).
Proof.
  intros Hc Hle Hf Hget. unfold Read. rewrite Hc. unfold loadLastOid.
  destruct (Z.ltb_spec (lastOid c) (uint64 offset)); [lia|].
  unfold File.Stat. rewrite Hf, Hget. reflexivity.
Qed.

(** C1 fails as stated, in four ways.
    (1) On a data file of 4 GiB: the index keeps the offset in 32 bits,
    object 3 is written at offset 2^32 and indexed at offset 0, and the read
    that follows succeeds with the first byte of the file instead of the
    byte written.
    (2) With size 2^32-1: the size is the TOMBSTONE sentinel, the object is
    indexed as deleted and the read fails with ErrorObjNotFound.
    (3) With a buffer shorter than the size the read panics.
    (4) A second write of the same object id, which is neither a delete nor
    a compaction, is accepted, and the read returns its bytes and crc. *)
Lemma write_then_read_fails :
  (exists s' buf,
     chunks bigStore !! 1 = Some bigChunk
     /\ Write bigStore 1 3 1 [x41] crcA = Ret (s', None)
     /\ Read s' 1 (int64 3) 1 [xff] = Ret (crcA, None, buf)
     /\ buf <> take 1 [x41] ++ drop 1 [xff])
  /\ (exists s',
        Write store0 1 1 4294967295 (zeros 4294967295) 0 = Ret (s', None)
        /\ Read s' 1 (int64 1) 4294967295 (zeros 4294967295)
           = Ret (0, Some ErrorObjNotFound, zeros 4294967295))
  /\ (Write store0 1 1 5 hello crcHello = Ret (storeHello, None)
      /\ Read storeHello 1 (int64 1) 5 [xff; xff] = Panic)
  /\ (Write store0 1 1 5 hello crcHello = Ret (storeHello, None)
      /\ Write storeHello 1 1 5 world crcWorld = Ret (storeWorld, None)
      /\ Read storeWorld 1 (int64 1) 5 [xff; xff; xff; xff; xff]
         = Ret (crcWorld, None, world)
      /\ world <> hello).
Proof.
  split; [|split; [|split]].
  - destruct (Write_ok bigStore 1 3 1 [x41] crcA bigChunk) as [s' Hw].
    { apply bigStore_chunk. }
    { reflexivity. }
    { unfold bigChunk. simpl. lia. }
    { reflexivity. }
    { reflexivity. }
    { unfold len. simpl. lia. }
    exists s', [x00]. split; [apply bigStore_chunk|]. split; [exact Hw|].
    split; [|discriminate].
    destruct (Write_ok_inv _ _ _ _ _ _ _ Hw)
      as (c0 & c' & Hc0 & -> & _ & _ & _ & _ & Hfile & _ & Htree & Hlast & _).
    rewrite bigStore_chunk in Hc0. inversion Hc0; subst c0; clear Hc0 Hw.
    rewrite bigChunk_len in Htree.
    change (uint32 fourGiB) with 0 in Htree.
    change (uint32 1) with 1 in Htree.
    change (File.content (file bigChunk)) with (zeros fourGiB) in Hfile.
    set (o := Object.mk 3 0 1 crcA) in *.
    rewrite (Read_eval _ _ _ _ _ c' o).
    + rewrite Hfile.
      change (File.content (File.mk false (zeros fourGiB ++ take (Z.to_nat 1) [x41])))
        with (zeros fourGiB ++ take (Z.to_nat 1) [x41]).
      change (Z.to_nat (Object.Offset o)) with 0%nat.
      rewrite drop_0.
      change (Z.to_nat 1) with 1%nat.
      rewrite zeros_head by (unfold fourGiB; lia).
      reflexivity.
    + apply lookup_setChunk.
    + rewrite Hlast. vm_compute. discriminate.
    + rewrite Hfile. reflexivity.
    + change (uint64 (int64 3)) with 3. apply get_insert_live.
      * rewrite Htree. apply lookup_insert_eq.
      * reflexivity.
    + reflexivity.
    + change (Object.Offset o) with 0. lia.
    + change (Object.Offset o) with 0. unfold is_int64. lia.
    + rewrite Hfile.
      change (File.content (File.mk false (zeros fourGiB ++ take (Z.to_nat 1) [x41])))
        with (zeros fourGiB ++ take (Z.to_nat 1) [x41]).
      rewrite len_app, len_zeros by (unfold fourGiB; lia).
      change (Object.Offset o) with 0.
      pose proof (len_nonneg (take (Z.to_nat 1) [x41])).
      unfold fourGiB. lia.
    + unfold len. simpl. lia.
  - destruct (Write_ok store0 1 1 4294967295 (zeros 4294967295) 0 NewChunk)
      as [s' Hw]; try reflexivity.
    { simpl. lia. }
    { rewrite len_zeros by lia. lia. }
    exists s'. split; [exact Hw|].
    destruct (Write_ok_inv _ _ _ _ _ _ _ Hw)
      as (c0 & c' & Hc0 & -> & _ & _ & _ & _ & Hfile & _ & Htree & Hlast & _).
    clear Hw.
    apply (Read_index_miss _ _ _ _ _ c').
    + apply lookup_setChunk.
    + rewrite Hlast. vm_compute. discriminate.
    + rewrite Hfile. reflexivity.
    + change (uint64 (int64 1)) with 1. unfold ObjectTree.get.
      rewrite Htree, lookup_insert_eq. reflexivity.
  - split; vm_compute; reflexivity.
  - split; [vm_compute; reflexivity|]. split; [vm_compute; reflexivity|].
    split; [vm_compute; reflexivity|]. discriminate.
Qed.

(** ** C2: a stale object id *)

(** After a successful write the chunk takes any write whose object id is
    not below the one just written. *)
Lemma Write_after_write s fileId O size data crc s1 o2 size2 data2 crc2 :
  Write s fileId O size data crc = Ret (s1, None) ->
  O <= o2 ->
  0 <= size2 <= len data2 ->
  exists s2 c2,
    Write s1 fileId o2 size2 data2 crc2 = Ret (s2, None)
    /\ chunks s2 !! fileId = Some c2
    /\ lastOid c2 = o2
    /\ dataOf s2 fileId = dataOf s1 fileId ++ take (Z.to_nat size2) data2.
Proof.
  intros Hw Hle Hsz.
  destruct (Write_ok_inv _ _ _ _ _ _ _ Hw)
    as (c & c1 & Hc & -> & _ & _ & _ & _ & Hfile & Hidx & _ & Hlast & _ & Hlock).
  assert (Hf1 : File.closed (file c1) = false) by (rewrite Hfile; reflexivity).
  assert (Hi1 : File.closed (ObjectTree.idxFile (tree c1)) = false)
    by (rewrite Hidx; reflexivity).
  pose proof (lookup_setChunk s fileId c1) as Hc1.
  destruct (Write_ok _ fileId o2 size2 data2 crc2 c1 Hc1 Hlock) as [s2 Hw2];
    [lia|assumption|assumption|assumption|].
  destruct (Write_ok_inv _ _ _ _ _ _ _ Hw2)
    as (c1' & c2 & Hc1' & -> & _ & _ & _ & _ & Hfile2 & _ & _ & Hlast2 & _).
  rewrite Hc1 in Hc1'. inversion Hc1'; subst c1'.
  eexists _, c2. split; [exact Hw2|]. split; [apply lookup_setChunk|].
  split; [exact Hlast2|].
  unfold dataOf. rewrite lookup_setChunk, Hc1, Hfile2. reflexivity.
Qed.

(** C2, as amended: after a successful [Write] of object id [O] to a chunk,
    (1) a second [Write] to that chunk with the same id [O] is accepted: it
    appends its data to the data file, the chunk's lastOid stays [O], and it
    overwrites the index entry of [O], which from then on holds the offset
    at which the second data was appended and the size and the crc of the
    second call, so that [GetObject] returns that record and [Read] the
    second data and crc (for a live size and a data file shorter than
    4 GiB); after it a [Write] with an id below [O] is still refused and a
    [Write] with id [O+1] succeeds and sets lastOid to [O+1];
    (2) a [Write] with an id below [O] returns ErrObjectSmaller and leaves
    the store as it was; (3) a [Write] with id [O+1] succeeds and sets
    lastOid to [O+1]. *)
Theorem write_same_smaller_next s fileId O size data crc s1 :
  is_uint64 O ->
  O + 1 < 2 ^ 64 ->
  Write s fileId O size data crc = Ret (s1, None) ->
  (forall size2 data2 crc2, 0 <= size2 <= len data2 ->
     exists s2 c2,
       Write s1 fileId O size2 data2 crc2 = Ret (s2, None)
       /\ chunks s2 !! fileId = Some c2
       /\ lastOid c2 = O
       /\ dataOf s2 fileId = dataOf s1 fileId ++ take (Z.to_nat size2) data2
       /\ ObjectTree.tree (tree c2) !! O
          = Some (Object.mk O (uint32 (len (dataOf s1 fileId))) (uint32 size2) crc2)
       /\ (uint32 size2 <> Object.TombstoneFileSize ->
           GetObject s2 fileId O
           = (Some (Object.mk O (uint32 (len (dataOf s1 fileId))) (uint32 size2) crc2),
              None))
       /\ (len (dataOf s1 fileId) < 2 ^ 32 -> size2 < Object.TombstoneFileSize ->
           forall nbuf, size2 <= len nbuf ->
             Read s2 fileId (int64 O) size2 nbuf
             = Ret (crc2, None, fill nbuf (take (Z.to_nat size2) data2)))
       /\ (forall o size3 data3 crc3, o < O ->
             Write s2 fileId o size3 data3 crc3 = Ret (s2, Some ErrObjectSmaller))
       /\ forall size3 data3 crc3, 0 <= size3 <= len data3 ->
            exists s3 c3,
              Write s2 fileId (uint64 (O + 1)) size3 data3 crc3 = Ret (s3, None)
              /\ chunks s3 !! fileId = Some c3
              /\ lastOid c3 = O + 1)
  /\ (forall o size2 data2 crc2, o < O ->
        Write s1 fileId o size2 data2 crc2 = Ret (s1, Some ErrObjectSmaller))
  /\ (forall size2 data2 crc2, 0 <= size2 <= len data2 ->
        exists s2 c2,
          Write s1 fileId (uint64 (O + 1)) size2 data2 crc2 = Ret (s2, None)
          /\ chunks s2 !! fileId = Some c2
          /\ lastOid c2 = O + 1).
Proof.
  intros HO HO1 Hw.
  assert (Hu : uint64 (O + 1) = O + 1)
    by (apply uint64_id; unfold is_uint64 in *; lia).
  rewrite Hu.
  split; [|split].
  - intros size2 data2 crc2 Hsz.
    destruct (Write_after_write _ _ _ _ _ _ _ O size2 data2 crc2 Hw)
      as (s2 & c2 & Hw2 & Hc2 & Hlast2 & Hdata2); [lia|assumption|].
    exists s2, c2. repeat (split; [assumption|]).
    destruct (Write_ok_inv _ _ _ _ _ _ _ Hw) as (c & c1 & _ & Hs1 & _).
    assert (Hc1 : chunks s1 !! fileId = Some c1)
      by (rewrite Hs1; apply lookup_setChunk).
    assert (Hd1 : dataOf s1 fileId = File.content (file c1))
      by (unfold dataOf; rewrite Hc1; reflexivity).
    assert (Hentry : ObjectTree.tree (tree c2) !! O
                     = Some (Object.mk O (uint32 (len (dataOf s1 fileId)))
                                       (uint32 size2) crc2)).
    { destruct (Write_ok_inv _ _ _ _ _ _ _ Hw2)
        as (c1' & c2' & Hc1' & Hs2 & _ & _ & _ & _ & _ & _ & Htree & _).
      rewrite Hc1 in Hc1'. inversion Hc1'; subst c1'; clear Hc1'.
      rewrite Hs2, lookup_setChunk in Hc2. inversion Hc2; subst c2'; clear Hc2.
      rewrite Htree, lookup_insert_eq, Hd1. reflexivity. }
    split; [exact Hentry|].
    split.
    { intros Hlive. unfold GetObject, ObjectTree.get. rewrite Hc2, Hentry.
      unfold Object.isTombstone. cbn [Object.Size].
      destruct (Z.eqb_spec (uint32 size2) Object.TombstoneFileSize);
        [contradiction|reflexivity]. }
    split.
    { intros Hshort Hlive nbuf Hbuf.
      apply Readable_Read; [|assumption|lia].
      apply (Write_Readable s1 fileId O size2 data2 crc2 s2 c1);
        [assumption|assumption| |assumption].
      rewrite <- Hd1. assumption. }
    split.
    { intros o size3 data3 crc3 Ho.
      destruct (Write_ok_inv _ _ _ _ _ _ _ Hw2)
        as (c1' & c2' & _ & Hs2 & _ & _ & _ & _ & _ & _ & _ & _ & _ & Hlock2).
      assert (Hc2' : c2' = c2).
      { rewrite Hs2, lookup_setChunk in Hc2. inversion Hc2. reflexivity. }
      subst c2'.
      apply (Write_smaller _ _ _ _ _ _ c2); [assumption|assumption|lia]. }
    intros size3 data3 crc3 Hsz3.
    destruct (Write_after_write _ _ _ _ _ _ _ (O + 1) size3 data3 crc3 Hw2)
      as (s3 & c3 & Hw3 & Hc3 & Hlast3 & _); [lia|assumption|].
    exists s3, c3. auto.
  - intros o size2 data2 crc2 Ho.
    destruct (Write_ok_inv _ _ _ _ _ _ _ Hw)
      as (c & c1 & _ & -> & _ & _ & _ & _ & _ & _ & _ & Hlast & _ & Hlock).
    apply (Write_smaller _ _ _ _ _ _ c1);
      [apply lookup_setChunk|assumption|lia].
  - intros size2 data2 crc2 Hsz.
    destruct (Write_after_write _ _ _ _ _ _ _ (O + 1) size2 data2 crc2 Hw)
      as (s2 & c2 & Hw2 & Hc2 & Hlast2 & _); [lia|assumption|].
    exists s2, c2. auto.
Qed.

Lemma write_same_smaller_next_witness :
  is_uint64 1 /\ 1 + 1 < 2 ^ 64
  /\ Write store0 1 1 5 hello crcHello = Ret (storeHello, None)
  /\ (forall o size2 data2 crc2, o < 1 ->
        Write storeHello 1 o size2 data2 crc2
        = Ret (storeHello, Some ErrObjectSmaller)).
Proof.
  assert (H1 : is_uint64 1) by (unfold is_uint64; lia).
  assert (H2 : 1 + 1 < 2 ^ 64) by lia.
  assert (H3 : Write store0 1 1 5 hello crcHello = Ret (storeHello, None))
    by (vm_compute; reflexivity).
  split; [exact H1|]. split; [exact H2|]. split; [exact H3|].
  exact (proj1 (proj2 (write_same_smaller_next store0 1 1 5 hello crcHello
                         storeHello H1 H2 H3))).
Defined.

(** C2 fails as stated: after object 1 was written to chunk 1, a second
    write of object 1 is not turned away with ErrObjectSmaller; it succeeds
    and the data file has grown. *)
Lemma write_same_oid_accepted :
  Write store0 1 1 5 hello crcHello = Ret (storeHello, None)
  /\ Write storeHello 1 1 5 hello crcHello = Ret (storeHelloTwice, None)
  /\ Write storeHello 1 1 5 hello crcHello
     <> Ret (storeHello, Some ErrObjectSmaller)
  /\ dataOf storeHello 1 = hello
  /\ dataOf storeHelloTwice 1 = hello ++ hello.
Proof.
  assert (H : Write storeHello 1 1 5 hello crcHello = Ret (storeHelloTwice, None))
    by (vm_compute; reflexivity).
  split; [vm_compute; reflexivity|]. split; [exact H|].
  split.
  { intros E. pose proof (eq_trans (eq_sym H) E) as E2.
    apply (f_equal errOf) in E2. discriminate E2. }
  split; vm_compute; reflexivity.
Qed.

(** ** C3: reading beyond the watermark *)

(** C3, as amended: for a chunk present in the store, [Read] with an object
    id above the chunk's lastOid fails with ErrorFileNotFound, the error of
    a missing chunk, returns crc 0 and leaves the buffer alone; the error of
    an index miss, ErrorObjNotFound, is what an id at or below lastOid gets
    when the index has no live record for it. *)
Theorem read_beyond_watermark s fileId offset size nbuf c :
  chunks s !! fileId = Some c ->
  lastOid c < uint64 offset ->
  Read s fileId offset size nbuf = Ret (0, Some ErrorFileNotFound, nbuf)
  /\ (forall s0, chunks s0 !! fileId = None ->
        Read s0 fileId offset size nbuf = Ret (0, Some ErrorFileNotFound, nbuf))
  /\ (forall offset', uint64 offset' <= lastOid c ->
        File.closed (file c) = false ->
        ObjectTree.get (tree c) (uint64 offset') = None ->
        Read s fileId offset' size nbuf = Ret (0, Some ErrorObjNotFound, nbuf)).
Proof.
  intros Hc Hoid. split; [|split].
  - apply (Read_beyond _ _ _ _ _ c); assumption.
  - intros s0 H0. unfold Read. rewrite H0. reflexivity.
  - intros offset' Hle Hf Hget.
    apply (Read_index_miss _ _ _ _ _ c); assumption.
Qed.

Lemma read_beyond_watermark_witness :
  chunks storeHello !! 1 = Some (chunkOf storeHello 1)
  /\ lastOid (chunkOf storeHello 1) < uint64 2
  /\ Read storeHello 1 2 5 [xff; xff; xff; xff; xff]
     = Ret (0, Some ErrorFileNotFound, [xff; xff; xff; xff; xff]).
Proof.
  assert (Hc : chunks storeHello !! 1 = Some (chunkOf storeHello 1))
    by (vm_compute; reflexivity).
  assert (Hlt : lastOid (chunkOf storeHello 1) < uint64 2)
    by (vm_compute; reflexivity).
  split; [exact Hc|]. split; [exact Hlt|].
  exact (proj1 (read_beyond_watermark storeHello 1 2 5 _ _ Hc Hlt)).
Defined.

(** C3 fails as stated: object 2 is above the watermark 1 of chunk 1, and
    the error is ErrorFileNotFound, not ErrorObjNotFound. *)
Lemma read_beyond_watermark_not_ObjNotFound :
  chunks storeHello !! 1 = Some (chunkOf storeHello 1)
  /\ lastOid (chunkOf storeHello 1) = 1
  /\ Read storeHello 1 2 5 [xff; xff; xff; xff; xff]
     = Ret (0, Some ErrorFileNotFound, [xff; xff; xff; xff; xff])
  /\ Read storeHello 1 2 5 [xff; xff; xff; xff; xff]
     <> Ret (0, Some ErrorObjNotFound, [xff; xff; xff; xff; xff]).
Proof.
  split; [vm_compute; reflexivity|]. split; [vm_compute; reflexivity|].
  split; [vm_compute; reflexivity|]. vm_compute. discriminate.
Qed.

(** ** Index records on disk *)

Lemma byte_to_of_Z z : byte_to_Z (byte_of_Z z) = z mod 256.
Proof.
  unfold byte_to_Z, byte_of_Z.
  assert (Hb : 0 <= z mod 256 < 256) by (apply Z.mod_pos_bound; lia).
  destruct (Byte.of_N (Z.to_N (z mod 256))) as [b|] eqn:E.
  - apply Byte.to_of_N in E. rewrite E. apply Z2N.id. lia.
  - apply Byte.of_N_None_iff in E. lia.
Qed.

Lemma length_be_encode n z : length (be_encode n z) = n.
Proof.
  revert z. induction n as [|n IH]; intros z; simpl; [reflexivity|].
  rewrite length_app, IH. simpl. lia.
Qed.

Lemma be_decode_snoc bs b : be_decode (bs ++ [b]) = be_decode bs * 256 + byte_to_Z b.
Proof. unfold be_decode. rewrite fold_left_app. reflexivity. Qed.

(** Decoding gives back the [n] low bytes that were encoded. *)
Lemma be_decode_encode n z : be_decode (be_encode n z) = z mod 256 ^ Z.of_nat n.
Proof.
  revert z. induction n as [|n IH]; intros z.
  - simpl. rewrite Z.mod_1_r. reflexivity.
  - change (be_encode (S n) z) with (be_encode n (z / 256) ++ [byte_of_Z z]).
    rewrite be_decode_snoc, IH, byte_to_of_Z.
    rewrite Nat2Z.inj_succ, Z.pow_succ_r by lia.
    rewrite (Z.rem_mul_r z 256 (256 ^ Z.of_nat n)) by lia.
    lia.
Qed.

Lemma length_Marshal o : length (Object.Marshal o) = 20%nat.
Proof.
  unfold Object.Marshal. rewrite !length_app, !length_be_encode. reflexivity.
Qed.

Lemma len_Marshal o : len (Object.Marshal o) = Object.ObjectHeaderSize.
Proof. unfold len. rewrite length_Marshal. reflexivity. Qed.

Lemma header_fields {A : Type} (a b c d : list A) :
  length a = 8%nat -> length b = 4%nat -> length c = 4%nat -> length d = 4%nat ->
  take 8 (a ++ b ++ c ++ d) = a
  /\ take 4 (drop 8 (a ++ b ++ c ++ d)) = b
  /\ take 4 (drop 12 (a ++ b ++ c ++ d)) = c
  /\ take 4 (drop 16 (a ++ b ++ c ++ d)) = d.
Proof.
  intros Ha Hb Hc Hd. repeat split.
  - apply take_app_length'. auto.
  - rewrite drop_app_length' by auto. apply take_app_length'. auto.
  - rewrite drop_app_ge by lia. rewrite Ha. change (12 - 8)%nat with 4%nat.
    rewrite drop_app_length' by auto. apply take_app_length'. auto.
  - rewrite drop_app_ge by lia. rewrite Ha. change (16 - 8)%nat with 8%nat.
    rewrite drop_app_ge by lia. rewrite Hb. change (8 - 4)%nat with 4%nat.
    rewrite drop_app_length' by auto. apply take_ge. lia.
Qed.

(** A record whose fields fit their widths is read back as it was written,
    whatever follows it. *)
Lemma Unmarshal_Marshal_app o rest :
  is_uint64 (Object.Oid o) -> is_uint32 (Object.Offset o) ->
  is_uint32 (Object.Size o) -> is_uint32 (Object.Crc o) ->
  Object.Unmarshal (take 20 (Object.Marshal o ++ rest)) = o.
Proof.
  intros H1 H2 H3 H4.
  rewrite take_app_length' by (symmetry; apply length_Marshal).
  destruct o as [oid off sz crc]. unfold Object.Unmarshal, Object.Marshal.
  cbn [Object.Oid Object.Offset Object.Size Object.Crc] in *.
  destruct (header_fields (be_encode 8 oid) (be_encode 4 off)
                          (be_encode 4 sz) (be_encode 4 crc))
    as (-> & -> & -> & ->); try apply length_be_encode.
  rewrite !be_decode_encode.
  unfold is_uint64, is_uint32 in *.
  f_equal; apply Z.mod_small;
    [change (256 ^ Z.of_nat 8) with (2 ^ 64)
    |change (256 ^ Z.of_nat 4) with (2 ^ 32) ..]; lia.
Qed.

(** Appending a record to an index file made of whole records adds that
    record, and only that record, to what a walk sees. *)
Lemma records_app n a o :
  length a = (20 * n)%nat ->
  is_uint64 (Object.Oid o) -> is_uint32 (Object.Offset o) ->
  is_uint32 (Object.Size o) -> is_uint32 (Object.Crc o) ->
  records (S n) (a ++ Object.Marshal o) = records n a ++ [o].
Proof.
  intros Hlen H1 H2 H3 H4. revert a Hlen.
  induction n as [|n IH]; intros a Hlen.
  - destruct a; [|discriminate]. cbn [records app].
    rewrite <- (app_nil_r (Object.Marshal o)).
    rewrite Unmarshal_Marshal_app by assumption. reflexivity.
  - change (records (S (S n)) (a ++ Object.Marshal o))
      with (Object.Unmarshal (take 20 (a ++ Object.Marshal o))
            :: records (S n) (drop 20 (a ++ Object.Marshal o))).
    rewrite take_app_le by lia. rewrite drop_app_le by lia.
    rewrite IH by (rewrite length_drop; lia).
    reflexivity.
Qed.

Lemma idxRecords_append f o :
  (len (File.content f) mod Object.ObjectHeaderSize = 0) ->
  is_uint64 (Object.Oid o) -> is_uint32 (Object.Offset o) ->
  is_uint32 (Object.Size o) -> is_uint32 (Object.Crc o) ->
  idxRecords (File.mk false (File.content f ++ Object.Marshal o))
  = idxRecords f ++ [o].
Proof.
  intros Hmod H1 H2 H3 H4. unfold idxRecords. simpl File.content.
  rewrite len_app, len_Marshal. unfold Object.ObjectHeaderSize in *.
  pose proof (len_nonneg (File.content f)) as Hnn.
  assert (Hq : len (File.content f) = 20 * (len (File.content f) / 20)).
  { rewrite (Z.div_mod (len (File.content f)) 20) at 1 by lia. lia. }
  assert (Hq0 : 0 <= len (File.content f) / 20) by (apply Z.div_pos; lia).
  replace ((len (File.content f) + 20) / 20) with (len (File.content f) / 20 + 1).
  2:{ rewrite Hq at 2.
      replace (20 * (len (File.content f) / 20) + 20)
        with ((len (File.content f) / 20 + 1) * 20) by lia.
      rewrite Z.div_mul by lia. reflexivity. }
  rewrite Z2Nat.inj_add by lia. rewrite Nat.add_1_r.
  apply records_app; try assumption.
  unfold len in *. lia.
Qed.

(** ** C10: the tombstone entry *)

(** What a successful [WriteDeleteDentry] has found and what it leaves
    behind. *)
Lemma WriteDeleteDentry_ok_inv s objectId chunkId crc s' :
  WriteDeleteDentry s objectId chunkId crc = (s', None) ->
  exists c c',
    chunks s !! chunkId = Some c
    /\ s' = setChunk s chunkId c'
    /\ compactLock c = false
    /\ File.closed (file c) = false
    /\ file c' = file c
    /\ ObjectTree.idxFile (tree c')
       = File.mk false
           (File.content (ObjectTree.idxFile (tree c))
            ++ Object.Marshal
                 (Object.mk objectId (uint32 (len (File.content (file c))))
                            Object.TombstoneFileSize crc))
    /\ ObjectTree.tree (tree c') = ObjectTree.tree (tree c)
    /\ ObjectTree.fileBytes (tree c') = ObjectTree.fileBytes (tree c)
    /\ ObjectTree.deleteBytes (tree c') = ObjectTree.deleteBytes (tree c)
    /\ lastOid c' = Z.max (lastOid c) objectId
    /\ syncLastOid c' = syncLastOid c
    /\ compactLock c' = false.
Proof.
  unfold WriteDeleteDentry. intros H.
  destruct (chunks s !! chunkId) as [c|] eqn:Hc; [|discriminate].
  destruct (compactLock c) eqn:Hlock; [discriminate|].
  unfold File.Stat in H.
  destruct (File.closed (file c)) eqn:Hclosed; [discriminate|].
  unfold ObjectTree.appendToIdxFile, File.Write in H.
  destruct (File.closed (ObjectTree.idxFile (tree c))) eqn:Hidx; [discriminate|].
  simpl in H. unfold loadLastOid in H. simpl in H.
  inversion H; subst s'; clear H.
  eexists c, _. split; [reflexivity|]. split; [reflexivity|].
  destruct (Z.ltb_spec (lastOid c) objectId); simpl;
    repeat split; try assumption; try reflexivity; lia.
Qed.

Lemma WriteDeleteDentry_ok s objectId chunkId crc c :
  chunks s !! chunkId = Some c ->
  compactLock c = false ->
  File.closed (file c) = false ->
  File.closed (ObjectTree.idxFile (tree c)) = false ->
  exists s', WriteDeleteDentry s objectId chunkId crc = (s', None).
Proof.
  intros Hc Hlock Hf Hidx. unfold WriteDeleteDentry.
  rewrite Hc, Hlock. unfold File.Stat. rewrite Hf.
  rewrite appendToIdxFile_open by assumption. eauto.
Qed.

(** C10, as amended: for a chunk present in the store, a successful
    [WriteDeleteDentry] appends exactly one record of 20 bytes to the chunk's
    index file, a tombstone whose size is the TOMBSTONE sentinel and whose
    offset is the data file's current size cut to 32 bits (the size itself
    when the file is shorter than 4 GiB); when the index file held whole
    records that record is the only new one a walk sees; the data file is
    unchanged; lastOid becomes the larger of its old value and the object id,
    so it never decreases. *)
Theorem WriteDeleteDentry_appends_tombstone s objectId chunkId crc s' c :
  chunks s !! chunkId = Some c ->
  WriteDeleteDentry s objectId chunkId crc = (s', None) ->
  let tomb := Object.mk objectId (uint32 (len (File.content (file c))))
                        Object.TombstoneFileSize crc in
  exists c',
    chunks s' !! chunkId = Some c'
    /\ File.content (ObjectTree.idxFile (tree c'))
       = File.content (ObjectTree.idxFile (tree c)) ++ Object.Marshal tomb
    /\ len (Object.Marshal tomb) = 20
    /\ (is_uint64 objectId -> is_uint32 crc ->
        len (File.content (ObjectTree.idxFile (tree c))) mod 20 = 0 ->
        idxRecords (ObjectTree.idxFile (tree c'))
        = idxRecords (ObjectTree.idxFile (tree c)) ++ [tomb])
    /\ (len (File.content (file c)) < 2 ^ 32 ->
        Object.Offset tomb = len (File.content (file c)))
    /\ file c' = file c
    /\ lastOid c' = Z.max (lastOid c) objectId
    /\ lastOid c <= lastOid c'.
Proof.
  intros Hc Hw tomb.
  destruct (WriteDeleteDentry_ok_inv _ _ _ _ _ Hw)
    as (c0 & c' & Hc0 & -> & _ & _ & Hfile & Hidx & _ & _ & _ & Hlast & _).
  rewrite Hc in Hc0. inversion Hc0; subst c0; clear Hc0.
  exists c'. split; [apply lookup_setChunk|].
  split; [rewrite Hidx; reflexivity|].
  split; [apply len_Marshal|].
  split.
  { intros Ho Hcrc Hmod. rewrite Hidx. apply idxRecords_append; simpl.
    - exact Hmod.
    - exact Ho.
    - apply uint32_range.
    - unfold is_uint32, Object.TombstoneFileSize. lia.
    - exact Hcrc. }
  split.
  { intros Hlt. simpl. apply uint32_id. unfold is_uint32.
    pose proof (len_nonneg (File.content (file c))). lia. }
  split; [exact Hfile|]. split; [exact Hlast|]. lia.
Qed.

Lemma WriteDeleteDentry_appends_tombstone_witness :
  chunks storeHello !! 1 = Some (chunkOf storeHello 1)
  /\ WriteDeleteDentry storeHello 1 1 crcHello = (storeHelloDel, None)
  /\ idxOf storeHelloDel 1
     = idxOf storeHello 1 ++ [Object.mk 1 5 Object.TombstoneFileSize crcHello]
  /\ dataOf storeHelloDel 1 = dataOf storeHello 1
  /\ lastOid (chunkOf storeHelloDel 1) = 1.
Proof.
  assert (Hc : chunks storeHello !! 1 = Some (chunkOf storeHello 1))
    by (vm_compute; reflexivity).
  assert (Hw : WriteDeleteDentry storeHello 1 1 crcHello = (storeHelloDel, None))
    by (vm_compute; reflexivity).
  split; [exact Hc|]. split; [exact Hw|].
  destruct (WriteDeleteDentry_appends_tombstone storeHello 1 1 crcHello
              storeHelloDel _ Hc Hw)
    as (c' & Hc' & _ & _ & Hrec & _ & Hfile & Hlast & _).
  split; [|split].
  - unfold idxOf. rewrite Hc', Hc, Hrec.
    + vm_compute. reflexivity.
    + vm_compute. split; [discriminate|reflexivity].
    + vm_compute. split; [discriminate|reflexivity].
    + vm_compute. reflexivity.
  - unfold dataOf. rewrite Hc', Hc, Hfile. reflexivity.
  - unfold chunkOf at 1. rewrite Hc'. simpl. rewrite Hlast.
    vm_compute. reflexivity.
Defined.

(** C10 fails as stated on a data file of 4 GiB: the tombstone's offset
    field is 0, not the data file's size 4294967296. *)
Lemma tombstone_offset_truncated_at_4GiB :
  exists s' c',
    chunks bigStore !! 1 = Some bigChunk
    /\ WriteDeleteDentry bigStore 3 1 0 = (s', None)
    /\ chunks s' !! 1 = Some c'
    /\ idxRecords (ObjectTree.idxFile (tree c'))
       = [bigObj1; bigObj2; Object.mk 3 0 Object.TombstoneFileSize 0]
    /\ len (File.content (file bigChunk)) = 4294967296.
Proof.
  destruct (WriteDeleteDentry_ok bigStore 3 1 0 bigChunk) as [s' Hw];
    [apply bigStore_chunk|reflexivity|reflexivity|reflexivity|].
  destruct (WriteDeleteDentry_ok_inv _ _ _ _ _ Hw)
    as (c0 & c' & Hc0 & Hs' & _ & _ & _ & Hidx & _).
  exists s', c'. split; [apply bigStore_chunk|]. split; [exact Hw|].
  clear Hw. subst s'.
  rewrite bigStore_chunk in Hc0. inversion Hc0; subst c0; clear Hc0.
  rewrite bigChunk_len in Hidx. change (uint32 fourGiB) with 0 in Hidx.
  split; [apply lookup_setChunk|]. split; [|apply bigChunk_len].
  rewrite Hidx.
  change (File.content (ObjectTree.idxFile (tree bigChunk)))
    with (Object.Marshal bigObj1 ++ Object.Marshal bigObj2).
  vm_compute. reflexivity.
Qed.

(** ** C7: the deleted objects of a chunk *)

Lemma walk_delObjects syncLastOid rs acc :
  fst (walk (delObjectsFn syncLastOid) rs acc)
  = acc ++ tombstonesUpTo syncLastOid rs.
Proof.
  revert acc. induction rs as [|r rs IH]; intros acc.
  - simpl. rewrite app_nil_r. reflexivity.
  - unfold tombstonesUpTo in *. simpl. unfold delObjectsFn at 1.
    destruct (Object.Oid r >? syncLastOid).
    + simpl. rewrite app_nil_r. reflexivity.
    + rewrite filter_cons.
      destruct (decide (Is_true (Object.isTombstone r))) as [Ht|Ht].
      * apply Is_true_true in Ht. unfold Object.isTombstone in Ht.
        rewrite Ht, IH. simpl. rewrite <- app_assoc. reflexivity.
      * apply Is_true_false in Ht. unfold Object.isTombstone in Ht.
        rewrite Ht. apply IH.
Qed.

(** C7, as amended: for a chunk present in the store, [GetDelObjects]
    records syncLastOid = lastOid, walks the index file in append order up
    to the first record whose oid exceeds syncLastOid, and returns the oid of
    every tombstone record it has met on the way, in that order and as often
    as it occurs, whether or not a later record of the same oid is live
    (and nothing when the index file is closed and cannot be walked). *)
Theorem GetDelObjects_collects s fileId c :
  chunks s !! fileId = Some c ->
  GetDelObjects s fileId
  = (setChunk s fileId (storeSyncLastOid c (lastOid c)),
     if File.closed (ObjectTree.idxFile (tree c)) then []
     else tombstonesUpTo (lastOid c) (idxRecords (ObjectTree.idxFile (tree c)))).
Proof.
  intros Hc. unfold GetDelObjects. rewrite Hc.
  unfold WalkIndexFile, loadLastOid. simpl.
  destruct (File.closed (ObjectTree.idxFile (tree c))); [reflexivity|].
  pose proof (walk_delObjects (lastOid c)
                (idxRecords (ObjectTree.idxFile (tree c))) []) as Hw.
  destruct (walk _ _ _) as [objects e]. simpl in Hw. subst objects.
  reflexivity.
Qed.

Lemma GetDelObjects_collects_witness :
  chunks storeHelloDel !! 1 = Some (chunkOf storeHelloDel 1)
  /\ idxOf storeHelloDel 1
     = [Object.mk 1 0 5 crcHello; Object.mk 1 5 Object.TombstoneFileSize crcHello]
  /\ snd (GetDelObjects storeHelloDel 1) = [1].
Proof.
  assert (Hc : chunks storeHelloDel !! 1 = Some (chunkOf storeHelloDel 1))
    by (vm_compute; reflexivity).
  split; [exact Hc|]. split; [vm_compute; reflexivity|].
  rewrite (GetDelObjects_collects storeHelloDel 1 _ Hc).
  vm_compute. reflexivity.
Defined.

(** C7 fails as stated: in chunk 1 of [storeDelThenWrite] the last persisted
    record of object 1 is live (a tombstone was appended first, the object
    was written after it), and [GetDelObjects] returns object 1 all the
    same. *)
Lemma GetDelObjects_returns_live_object :
  WriteDeleteDentry store0 1 1 0 = (storeDel, None)
  /\ Write storeDel 1 1 5 hello crcHello = Ret (storeDelThenWrite, None)
  /\ idxOf storeDelThenWrite 1
     = [Object.mk 1 0 Object.TombstoneFileSize 0; Object.mk 1 0 5 crcHello]
  /\ lastRecord (idxOf storeDelThenWrite 1) 1 = Some (Object.mk 1 0 5 crcHello)
  /\ spec_isDeleted (idxOf storeDelThenWrite 1) 1 1 = false
  /\ snd (GetDelObjects storeDelThenWrite 1) = [1].
Proof. repeat split; vm_compute; reflexivity. Qed.

(** ** C8: the compaction trigger *)

(** C8, as amended: for every chunk in the store and every thresh (an int),
    provided the products that the test forms fit 64 bits, that is
    0 <= storeSize, (storeSize/10)*40 < 2^64 and fileBytes*t < 2^64 for the
    effective threshold t (40 when thresh is negative, thresh otherwise),
    [IsReadyToCompact] returns true exactly when
    fileBytes >= (storeSize/10)*40/100 and deleteBytes >= fileBytes*t/100,
    false otherwise, and in all cases the float64 quotient of deleteBytes
    and fileBytes. *)
Theorem IsReadyToCompact_eligible s chunkID thresh c :
  chunks s !! chunkID = Some c ->
  is_int64 thresh ->
  0 <= storeSize s ->
  storeSize s / 10 * 40 < 2 ^ 64 ->
  0 <= ObjectTree.fileBytes (tree c) ->
  ObjectTree.fileBytes (tree c) * (if thresh <? 0 then 40 else thresh) < 2 ^ 64 ->
  IsReadyToCompact s chunkID thresh
  = Ret (spec_eligible (storeSize s) (ObjectTree.fileBytes (tree c))
                       (ObjectTree.deleteBytes (tree c)) thresh,
         float64_div (float64 (ObjectTree.deleteBytes (tree c)))
                     (float64 (ObjectTree.fileBytes (tree c)))).
Proof.
  intros Hc Hth Hs Hm HF Hft. unfold IsReadyToCompact, spec_eligible.
  rewrite Hc. unfold TinyChunkCount, CompactThreshold.
  rewrite Z.quot_div_nonneg by lia.
  set (t := if thresh <? 0 then 40 else thresh) in *.
  assert (Ht : 0 <= t < 2 ^ 64).
  { subst t. unfold is_int64 in Hth. destruct (Z.ltb_spec thresh 0); lia. }
  assert (HM : 0 <= storeSize s / 10) by (apply Z.div_pos; lia).
  rewrite (uint64_id (storeSize s / 10)) by (unfold is_uint64; lia).
  rewrite (uint64_id (storeSize s / 10 * 40)) by (unfold is_uint64; lia).
  rewrite (uint64_id t) by exact Ht.
  rewrite (uint64_id (ObjectTree.fileBytes (tree c) * t))
    by (unfold is_uint64; lia).
  destruct (Z.ltb_spec (ObjectTree.fileBytes (tree c)) (storeSize s / 10 * 40 / 100));
    destruct (Z.leb_spec (storeSize s / 10 * 40 / 100) (ObjectTree.fileBytes (tree c)));
    try lia; simpl; [reflexivity|].
  destruct (Z.ltb_spec (ObjectTree.deleteBytes (tree c))
                       (ObjectTree.fileBytes (tree c) * t / 100));
    destruct (Z.leb_spec (ObjectTree.fileBytes (tree c) * t / 100)
                         (ObjectTree.deleteBytes (tree c)));
    try lia; reflexivity.
Qed.

Lemma IsReadyToCompact_eligible_witness :
  chunks storeTiny !! 1 = Some (chunkOf storeTiny 1)
  /\ IsReadyToCompact storeTiny 1 (-1) = Ret (false, float64 0)
  /\ IsReadyToCompact storeTiny 1 0 = Ret (true, float64 0).
Proof.
  assert (Hc : chunks storeTiny !! 1 = Some (chunkOf storeTiny 1))
    by (vm_compute; reflexivity).
  split; [exact Hc|]. split.
  - rewrite (IsReadyToCompact_eligible storeTiny 1 (-1) _ Hc);
      vm_compute; repeat split; (reflexivity || discriminate).
  - rewrite (IsReadyToCompact_eligible storeTiny 1 0 _ Hc);
      vm_compute; repeat split; (reflexivity || discriminate).
Defined.

(** C8 fails as stated, in three ways.
    (1) With fileBytes = 4 and thresh = 2^62 the product fileBytes * thresh
    is 2^64, which is 0 in uint64, so the chunk is reported ready although
    deleteBytes = 0 is far below fileBytes * thresh / 100.
    (2) With storeSize = 4611686018427387910 the product
    (storeSize/10) * 40 is 2^64 + 24, which is 24 in uint64, so a chunk of
    four bytes is reported ready although fileBytes is far below
    (storeSize/10) * 40 / 100.
    (3) With storeSize = -1000 the chunk size -100 becomes 2^64 - 100 in
    uint64 and no chunk is ever ready. *)
Lemma IsReadyToCompact_overflow :
  (chunks storeTiny !! 1 = Some (chunkOf storeTiny 1)
   /\ ObjectTree.fileBytes (tree (chunkOf storeTiny 1)) = 4
   /\ ObjectTree.deleteBytes (tree (chunkOf storeTiny 1)) = 0
   /\ storeSize storeTiny = 100
   /\ is_int64 (2 ^ 62)
   /\ IsReadyToCompact storeTiny 1 (2 ^ 62) = Ret (true, float64 0)
   /\ spec_eligible 100 4 0 (2 ^ 62) = false)
  /\ (chunks storeHuge !! 1 = Some (chunkOf storeHuge 1)
      /\ ObjectTree.fileBytes (tree (chunkOf storeHuge 1)) = 4
      /\ ObjectTree.deleteBytes (tree (chunkOf storeHuge 1)) = 0
      /\ storeSize storeHuge = 4611686018427387910
      /\ is_int64 4611686018427387910
      /\ IsReadyToCompact storeHuge 1 0 = Ret (true, float64 0)
      /\ spec_eligible 4611686018427387910 4 0 0 = false)
  /\ (chunks storeNeg !! 1 = Some NewChunk
      /\ storeSize storeNeg = -1000
      /\ fst <$> IsReadyToCompact storeNeg 1 0 = Ret false
      /\ spec_eligible (-1000) 0 0 0 = true).
Proof.
  split; [|split].
  - repeat split; try (vm_compute; reflexivity); vm_compute; discriminate.
  - repeat split; try (vm_compute; reflexivity); vm_compute; discriminate.
  - repeat split; vm_compute; reflexivity.
Qed.

(** ** C9: a chunk for writing *)

Lemma GetChunkForWrite_head s chunkId rest :
  availChunkCh s = chunkId :: rest ->
  GetChunkForWrite s = (setAvail s rest, chunkId, None).
Proof.
  intros H. unfold GetChunkForWrite. rewrite H.
  replace (0 <? len (chunkId :: rest)) with true; [reflexivity|].
  symmetry. apply Z.ltb_lt. unfold len. simpl. lia.
Qed.

(** C9 fails on the code: with an empty queue of available chunks
    [GetChunkForWrite] returns chunk id 0 and no error, where its sibling
    [GetAvailChunk] returns ErrorNoAvaliFile; and no call of
    [GetChunkForWrite] returns an error at all. *)
Theorem GetChunkForWrite_empty_queue s :
  availChunkCh s = [] ->
  GetChunkForWrite s = (s, 0, None)
  /\ GetAvailChunk s = (s, 0, Some ErrorNoAvaliFile)
  /\ forall s0, snd (GetChunkForWrite s0) = None.
Proof.
  intros H. unfold GetChunkForWrite, GetAvailChunk. rewrite H.
  split; [reflexivity|]. split; [reflexivity|].
  intros s0. destruct (availChunkCh s0) as [|x q] eqn:E.
  - reflexivity.
  - replace (0 <? len (x :: q)) with true; [reflexivity|].
    symmetry. apply Z.ltb_lt. unfold len. simpl. lia.
Qed.

Lemma GetChunkForWrite_empty_queue_witness :
  availChunkCh store0 = []
  /\ unavailChunkCh store0 = [1; 2; 3; 4; 5; 6; 7; 8; 9; 10]
  /\ GetChunkForWrite store0 = (store0, 0, None).
Proof.
  split; [reflexivity|]. split; [reflexivity|].
  exact (proj1 (GetChunkForWrite_empty_queue store0 eq_refl)).
Defined.

(** ** The repair loops return *)

Lemma slice_inv {A : Type} (b d : list A) (lo hi : Z) :
  slice b lo hi = Ret d -> 0 <= lo /\ lo <= hi /\ hi <= len b.
Proof.
  unfold slice.
  destruct (Z.leb_spec 0 lo); destruct (Z.leb_spec lo hi);
    destruct (Z.leb_spec hi (len b)); simpl; intros E; inversion E; lia.
Qed.

(** With more fuel than bytes left the loop of [applyRepairBlobObjects] is
    never cut short. *)
Lemma applyLoop_total fuel store blobfileId data endObjectId offset applyObjectId err :
  (Z.to_nat (len data - offset) < fuel)%nat ->
  applyLoop fuel store blobfileId data endObjectId offset applyObjectId err <> None.
Proof.
  revert store offset applyObjectId err.
  induction fuel as [|fuel IH]; intros store offset applyObjectId err Hfuel; [lia|].
  cbn [applyLoop]. unfold Object.ObjectHeaderSize.
  destruct (Z.gtb_spec (offset + 20) (len data)) as [|Hhdr]; [discriminate|].
  destruct (applyObjectId >=? endObjectId); [discriminate|].
  destruct (slice data offset (offset + 20)) as [hdr|]; [|discriminate].
  destruct (if Object.Size (Object.Unmarshal hdr) =? Object.TombstoneFileSize
            then _ else _) as [store1 [e|]]; [discriminate|].
  destruct (_ >? len data); [discriminate|].
  destruct (slice data (offset + 20) _) as [ndata|] eqn:Hs; [|discriminate].
  apply slice_inv in Hs.
  destruct (negb _); [discriminate|].
  destruct (Write _ _ _ _ _ _) as [[store2 [e|]]|]; try discriminate.
  apply IH. lia.
Qed.

Lemma applyRepairBlobObjects_returns store blobfileId data endObjectId :
  applyRepairBlobObjects store blobfileId data endObjectId <> None.
Proof.
  unfold applyRepairBlobObjects. apply applyLoop_total.
  unfold len. lia.
Qed.

Lemma streamLoop_returns store remoteBlobFileInfo incoming :
  streamLoop store remoteBlobFileInfo incoming <> None.
Proof.
  revert store. induction incoming as [|request rest IH]; intros store;
    cbn [streamLoop];
    destruct (GetWatermark store _) as [[localInfo|] [e|]]; try discriminate;
    destruct (_ >=? _); try discriminate.
  destruct (_ >? _); [discriminate|].
  pose proof (applyRepairBlobObjects_returns store
                (FileInfo.FileId remoteBlobFileInfo) (Packet.Data request)
                (uint64 (Packet.Offset request))) as Ha.
  destruct (applyRepairBlobObjects _ _ _ _) as [[[store1 [e|]]|]|];
    try discriminate; [apply IH|congruence].
Qed.

(** ** C4: the offset of a repair packet *)

(** The test that [streamRepairBlobObjects] makes on a packet compares the
    packet's offset with the remote FileId; the remote watermark plays no
    part in it. *)
Lemma streamLoop_offset_check store remoteBlobFileInfo localInfo request rest :
  GetWatermark store (uint64 (FileInfo.FileId remoteBlobFileInfo))
  = (Some localInfo, None) ->
  FileInfo.Size localInfo < FileInfo.Size remoteBlobFileInfo ->
  uint64 (FileInfo.FileId remoteBlobFileInfo) < uint64 (Packet.Offset request) ->
  streamLoop store remoteBlobFileInfo (request :: rest)
  = Some (Ret (store, Some ErrInvalidOffset)).
Proof.
  intros Hw Hlt Hoff. cbn [streamLoop]. rewrite Hw.
  destruct (Z.geb_spec (FileInfo.Size localInfo) (FileInfo.Size remoteBlobFileInfo));
    [lia|].
  destruct (Z.gtb_spec (uint64 (Packet.Offset request))
                       (uint64 (FileInfo.FileId remoteBlobFileInfo))); [|lia].
  reflexivity.
Qed.

(** A packet whose offset does not exceed the FileId goes to
    [applyRepairBlobObjects], with its own offset as the last object id to
    apply. *)
Lemma streamLoop_offset_pass store remoteBlobFileInfo localInfo request rest :
  GetWatermark store (uint64 (FileInfo.FileId remoteBlobFileInfo))
  = (Some localInfo, None) ->
  FileInfo.Size localInfo < FileInfo.Size remoteBlobFileInfo ->
  uint64 (Packet.Offset request) <= uint64 (FileInfo.FileId remoteBlobFileInfo) ->
  streamLoop store remoteBlobFileInfo (request :: rest)
  = match applyRepairBlobObjects store (FileInfo.FileId remoteBlobFileInfo)
            (Packet.Data request) (uint64 (Packet.Offset request)) with
    | None => None
    | Some Panic => Some Panic
    | Some (Ret (store1, Some e)) => Some (Ret (store1, Some e))
    | Some (Ret (store1, None)) => streamLoop store1 remoteBlobFileInfo rest
    end.
Proof.
  intros Hw Hlt Hoff. cbn [streamLoop]. rewrite Hw.
  destruct (Z.geb_spec (FileInfo.Size localInfo) (FileInfo.Size remoteBlobFileInfo));
    [lia|].
  destruct (Z.gtb_spec (uint64 (Packet.Offset request))
                       (uint64 (FileInfo.FileId remoteBlobFileInfo))); [lia|].
  destruct (applyRepairBlobObjects _ _ _ _) as [[[store1 [e|]]|]|]; reflexivity.
Qed.

Lemma streamRepairBlobObjects_returns store remoteBlobFileInfo conn :
  streamRepairBlobObjects store remoteBlobFileInfo conn <> None.
Proof.
  unfold streamRepairBlobObjects.
  destruct (GetWatermark store _) as [[localInfo|] [e|]]; try discriminate.
  destruct (negb (dialOk conn)); [discriminate|].
  destruct (negb (sendOk conn)); [discriminate|].
  apply streamLoop_returns.
Qed.

(** C4 fails on the code. (1) The remote replica of chunk 1 has watermark 10
    and the follower has 0; a packet with offset 5 <= 10 is refused with the
    protocol error, because 5 exceeds the FileId 1. (2) The remote replica of
    chunk 10 has watermark 1; a packet with offset 2 > 1 is applied, because
    2 does not exceed the FileId 10, and the follower ends up with the
    objects 1 and 2. *)
Theorem stream_checks_offset_against_FileId :
  streamRepairBlobObjects store0 (FileInfo.mk "leader" 1 10)
    (mkConn true true
       [Packet.mk 5 (objectA 1 ++ objectA 2 ++ objectA 3 ++ objectA 4 ++ objectA 5)])
  = Some (Ret (store0, Some ErrInvalidOffset))
  /\ streamRepairBlobObjects store0 (FileInfo.mk "leader" 10 1)
       (mkConn true true [Packet.mk 2 (objectA 1 ++ objectA 2)])
     = Some (Ret (storeAA 10, None))
  /\ lastOid (chunkOf (storeAA 10) 10) = 2.
Proof. repeat split; vm_compute; reflexivity. Qed.

(** ** C5: a tombstone in a repair packet *)

(** An iteration that decodes a tombstone header ends the function: unless
    4294967295 more bytes follow the header, control reaches the "no body"
    return, whose [Annotatef] of a nil error is nil. *)
Lemma applyLoop_tombstone fuel store blobfileId data endObjectId offset applyObjectId hdr :
  offset + 20 <= len data ->
  applyObjectId < endObjectId ->
  slice data offset (offset + 20) = Ret hdr ->
  Object.Size (Object.Unmarshal hdr) = Object.TombstoneFileSize ->
  len data < offset + 20 + Object.TombstoneFileSize ->
  applyLoop (S fuel) store blobfileId data endObjectId offset applyObjectId None
  = Some (Ret (WriteDeleteDentry store (Object.Oid (Object.Unmarshal hdr))
                 blobfileId (Object.Crc (Object.Unmarshal hdr)))).
Proof.
  intros Hhdr Hend Hs Hsz Hlen. cbn [applyLoop]. unfold Object.ObjectHeaderSize.
  destruct (Z.gtb_spec (offset + 20) (len data)); [lia|].
  destruct (Z.geb_spec applyObjectId endObjectId); [lia|].
  rewrite Hs, Hsz, Z.eqb_refl.
  destruct (WriteDeleteDentry _ _ _ _) as [store1 [e|]]; [reflexivity|].
  destruct (Z.gtb_spec (offset + 20 + Object.TombstoneFileSize) (len data)); [|lia].
  reflexivity.
Qed.

(** C5 fails on the code: a packet that carries a tombstone for object 1 and
    then object 2 is applied up to the tombstone only; the call returns no
    error, object 2 is not written and lastOid stays 1. A packet that carries
    the live objects 1 and 2 is applied whole. *)
Theorem repair_stops_after_tombstone :
  applyRepairBlobObjects store0 1 (tombstoneOf 1 ++ objectA 2) 2
  = Some (Ret (storeDel, None))
  /\ idxOf storeDel 1 = [Object.mk 1 0 Object.TombstoneFileSize 0]
  /\ dataOf storeDel 1 = []
  /\ lastOid (chunkOf storeDel 1) = 1
  /\ applyRepairBlobObjects store0 1 (objectA 1 ++ objectA 2) 2
     = Some (Ret (storeAA 1, None))
  /\ idxOf (storeAA 1) 1 = [Object.mk 1 0 1 crcA; Object.mk 2 1 1 crcA]
  /\ lastOid (chunkOf (storeAA 1) 1) = 2.
Proof. repeat split; vm_compute; reflexivity. Qed.

(** ** C6: the checksum of a repaired object *)

(** An iteration that finds the checksum of a payload different from the crc
    of its header ends the function with a nil error and writes nothing. *)
Lemma applyLoop_crc_mismatch fuel store blobfileId data endObjectId offset applyObjectId hdr ndata :
  offset + 20 <= len data ->
  applyObjectId < endObjectId ->
  slice data offset (offset + 20) = Ret hdr ->
  Object.Size (Object.Unmarshal hdr) <> Object.TombstoneFileSize ->
  slice data (offset + 20) (offset + 20 + Object.Size (Object.Unmarshal hdr))
  = Ret ndata ->
  ChecksumIEEE ndata <> Object.Crc (Object.Unmarshal hdr) ->
  applyLoop (S fuel) store blobfileId data endObjectId offset applyObjectId None
  = Some (Ret (store, None)).
Proof.
  intros Hhdr Hend Hs Hsz Hbody Hcrc. cbn [applyLoop].
  unfold Object.ObjectHeaderSize.
  destruct (Z.gtb_spec (offset + 20) (len data)); [lia|].
  destruct (Z.geb_spec applyObjectId endObjectId); [lia|].
  rewrite Hs.
  destruct (Z.eqb_spec (Object.Size (Object.Unmarshal hdr)) Object.TombstoneFileSize);
    [contradiction|].
  pose proof (slice_inv _ _ _ _ Hbody) as (_ & _ & Hle).
  destruct (Z.gtb_spec (offset + 20 + Object.Size (Object.Unmarshal hdr)) (len data));
    [lia|].
  rewrite Hbody.
  destruct (Z.eqb_spec (ChecksumIEEE ndata) (Object.Crc (Object.Unmarshal hdr)));
    [contradiction|].
  reflexivity.
Qed.

(** When the checksum agrees the object goes to [Write] with the oid, the
    size and the crc of its header. *)
Lemma applyLoop_crc_match fuel store blobfileId data endObjectId offset applyObjectId hdr ndata :
  offset + 20 <= len data ->
  applyObjectId < endObjectId ->
  slice data offset (offset + 20) = Ret hdr ->
  Object.Size (Object.Unmarshal hdr) <> Object.TombstoneFileSize ->
  slice data (offset + 20) (offset + 20 + Object.Size (Object.Unmarshal hdr))
  = Ret ndata ->
  ChecksumIEEE ndata = Object.Crc (Object.Unmarshal hdr) ->
  applyLoop (S fuel) store blobfileId data endObjectId offset applyObjectId None
  = match Write store (uint32 blobfileId)
                (uint64 (Object.Oid (Object.Unmarshal hdr)))
                (int64 (Object.Size (Object.Unmarshal hdr))) ndata
                (Object.Crc (Object.Unmarshal hdr)) with
    | Panic => Some Panic
    | Ret (store1, Some e) => Some (Ret (store1, Some e))
    | Ret (store1, None) =>
        applyLoop fuel store1 blobfileId data endObjectId
                  (offset + 20 + Object.Size (Object.Unmarshal hdr))
                  (Object.Oid (Object.Unmarshal hdr)) None
    end.
Proof.
  intros Hhdr Hend Hs Hsz Hbody Hcrc. cbn [applyLoop].
  unfold Object.ObjectHeaderSize.
  destruct (Z.gtb_spec (offset + 20) (len data)); [lia|].
  destruct (Z.geb_spec applyObjectId endObjectId); [lia|].
  rewrite Hs.
  destruct (Z.eqb_spec (Object.Size (Object.Unmarshal hdr)) Object.TombstoneFileSize);
    [contradiction|].
  pose proof (slice_inv _ _ _ _ Hbody) as (_ & _ & Hle).
  destruct (Z.gtb_spec (offset + 20 + Object.Size (Object.Unmarshal hdr)) (len data));
    [lia|].
  rewrite Hbody, Hcrc, Z.eqb_refl. simpl negb. cbv iota.
  destruct (Write _ _ _ _ _ _) as [[store1 [e|]]|]; reflexivity.
Qed.

(** C6 fails on the code: object 1 arrives with payload "A", whose checksum
    is 0xd3d99e8b, under a header whose crc is 0; the call returns no error
    (and writes nothing). With the right crc in the header the object is
    written with the header's oid, size and crc. *)
Theorem repair_crc_mismatch_returns_nil :
  ChecksumIEEE [x41] = crcA
  /\ applyRepairBlobObjects store0 1 objectBadCrc 1 = Some (Ret (store0, None))
  /\ applyRepairBlobObjects store0 1 (objectA 1) 1 = Some (Ret (storeA, None))
  /\ Write store0 1 1 1 [x41] crcA = Ret (storeA, None)
  /\ idxOf storeA 1 = [Object.mk 1 0 1 crcA].
Proof. repeat split; vm_compute; reflexivity. Qed.

(** * More properties of the store *)

(** ** A new store *)

Lemma lookup_foldr_insert (l : list Z) (v : Chunk) (k : Z) :
  foldr (fun i m => <[i := v]> m) (∅ : gmap Z Chunk) l !! k
  = if decide (k ∈ l) then Some v else None.
Proof.
  induction l as [|i l IH]; simpl.
  - rewrite lookup_empty. destruct (decide (k ∈ [])) as [H|_]; [|reflexivity].
    inversion H.
  - destruct (decide (i = k)) as [->|Hne].
    + rewrite lookup_insert_eq. rewrite decide_True; [reflexivity|].
      constructor.
    + rewrite lookup_insert_ne by assumption. rewrite IH.
      destruct (decide (k ∈ l)) as [Hin|Hin].
      * rewrite decide_True; [reflexivity|]. constructor. assumption.
      * rewrite decide_False; [reflexivity|].
        intros H. inversion H; subst; congruence.
Qed.

Lemma initLoop_none env dataDir ids m :
  Boot.initLoop env dataDir ids m = None
  <-> exists i, i ∈ ids /\ Boot.NewChunk env dataDir i = None.
Proof.
  revert m. induction ids as [|i ids IH]; intros m; cbn [Boot.initLoop].
  - split; [discriminate|]. intros (i & Hin & _). inversion Hin.
  - destruct (Boot.NewChunk env dataDir i) as [c|] eqn:Hc.
    + rewrite IH. split.
      * intros (j & Hj & Hn). exists j. split; [constructor; assumption|assumption].
      * intros (j & Hj & Hn). apply elem_of_cons in Hj as [->|Hj]; [congruence|].
        exists j. auto.
    + split; [|reflexivity]. intros _. exists i. split; [constructor|assumption].
Qed.

Lemma initLoop_some env dataDir ids m m' k :
  Boot.initLoop env dataDir ids m = Some m' ->
  m' !! k = if decide (k ∈ ids) then Boot.NewChunk env dataDir k else m !! k.
Proof.
  revert m. induction ids as [|i ids IH]; intros m H; cbn [Boot.initLoop] in H.
  - inversion H; subst. rewrite decide_False; [reflexivity|]. intros E; inversion E.
  - destruct (Boot.NewChunk env dataDir i) as [c|] eqn:Hc; [|discriminate].
    rewrite (IH _ H).
    destruct (decide (k ∈ ids)) as [Hin|Hin].
    + rewrite decide_True; [reflexivity|]. constructor. assumption.
    + destruct (decide (i = k)) as [->|Hne].
      * rewrite lookup_insert_eq, decide_True; [congruence|constructor].
      * rewrite lookup_insert_ne by assumption.
        rewrite decide_False; [reflexivity|].
        intros E. apply elem_of_cons in E as [->|E]; congruence.
Qed.

(** X1: [NewBlobStore] returns an error exactly when the directory cannot
    be made or [NewChunk] fails for one of the ids 1 .. 10. Otherwise the
    store has the ten chunks 1 .. 10 and no other, each the chunk that
    [NewChunk] returned for its id, whatever the directory held; every id is
    queued as unavailable, in order, and none as available; storeSize is as
    given and chunkSize is a tenth of it; a write to any other chunk id is
    refused with ErrorFileNotFound. In a fresh directory, where every
    [NewChunk] returns a new and empty chunk, the store is the one that the
    other theorems call a new store. *)
Theorem NewBlobStore_chunks env dir size :
  (Boot.NewBlobStore env dir size = None
   <-> Boot.CheckAndCreateSubdir env dir = false
       \/ exists i, 1 <= i <= 10 /\ Boot.NewChunk env dir i = None)
  /\ (forall s,
        Boot.NewBlobStore env dir size = Some s ->
        (forall chunkId,
           chunks s !! chunkId
           = if decide (1 <= chunkId <= 10) then Boot.NewChunk env dir chunkId
             else None)
        /\ availChunkCh s = []
        /\ unavailChunkCh s = [1; 2; 3; 4; 5; 6; 7; 8; 9; 10]
        /\ storeSize s = size
        /\ chunkSize s = Z.quot size 10
        /\ forall chunkId objectId sz data crc,
             ~ (1 <= chunkId <= 10) ->
             Write s chunkId objectId sz data crc
             = Ret (s, Some ErrorFileNotFound))
  /\ Boot.NewBlobStore freshDir dir size = Some (NewBlobStore dir size).
Proof.
  assert (Hseq : forall k, k ∈ seqZ 1 TinyChunkCount <-> 1 <= k <= 10)
    by (intros k; rewrite elem_of_seqZ; unfold TinyChunkCount; lia).
  split; [|split].
  - unfold Boot.NewBlobStore.
    destruct (Boot.CheckAndCreateSubdir env dir) eqn:Hd; simpl.
    + destruct (Boot.initChunkFile env dir ∅) as [m|] eqn:Hi.
      * split; [discriminate|]. intros [E|(i & Hr & Hn)]; [discriminate|].
        exfalso.
        assert (Hnone : Boot.initLoop env dir (seqZ 1 TinyChunkCount) ∅ = None).
        { apply initLoop_none. exists i. split; [apply Hseq; assumption|assumption]. }
        unfold Boot.initChunkFile in Hi. congruence.
      * split; [|reflexivity]. intros _. right.
        apply initLoop_none in Hi as (i & Hin & Hn).
        exists i. split; [apply Hseq; assumption|assumption].
    + split; [auto|reflexivity].
  - intros s Hs. unfold Boot.NewBlobStore in Hs.
    destruct (Boot.CheckAndCreateSubdir env dir); simpl in Hs; [|discriminate].
    destruct (Boot.initChunkFile env dir ∅) as [m|] eqn:Hi; [|discriminate].
    inversion Hs; subst s; clear Hs. cbn.
    assert (Hl : forall chunkId,
              m !! chunkId
              = if decide (1 <= chunkId <= 10) then Boot.NewChunk env dir chunkId
                else None).
    { intros k. rewrite (initLoop_some _ _ _ _ _ k Hi), lookup_empty.
      destruct (decide (k ∈ seqZ 1 TinyChunkCount)) as [Hin|Hin];
        rewrite Hseq in Hin;
        destruct (decide (1 <= k <= 10)); try reflexivity; lia. }
    split; [exact Hl|]. repeat (split; [reflexivity|]).
    intros chunkId objectId sz data crc Hout. unfold Write. cbn [chunks].
    rewrite Hl, decide_False by assumption. reflexivity.
  - reflexivity.
Qed.

Lemma NewBlobStore_chunks_witness :
  Boot.NewBlobStore freshDir "/data" 100 = Some (NewBlobStore "/data" 100)
  /\ chunks (NewBlobStore "/data" 100) !! 3 = Some NewChunk
  /\ Write (NewBlobStore "/data" 100) 11 1 5 hello crcHello
     = Ret (NewBlobStore "/data" 100, Some ErrorFileNotFound).
Proof.
  assert (H : Boot.NewBlobStore freshDir "/data" 100
              = Some (NewBlobStore "/data" 100)) by reflexivity.
  assert (Hout : ~ (1 <= 11 <= 10)) by lia.
  destruct (proj1 (proj2 (NewBlobStore_chunks freshDir "/data" 100)) _ H)
    as (Hl & _ & _ & _ & _ & Hw).
  split; [exact H|]. split; [exact (Hl 3)|].
  exact (Hw 11 1 5 hello crcHello Hout).
Defined.

(** ** What each call does to the chunks *)

Lemma lookup_setChunk_ne s chunkId c k :
  chunkId <> k -> chunks (setChunk s chunkId c) !! k = chunks s !! k.
Proof. intros H. unfold setChunk. simpl. apply lookup_insert_ne. assumption. Qed.

(** With the index file open, a call of [Write] that changes the store has
    succeeded. *)
Lemma Write_changes_only_on_success s fileId objectId size data crc s' e c :
  chunks s !! fileId = Some c ->
  File.closed (ObjectTree.idxFile (tree c)) = false ->
  Write s fileId objectId size data crc = Ret (s', e) ->
  s' = s \/ e = None.
Proof.
  intros Hc Hidx. unfold Write. rewrite Hc.
  destruct (compactLock c); [intros H; inversion H; auto|].
  destruct (objectId <? loadLastOid c); [intros H; inversion H; auto|].
  unfold File.Stat.
  destruct (File.closed (file c)) eqn:Hf; [intros H; inversion H; auto|].
  destruct (slice data 0 size) as [d|]; [|discriminate].
  rewrite WriteAt_eof by assumption. simpl.
  destruct (set_open (tree c) objectId (uint32 (len (File.content (file c))))
                     (uint32 size) crc Hidx) as [o' Ho'].
  rewrite Ho'. intros H. inversion H. auto.
Qed.

(** Whatever [WriteDeleteDentry] returns, it has left the data file and the
    in-memory index of its chunk alone and not lowered the chunk's lastOid. *)
Lemma WriteDeleteDentry_inv s objectId chunkId crc s' e :
  WriteDeleteDentry s objectId chunkId crc = (s', e) ->
  s' = s
  \/ exists c c',
       chunks s !! chunkId = Some c
       /\ s' = setChunk s chunkId c'
       /\ file c' = file c
       /\ ObjectTree.tree (tree c') = ObjectTree.tree (tree c)
       /\ File.closed (ObjectTree.idxFile (tree c'))
          = File.closed (ObjectTree.idxFile (tree c))
       /\ lastOid c <= lastOid c'
       /\ compactLock c' = compactLock c.
Proof.
  unfold WriteDeleteDentry. intros H.
  destruct (chunks s !! chunkId) as [c|] eqn:Hc; [|inversion H; auto].
  destruct (compactLock c) eqn:Hlock; [inversion H; auto|].
  unfold File.Stat in H.
  destruct (File.closed (file c)) eqn:Hf; [inversion H; auto|].
  unfold ObjectTree.appendToIdxFile, File.Write, loadLastOid in H.
  right. exists c.
  destruct (File.closed (ObjectTree.idxFile (tree c))) eqn:Hidx; simpl in H.
  - inversion H; subst. eexists. split; [reflexivity|]. split; [reflexivity|].
    simpl. repeat split; auto; lia.
  - destruct (Z.ltb_spec (lastOid c) objectId); inversion H; subst;
      (eexists; split; [reflexivity|]; split; [reflexivity|]);
      simpl; repeat split; auto; lia.
Qed.

(** [MarkDelete] touches the index of its chunk only: the entry of the
    object, if there is one, becomes a tombstone. *)
Lemma MarkDelete_inv s fileId offset size s' e :
  MarkDelete s fileId offset size = (s', e) ->
  s' = s
  \/ exists c c',
       chunks s !! fileId = Some c
       /\ s' = setChunk s fileId c'
       /\ file c' = file c
       /\ lastOid c' = lastOid c
       /\ compactLock c' = compactLock c
       /\ File.closed (ObjectTree.idxFile (tree c'))
          = File.closed (ObjectTree.idxFile (tree c))
       /\ (ObjectTree.tree (tree c') = ObjectTree.tree (tree c)
           \/ (is_Some (ObjectTree.tree (tree c) !! uint64 offset)
               /\ ObjectTree.tree (tree c')
                  = <[uint64 offset :=
                        Object.mk (uint64 offset) 0 Object.TombstoneFileSize 0]>
                      (ObjectTree.tree (tree c)))).
Proof.
  unfold MarkDelete. intros H.
  destruct (chunks s !! fileId) as [c|] eqn:Hc; [|inversion H; auto].
  right. exists c. unfold ObjectTree.delete in H.
  destruct (ObjectTree.tree (tree c) !! uint64 offset) as [old|] eqn:Hold.
  - pose proof (set_tree (tree c) (uint64 offset) 0 Object.TombstoneFileSize 0)
      as Ht.
    assert (Hcl : File.closed (ObjectTree.idxFile
                    (fst (ObjectTree.set (tree c) (uint64 offset) 0
                            Object.TombstoneFileSize 0)))
                  = File.closed (ObjectTree.idxFile (tree c))).
    { unfold ObjectTree.set, ObjectTree.appendToIdxFile, File.Write. simpl.
      destruct (File.closed (ObjectTree.idxFile (tree c))) eqn:E; simpl; auto. }
    destruct (ObjectTree.set (tree c) (uint64 offset) 0 Object.TombstoneFileSize 0)
      as [t err].
    simpl in Ht, Hcl. inversion H; subst.
    eexists. split; [reflexivity|]. split; [reflexivity|]. simpl.
    repeat split; auto; right; split; eauto.
  - inversion H; subst.
    eexists. split; [reflexivity|]. split; [reflexivity|]. simpl.
    repeat split; auto.
Qed.

(** [GetDelObjects] changes nothing but the chunk's syncLastOid. *)
Lemma GetDelObjects_inv s fileId :
  (GetDelObjects s fileId).1 = s
  \/ exists c,
       chunks s !! fileId = Some c
       /\ (GetDelObjects s fileId).1
          = setChunk s fileId (storeSyncLastOid c (lastOid c)).
Proof.
  unfold GetDelObjects.
  destruct (chunks s !! fileId) as [c|] eqn:Hc; [|auto].
  right. exists c. split; [reflexivity|].
  destruct (WalkIndexFile _ _ _) as [objects e]. reflexivity.
Qed.

(** The queue operations leave the chunks alone. *)
Lemma PutAvailChunk_chunks s chunkId s' :
  PutAvailChunk s chunkId = Some s' -> chunks s' = chunks s.
Proof.
  unfold PutAvailChunk. destruct (_ <? _); intros H; inversion H. reflexivity.
Qed.

Lemma PutUnAvailChunk_chunks s chunkId s' :
  PutUnAvailChunk s chunkId = Some s' -> chunks s' = chunks s.
Proof.
  unfold PutUnAvailChunk. destruct (_ <? _); intros H; inversion H. reflexivity.
Qed.

Lemma moveLoop_chunks n s s' : moveLoop n s = Some s' -> chunks s' = chunks s.
Proof.
  revert s. induction n as [|n IH]; intros s H; simpl in H.
  - inversion H. reflexivity.
  - destruct (availChunkCh s) as [|x rest] eqn:E; [inversion H; reflexivity|].
    destruct (PutUnAvailChunk (setAvail s rest) x) as [s1|] eqn:Hp; [|discriminate].
    rewrite (IH _ H). apply PutUnAvailChunk_chunks in Hp. rewrite Hp. reflexivity.
Qed.

Lemma MoveChunkToUnavailChan_chunks s s' :
  MoveChunkToUnavailChan s = Some s' -> chunks s' = chunks s.
Proof.
  unfold MoveChunkToUnavailChan. destruct (_ >=? _).
  - intros H. inversion H. reflexivity.
  - apply moveLoop_chunks.
Qed.

Lemma GetAvailChunk_chunks s : chunks (GetAvailChunk s).1.1 = chunks s.
Proof. unfold GetAvailChunk. destruct (availChunkCh s); reflexivity. Qed.

Lemma GetUnAvailChunk_chunks s : chunks (GetUnAvailChunk s).1.1 = chunks s.
Proof. unfold GetUnAvailChunk. destruct (unavailChunkCh s); reflexivity. Qed.

Lemma GetChunkForWrite_chunks s : chunks (GetChunkForWrite s).1.1 = chunks s.
Proof.
  unfold GetChunkForWrite. destruct (0 <? _); [|reflexivity].
  destruct (availChunkCh s); reflexivity.
Qed.

(** ** The watermark never moves back *)

Lemma lastOid_setChunk s id c0 c0' fileId c :
  chunks s !! id = Some c0 ->
  lastOid c0 <= lastOid c0' ->
  chunks s !! fileId = Some c ->
  exists c', chunks (setChunk s id c0') !! fileId = Some c'
             /\ lastOid c <= lastOid c'.
Proof.
  intros H0 Hle Hc. destruct (decide (id = fileId)) as [->|Hne].
  - rewrite Hc in H0. inversion H0; subst. exists c0'.
    split; [apply lookup_setChunk|assumption].
  - exists c. rewrite lookup_setChunk_ne by assumption. split; [assumption|lia].
Qed.

Lemma lastOid_same_chunks (s s' : BlobStore) fileId c :
  chunks s' = chunks s ->
  chunks s !! fileId = Some c ->
  exists c', chunks s' !! fileId = Some c' /\ lastOid c <= lastOid c'.
Proof. intros -> Hc. exists c. split; [assumption|lia]. Qed.

Lemma stepOp_lastOid s op s' fileId c :
  stepOp s op = Some s' ->
  chunks s !! fileId = Some c ->
  exists c', chunks s' !! fileId = Some c' /\ lastOid c <= lastOid c'.
Proof.
  intros Hstep Hc. destruct op; simpl in Hstep.
  - destruct (Write s _ _ _ _ _) as [[s1 e]|] eqn:Hw; [|discriminate].
    inversion Hstep; subst s1.
    destruct (Write_inv _ _ _ _ _ _ _ _ Hw)
      as [-> | (c0 & c0' & extra & H0 & -> & _ & _ & _ & Hle)].
    + exists c. split; [assumption|lia].
    + apply (lastOid_setChunk _ _ c0); assumption.
  - inversion Hstep; subst s'.
    destruct (WriteDeleteDentry s objectId chunkId crc) as [s1 e] eqn:Hw.
    destruct (WriteDeleteDentry_inv _ _ _ _ _ _ Hw)
      as [-> | (c0 & c0' & H0 & -> & _ & _ & _ & Hle & _)]; simpl.
    + exists c. split; [assumption|lia].
    + apply (lastOid_setChunk _ _ c0); assumption.
  - inversion Hstep; subst s'.
    destruct (MarkDelete s fileId0 offset size) as [s1 e] eqn:Hw.
    destruct (MarkDelete_inv _ _ _ _ _ _ Hw)
      as [-> | (c0 & c0' & H0 & -> & _ & Hle & _)]; simpl.
    + exists c. split; [assumption|lia].
    + apply (lastOid_setChunk _ _ c0); [assumption|lia|assumption].
  - inversion Hstep; subst s'.
    destruct (GetDelObjects_inv s fileId0) as [-> | (c0 & H0 & ->)].
    + exists c. split; [assumption|lia].
    + apply (lastOid_setChunk _ _ c0); [assumption|simpl; lia|assumption].
  - inversion Hstep; subst s'.
    apply (lastOid_same_chunks s); [apply GetAvailChunk_chunks|assumption].
  - inversion Hstep; subst s'.
    apply (lastOid_same_chunks s); [apply GetChunkForWrite_chunks|assumption].
  - apply (lastOid_same_chunks s); [eapply PutAvailChunk_chunks; eassumption|assumption].
  - inversion Hstep; subst s'.
    apply (lastOid_same_chunks s); [apply GetUnAvailChunk_chunks|assumption].
  - apply (lastOid_same_chunks s); [eapply PutUnAvailChunk_chunks; eassumption|assumption].
  - apply (lastOid_same_chunks s);
      [eapply MoveChunkToUnavailChan_chunks; eassumption|assumption].
Qed.

Lemma runOps_lastOid ops s s' fileId c :
  runOps s ops = Some s' ->
  chunks s !! fileId = Some c ->
  exists c', chunks s' !! fileId = Some c' /\ lastOid c <= lastOid c'.
Proof.
  revert s c. induction ops as [|op ops IH]; intros s c Hrun Hc; simpl in Hrun.
  - inversion Hrun; subst. exists c. split; [assumption|lia].
  - destruct (stepOp s op) as [s1|] eqn:Hstep; [|discriminate].
    destruct (stepOp_lastOid _ _ _ _ _ Hstep Hc) as (c1 & Hc1 & Hle1).
    destruct (IH _ _ Hrun Hc1) as (c' & Hc' & Hle').
    exists c'. split; [assumption|lia].
Qed.

(** X2: no run of calls that write, delete, list deleted objects or move
    chunk ids between the queues lowers the watermark of a chunk: what
    [GetLastOid] returns for a chunk after the run is at least what it
    returned before. *)
Theorem watermark_never_decreases ops s s' fileId oid :
  runOps s ops = Some s' ->
  GetLastOid s fileId = (oid, None) ->
  exists oid', GetLastOid s' fileId = (oid', None) /\ oid <= oid'.
Proof.
  intros Hrun. unfold GetLastOid.
  destruct (chunks s !! fileId) as [c|] eqn:Hc; [|discriminate].
  intros H. inversion H; subst.
  destruct (runOps_lastOid _ _ _ _ _ Hrun Hc) as (c' & -> & Hle).
  exists (loadLastOid c'). split; [reflexivity|exact Hle].
Qed.

Lemma watermark_never_decreases_witness :
  runOps store0 opsDemo = Some storeDemo
  /\ GetLastOid store0 1 = (0, None)
  /\ GetLastOid storeDemo 1 = (2, None).
Proof.
  assert (H1 : runOps store0 opsDemo = Some storeDemo) by (vm_compute; reflexivity).
  assert (H2 : GetLastOid store0 1 = (0, None)) by reflexivity.
  split; [exact H1|]. split; [exact H2|].
  destruct (watermark_never_decreases opsDemo store0 storeDemo 1 0 H1 H2)
    as (oid' & Hg & _).
  rewrite Hg. vm_compute in Hg. inversion Hg. reflexivity.
Defined.

(** ** Every indexed object can be read *)

Lemma uint32_le z : 0 <= z -> uint32 z <= z.
Proof. intros H. unfold uint32. apply Z.mod_le; lia. Qed.

Lemma indexValid_setChunk s id c' :
  indexValid s -> chunkValid c' -> indexValid (setChunk s id c').
Proof.
  intros Hs Hc' k c Hk. destruct (decide (id = k)) as [->|Hne].
  - rewrite lookup_setChunk in Hk. inversion Hk; subst. assumption.
  - rewrite lookup_setChunk_ne in Hk by assumption. apply (Hs k). assumption.
Qed.

Lemma indexValid_same_chunks (s s' : BlobStore) :
  chunks s' = chunks s -> indexValid s -> indexValid s'.
Proof. intros E Hs k c Hk. rewrite E in Hk. apply (Hs k). assumption. Qed.

Lemma NewChunk_valid : chunkValid NewChunk.
Proof.
  split; [reflexivity|]. split; [reflexivity|].
  intros oid o H. simpl in H. rewrite lookup_empty in H. discriminate.
Qed.

Lemma NewBlobStore_valid dir size : indexValid (NewBlobStore dir size).
Proof.
  intros k c Hk.
  change (chunks (NewBlobStore dir size)) with initChunkFile in Hk.
  unfold initChunkFile in Hk. rewrite lookup_foldr_insert in Hk.
  destruct (decide (k ∈ seqZ 1 TinyChunkCount)); inversion Hk.
  apply NewChunk_valid.
Qed.

Lemma Write_valid s fileId objectId size data crc s' e :
  indexValid s ->
  Write s fileId objectId size data crc = Ret (s', e) ->
  indexValid s'.
Proof.
  intros Hs Hw.
  destruct (chunks s !! fileId) as [c|] eqn:Hc.
  2:{ unfold Write in Hw. rewrite Hc in Hw. inversion Hw; subst. assumption. }
  destruct (Hs _ _ Hc) as (Hf & Hidx & Hrec).
  destruct (Write_changes_only_on_success _ _ _ _ _ _ _ _ _ Hc Hidx Hw)
    as [-> | ->]; [assumption|].
  destruct (Write_ok_inv _ _ _ _ _ _ _ Hw)
    as (c0 & c' & Hc0 & -> & _ & Hoid & _ & Hsize & Hfile & Hidx' & Htree & Hlast & _).
  rewrite Hc in Hc0. inversion Hc0; subst c0; clear Hc0.
  apply indexValid_setChunk; [assumption|].
  pose proof (len_nonneg (File.content (file c))) as Hnn.
  split; [rewrite Hfile; reflexivity|]. split; [rewrite Hidx'; reflexivity|].
  intros oid o Ho. rewrite Htree in Ho.
  destruct (decide (objectId = oid)) as [->|Hne].
  - rewrite lookup_insert_eq in Ho. inversion Ho; subst o; clear Ho. simpl.
    split; [reflexivity|]. split; [lia|]. intros _.
    split; [apply uint32_range|]. split; [apply uint32_range|].
    rewrite Hfile. simpl. rewrite len_app, len_take_prefix by assumption.
    pose proof (uint32_le (len (File.content (file c))) Hnn).
    pose proof (uint32_le size (proj1 Hsize)). lia.
  - rewrite lookup_insert_ne in Ho by assumption.
    destruct (Hrec _ _ Ho) as (H1 & H2 & H3).
    split; [assumption|]. split; [lia|]. intros Hlive.
    destruct (H3 Hlive) as (H4 & H5 & H6).
    split; [assumption|]. split; [assumption|].
    rewrite Hfile. simpl. rewrite len_app.
    pose proof (len_nonneg (take (Z.to_nat size) data)). lia.
Qed.

Lemma WriteDeleteDentry_valid s objectId chunkId crc :
  indexValid s -> indexValid (WriteDeleteDentry s objectId chunkId crc).1.
Proof.
  intros Hs. destruct (WriteDeleteDentry s objectId chunkId crc) as [s' e] eqn:Hw.
  destruct (WriteDeleteDentry_inv _ _ _ _ _ _ Hw)
    as [-> | (c & c' & Hc & -> & Hfile & Htree & Hcl & Hle & _)];
    simpl; [assumption|].
  apply indexValid_setChunk; [assumption|].
  destruct (Hs _ _ Hc) as (Hf & Hidx & Hrec).
  split; [rewrite Hfile; assumption|]. split; [rewrite Hcl; assumption|].
  intros oid o Ho. rewrite Htree in Ho.
  destruct (Hrec _ _ Ho) as (H1 & H2 & H3).
  split; [assumption|]. split; [lia|]. rewrite Hfile. assumption.
Qed.

Lemma MarkDelete_valid s fileId offset size :
  indexValid s -> indexValid (MarkDelete s fileId offset size).1.
Proof.
  intros Hs. destruct (MarkDelete s fileId offset size) as [s' e] eqn:Hw.
  destruct (MarkDelete_inv _ _ _ _ _ _ Hw)
    as [-> | (c & c' & Hc & -> & Hfile & Hlast & _ & Hcl & Htree)];
    simpl; [assumption|].
  apply indexValid_setChunk; [assumption|].
  destruct (Hs _ _ Hc) as (Hf & Hidx & Hrec).
  split; [rewrite Hfile; assumption|]. split; [rewrite Hcl; assumption|].
  intros oid o Ho. rewrite Hfile, Hlast.
  destruct Htree as [Ht | ([old Hold] & Ht)]; rewrite Ht in Ho.
  - apply Hrec. assumption.
  - destruct (decide (uint64 offset = oid)) as [<-|Hne].
    + rewrite lookup_insert_eq in Ho. inversion Ho; subst o; clear Ho. simpl.
      destruct (Hrec _ _ Hold) as (_ & H2 & _).
      split; [reflexivity|]. split; [assumption|].
      unfold Object.isTombstone. simpl. discriminate.
    + rewrite lookup_insert_ne in Ho by assumption. apply Hrec. assumption.
Qed.

Lemma GetDelObjects_valid s fileId :
  indexValid s -> indexValid (GetDelObjects s fileId).1.
Proof.
  intros Hs. destruct (GetDelObjects_inv s fileId) as [-> | (c & Hc & ->)];
    [assumption|].
  apply indexValid_setChunk; [assumption|]. apply (Hs _ _ Hc).
Qed.

Lemma stepOp_valid s op s' : indexValid s -> stepOp s op = Some s' -> indexValid s'.
Proof.
  intros Hs Hstep. destruct op; simpl in Hstep.
  - destruct (Write s _ _ _ _ _) as [[s1 e]|] eqn:Hw; [|discriminate].
    inversion Hstep; subst s1. eapply Write_valid; eassumption.
  - inversion Hstep. apply WriteDeleteDentry_valid. assumption.
  - inversion Hstep. apply MarkDelete_valid. assumption.
  - inversion Hstep. apply GetDelObjects_valid. assumption.
  - inversion Hstep.
    apply (indexValid_same_chunks s); [apply GetAvailChunk_chunks|assumption].
  - inversion Hstep.
    apply (indexValid_same_chunks s); [apply GetChunkForWrite_chunks|assumption].
  - apply (indexValid_same_chunks s);
      [eapply PutAvailChunk_chunks; eassumption|assumption].
  - inversion Hstep.
    apply (indexValid_same_chunks s); [apply GetUnAvailChunk_chunks|assumption].
  - apply (indexValid_same_chunks s);
      [eapply PutUnAvailChunk_chunks; eassumption|assumption].
  - apply (indexValid_same_chunks s);
      [eapply MoveChunkToUnavailChan_chunks; eassumption|assumption].
Qed.

Lemma runOps_valid ops s s' : indexValid s -> runOps s ops = Some s' -> indexValid s'.
Proof.
  revert s. induction ops as [|op ops IH]; intros s Hs Hrun; simpl in Hrun.
  - inversion Hrun; subst. assumption.
  - destruct (stepOp s op) as [s1|] eqn:Hstep; [|discriminate].
    apply (IH s1); [|assumption]. eapply stepOp_valid; eassumption.
Qed.

(** In a valid store, what [GetObject] returns can be read. *)
Lemma valid_GetObject_Read s fileId oid o nbuf :
  indexValid s ->
  GetObject s fileId oid = (Some o, None) ->
  is_uint64 oid ->
  Object.Size o <= len nbuf ->
  exists payload,
    len payload = Object.Size o
    /\ Read s fileId (int64 oid) (Object.Size o) nbuf
       = Ret (Object.Crc o, None, fill nbuf payload).
Proof.
  intros Hs Hg Hu Hbuf. unfold GetObject in Hg.
  destruct (chunks s !! fileId) as [c|] eqn:Hc; [|discriminate].
  destruct (ObjectTree.get (tree c) oid) as [o'|] eqn:Hget; [|discriminate].
  inversion Hg; subst o'; clear Hg.
  destruct (Hs _ _ Hc) as (Hf & _ & Hrec).
  unfold ObjectTree.get in Hget.
  destruct (ObjectTree.tree (tree c) !! oid) as [o'|] eqn:Ht; [|discriminate].
  destruct (Object.isTombstone o') eqn:Hlive; [discriminate|].
  inversion Hget; subst o'; clear Hget.
  destruct (Hrec _ _ Ht) as (_ & Hle & Hb).
  destruct (Hb Hlive) as (Hoff & Hsz & Hin).
  unfold is_uint32 in *.
  exists (take (Z.to_nat (Object.Size o))
               (drop (Z.to_nat (Object.Offset o)) (File.content (file c)))).
  split.
  - unfold len in *. rewrite length_take, length_drop. lia.
  - apply (Read_eval _ _ _ _ _ c o);
      rewrite ?(uint64_int64 _ Hu);
      first [assumption | reflexivity | apply get_insert_live; assumption
            | unfold is_int64; lia].
Qed.

(** X3: in every store that a run of [Write], [WriteDeleteDentry],
    [MarkDelete], [GetDelObjects], [GetAvailChunk], [GetChunkForWrite],
    [PutAvailChunk], [GetUnAvailChunk], [PutUnAvailChunk] and
    [MoveChunkToUnavailChan] calls has made of a new store (the run holds no
    [CloseAll], no [DeleteStore] and no compaction), an object that
    [GetObject] finds can be read: [Read] with the object's id, the size its
    record has and a buffer of at least that size succeeds with the record's
    crc and fills the buffer with that many bytes. It never answers
    ErrorParamMismatch or io.EOF for such an object. *)
Theorem indexed_objects_readable dir size ops s fileId oid o nbuf :
  runOps (NewBlobStore dir size) ops = Some s ->
  GetObject s fileId oid = (Some o, None) ->
  is_uint64 oid ->
  Object.Size o <= len nbuf ->
  exists payload,
    len payload = Object.Size o
    /\ Read s fileId (int64 oid) (Object.Size o) nbuf
       = Ret (Object.Crc o, None, fill nbuf payload).
Proof.
  intros Hrun. apply valid_GetObject_Read.
  apply (runOps_valid ops (NewBlobStore dir size)); [|assumption].
  apply NewBlobStore_valid.
Qed.

Lemma indexed_objects_readable_witness :
  runOps (NewBlobStore "/data" 104857600) opsDemo = Some storeDemo
  /\ GetObject storeDemo 1 2 = (Some (Object.mk 2 5 1 crcA), None)
  /\ is_uint64 2
  /\ Object.Size (Object.mk 2 5 1 crcA) <= len [xff; xff]
  /\ exists payload,
       len payload = Object.Size (Object.mk 2 5 1 crcA)
       /\ Read storeDemo 1 (int64 2) (Object.Size (Object.mk 2 5 1 crcA)) [xff; xff]
          = Ret (Object.Crc (Object.mk 2 5 1 crcA), None, fill [xff; xff] payload).
Proof.
  assert (H1 : runOps (NewBlobStore "/data" 104857600) opsDemo = Some storeDemo)
    by (vm_compute; reflexivity).
  assert (H2 : GetObject storeDemo 1 2 = (Some (Object.mk 2 5 1 crcA), None))
    by (vm_compute; reflexivity).
  assert (H3 : is_uint64 2) by (unfold is_uint64; lia).
  assert (H4 : Object.Size (Object.mk 2 5 1 crcA) <= len [xff; xff])
    by (vm_compute; discriminate).
  repeat (split; [assumption|]).
  exact (indexed_objects_readable _ _ _ _ _ _ _ [xff; xff] H1 H2 H3 H4).
Defined.

(** ** A tombstone entry does not hide the object *)

(** X4: [WriteDeleteDentry] only appends to the index file: whatever it
    returns, every [Read] at or below the chunk's old watermark, the read of
    the object it has just entered as deleted included, returns afterwards
    what it returned before, and so does every read of another chunk. *)
Theorem WriteDeleteDentry_keeps_reads s objectId chunkId crc c fileId offset size nbuf :
  chunks s !! chunkId = Some c ->
  (fileId = chunkId -> uint64 offset <= lastOid c) ->
  Read (WriteDeleteDentry s objectId chunkId crc).1 fileId offset size nbuf
  = Read s fileId offset size nbuf.
Proof.
  intros Hc Hle.
  destruct (WriteDeleteDentry s objectId chunkId crc) as [s' e] eqn:Hw.
  destruct (WriteDeleteDentry_inv _ _ _ _ _ _ Hw)
    as [-> | (c0 & c' & Hc0 & -> & Hfile & Htree & _ & Hlast & _)];
    simpl; [reflexivity|].
  rewrite Hc in Hc0. inversion Hc0; subst c0; clear Hc0.
  unfold Read. destruct (decide (chunkId = fileId)) as [->|Hne].
  - rewrite lookup_setChunk, Hc. unfold loadLastOid.
    specialize (Hle eq_refl).
    destruct (Z.ltb_spec (lastOid c') (uint64 offset)); [lia|].
    destruct (Z.ltb_spec (lastOid c) (uint64 offset)); [lia|].
    rewrite Hfile. unfold ObjectTree.get. rewrite Htree. reflexivity.
  - rewrite lookup_setChunk_ne by assumption. reflexivity.
Qed.

Lemma WriteDeleteDentry_keeps_reads_witness :
  chunks storeHello !! 1 = Some (chunkOf storeHello 1)
  /\ (1 = 1 -> uint64 1 <= lastOid (chunkOf storeHello 1))
  /\ WriteDeleteDentry storeHello 1 1 crcHello = (storeHelloDel, None)
  /\ Read storeHelloDel 1 1 5 [xff; xff; xff; xff; xff] = Ret (crcHello, None, hello).
Proof.
  assert (H1 : chunks storeHello !! 1 = Some (chunkOf storeHello 1))
    by (vm_compute; reflexivity).
  assert (H2 : 1 = 1 -> uint64 1 <= lastOid (chunkOf storeHello 1))
    by (intros _; vm_compute; discriminate).
  split; [exact H1|]. split; [exact H2|]. split; [vm_compute; reflexivity|].
  change storeHelloDel with (WriteDeleteDentry storeHello 1 1 crcHello).1.
  rewrite (WriteDeleteDentry_keeps_reads storeHello 1 1 crcHello _ 1 1 5
             [xff; xff; xff; xff; xff] H1 H2).
  vm_compute. reflexivity.
Defined.

(** ** Allocating the next object id *)

(** X5: on a chunk that is present, unlocked and open and whose watermark is
    below 2^64-1, the id that [AllocObjectId] returns is the watermark plus
    one, the store is not changed by the call, a [Write] under that id
    succeeds, the watermark is then that id and the next [AllocObjectId]
    returns the id after it. *)
Theorem AllocObjectId_then_Write s fileId c size data crc :
  chunks s !! fileId = Some c ->
  compactLock c = false ->
  File.closed (file c) = false ->
  File.closed (ObjectTree.idxFile (tree c)) = false ->
  0 <= lastOid c ->
  lastOid c + 1 < 2 ^ 64 ->
  0 <= size <= len data ->
  exists s',
    AllocObjectId s fileId = (lastOid c + 1, None)
    /\ Write s fileId (lastOid c + 1) size data crc = Ret (s', None)
    /\ GetLastOid s' fileId = (lastOid c + 1, None)
    /\ AllocObjectId s' fileId = (uint64 (lastOid c + 2), None).
Proof.
  intros Hc Hlock Hf Hidx H0 Hmax Hsz.
  destruct (Write_ok s fileId (lastOid c + 1) size data crc c) as [s' Hw];
    try assumption; [lia|].
  exists s'.
  destruct (Write_ok_inv _ _ _ _ _ _ _ Hw)
    as (c0 & c' & _ & -> & _ & _ & _ & _ & _ & _ & _ & Hlast & _).
  unfold AllocObjectId, GetLastOid, loadLastOid.
  rewrite Hc, lookup_setChunk, Hlast.
  rewrite uint64_id by (unfold is_uint64; lia).
  replace (lastOid c + 1 + 1) with (lastOid c + 2) by lia.
  auto.
Qed.

Lemma AllocObjectId_then_Write_witness :
  chunks storeHello !! 1 = Some (chunkOf storeHello 1)
  /\ lastOid (chunkOf storeHello 1) = 1
  /\ AllocObjectId storeHello 1 = (2, None)
  /\ exists s', Write storeHello 1 2 1 [x41] crcA = Ret (s', None)
                /\ GetLastOid s' 1 = (2, None).
Proof.
  assert (H1 : chunks storeHello !! 1 = Some (chunkOf storeHello 1))
    by (vm_compute; reflexivity).
  split; [exact H1|]. split; [vm_compute; reflexivity|].
  destruct (AllocObjectId_then_Write storeHello 1 _ 1 [x41] crcA H1)
    as (s' & Ha & Hw & Hg & _);
    try (vm_compute; reflexivity); try (vm_compute; discriminate).
  { vm_compute. split; discriminate. }
  split; [exact Ha|]. exists s'. split; [exact Hw|exact Hg].
Defined.

(** X6: a [Write] under the largest object id, 2^64-1, is accepted like any
    id at or above the watermark; after it [AllocObjectId] returns 0 with no
    error (the id that the source calls invalid) and every [Write] under
    another object id is refused with ErrObjectSmaller. *)
Theorem largest_oid_ends_the_chunk s fileId size data crc s' :
  Write s fileId maxOid size data crc = Ret (s', None) ->
  AllocObjectId s' fileId = (0, None)
  /\ forall oid size2 data2 crc2,
       is_uint64 oid -> oid <> maxOid ->
       Write s' fileId oid size2 data2 crc2 = Ret (s', Some ErrObjectSmaller).
Proof.
  intros Hw.
  destruct (Write_ok_inv _ _ _ _ _ _ _ Hw)
    as (c0 & c' & _ & -> & _ & _ & _ & _ & _ & _ & _ & Hlast & _ & Hlock).
  split.
  - unfold AllocObjectId, loadLastOid. rewrite lookup_setChunk, Hlast.
    reflexivity.
  - intros oid size2 data2 crc2 Hu Hne.
    apply (Write_smaller _ _ _ _ _ _ c'); [apply lookup_setChunk|assumption|].
    rewrite Hlast. unfold is_uint64, maxOid in *. lia.
Qed.

Lemma largest_oid_ends_the_chunk_witness :
  Write store0 1 maxOid 1 [x41] crcA = Ret (storeMaxOid, None)
  /\ AllocObjectId storeMaxOid 1 = (0, None)
  /\ Write storeMaxOid 1 1 5 hello crcHello = Ret (storeMaxOid, Some ErrObjectSmaller).
Proof.
  assert (H : Write store0 1 maxOid 1 [x41] crcA = Ret (storeMaxOid, None))
    by (vm_compute; reflexivity).
  destruct (largest_oid_ends_the_chunk store0 1 1 [x41] crcA storeMaxOid H)
    as (Ha & Hs).
  split; [exact H|]. split; [exact Ha|].
  apply Hs; [unfold is_uint64; lia|unfold maxOid; lia].
Defined.

(** ** A chunk under compaction *)

(** X7: while another party holds the compact lock of a chunk, [Write] and
    [WriteDeleteDentry] on that chunk return ErrorAgain and leave the store
    as it is, whereas [Read] does not look at the lock: it returns what it
    returns with the lock free. *)
Theorem locked_chunk_refuses_writers s chunkId c :
  chunks s !! chunkId = Some c ->
  compactLock c = true ->
  (forall objectId size data crc,
     Write s chunkId objectId size data crc = Ret (s, Some ErrorAgain))
  /\ (forall objectId crc,
        WriteDeleteDentry s objectId chunkId crc = (s, Some ErrorAgain))
  /\ (forall offset size nbuf,
        Read s chunkId offset size nbuf
        = Read (setChunk s chunkId (setLock c false)) chunkId offset size nbuf).
Proof.
  intros Hc Hlock. split; [|split].
  - intros. unfold Write. rewrite Hc, Hlock. reflexivity.
  - intros. unfold WriteDeleteDentry. rewrite Hc, Hlock. reflexivity.
  - intros. unfold Read. rewrite lookup_setChunk, Hc. reflexivity.
Qed.

Lemma locked_chunk_refuses_writers_witness :
  chunks (setChunk storeHello 1 (setLock (chunkOf storeHello 1) true)) !! 1
  = Some (setLock (chunkOf storeHello 1) true)
  /\ compactLock (setLock (chunkOf storeHello 1) true) = true
  /\ Write (setChunk storeHello 1 (setLock (chunkOf storeHello 1) true))
           1 2 1 [x41] crcA
     = Ret (setChunk storeHello 1 (setLock (chunkOf storeHello 1) true),
            Some ErrorAgain).
Proof.
  assert (H1 : chunks (setChunk storeHello 1 (setLock (chunkOf storeHello 1) true)) !! 1
               = Some (setLock (chunkOf storeHello 1) true))
    by apply lookup_setChunk.
  split; [exact H1|]. split; [reflexivity|].
  exact (proj1 (locked_chunk_refuses_writers _ 1 _ H1 eq_refl) 2 1 [x41] crcA).
Defined.

(** ** Closing and deleting the store *)

Lemma lookup_CloseAll s chunkId :
  chunks (CloseAll s) !! chunkId = closeChunk <$> chunks s !! chunkId.
Proof. unfold CloseAll. simpl. apply lookup_fmap. Qed.

(** X8: after [CloseAll] the chunks are still in the store and their
    watermarks can still be asked for, but [Sync], [Write] (of an id at or
    above the watermark of an unlocked chunk), [WriteDeleteDentry] and
    [Read] (at or below the watermark) all fail with os.ErrClosed, and the
    failing calls change nothing. *)
Theorem CloseAll_fails_io s chunkId c :
  chunks s !! chunkId = Some c ->
  GetLastOid (CloseAll s) chunkId = (lastOid c, None)
  /\ Sync (CloseAll s) chunkId = Some ErrClosed
  /\ (forall objectId size data crc,
        compactLock c = false -> lastOid c <= objectId ->
        Write (CloseAll s) chunkId objectId size data crc
        = Ret (CloseAll s, Some ErrClosed))
  /\ (forall objectId crc,
        compactLock c = false ->
        WriteDeleteDentry (CloseAll s) objectId chunkId crc
        = (CloseAll s, Some ErrClosed))
  /\ (forall offset size nbuf,
        uint64 offset <= lastOid c ->
        Read (CloseAll s) chunkId offset size nbuf = Ret (0, Some ErrClosed, nbuf)).
Proof.
  intros Hc.
  assert (Hl : chunks (CloseAll s) !! chunkId = Some (closeChunk c))
    by (rewrite lookup_CloseAll, Hc; reflexivity).
  split; [unfold GetLastOid; rewrite Hl; reflexivity|].
  split; [unfold Sync; rewrite Hl; reflexivity|].
  split; [|split].
  - intros objectId size data crc Hlock Hle. unfold Write. rewrite Hl.
    simpl. rewrite Hlock. unfold loadLastOid. simpl.
    destruct (Z.ltb_spec objectId (lastOid c)); [lia|]. reflexivity.
  - intros objectId crc Hlock. unfold WriteDeleteDentry. rewrite Hl.
    simpl. rewrite Hlock. reflexivity.
  - intros offset size nbuf Hle. unfold Read. rewrite Hl.
    unfold loadLastOid. simpl.
    destruct (Z.ltb_spec (lastOid c) (uint64 offset)); [lia|]. reflexivity.
Qed.

Lemma CloseAll_fails_io_witness :
  chunks storeHello !! 1 = Some (chunkOf storeHello 1)
  /\ uint64 1 <= lastOid (chunkOf storeHello 1)
  /\ Read (CloseAll storeHello) 1 1 5 [xff; xff; xff; xff; xff]
     = Ret (0, Some ErrClosed, [xff; xff; xff; xff; xff]).
Proof.
  assert (H1 : chunks storeHello !! 1 = Some (chunkOf storeHello 1))
    by (vm_compute; reflexivity).
  assert (H2 : uint64 1 <= lastOid (chunkOf storeHello 1))
    by (vm_compute; discriminate).
  split; [exact H1|]. split; [exact H2|].
  exact (proj2 (proj2 (proj2 (proj2 (CloseAll_fails_io storeHello 1 _ H1))))
           1 5 [xff; xff; xff; xff; xff] H2).
Defined.

(** X9: after [DeleteStore] no chunk is left: every call that names a chunk
    fails with ErrorFileNotFound and changes nothing, [GetDelObjects] and
    [GetAllWatermark] return empty lists and [IsReadyToCompact] panics. *)
Theorem DeleteStore_leaves_no_chunk s chunkId :
  (forall objectId size data crc,
     Write (DeleteStore s) chunkId objectId size data crc
     = Ret (DeleteStore s, Some ErrorFileNotFound))
  /\ (forall offset size nbuf,
        Read (DeleteStore s) chunkId offset size nbuf
        = Ret (0, Some ErrorFileNotFound, nbuf))
  /\ (forall objectId crc,
        WriteDeleteDentry (DeleteStore s) objectId chunkId crc
        = (DeleteStore s, Some ErrorFileNotFound))
  /\ (forall offset size,
        MarkDelete (DeleteStore s) chunkId offset size
        = (DeleteStore s, Some ErrorFileNotFound))
  /\ Sync (DeleteStore s) chunkId = Some ErrorFileNotFound
  /\ GetLastOid (DeleteStore s) chunkId = (0, Some ErrorFileNotFound)
  /\ AllocObjectId (DeleteStore s) chunkId = (0, Some ErrorFileNotFound)
  /\ GetWatermark (DeleteStore s) chunkId = (None, Some ErrorFileNotFound)
  /\ (forall objectId,
        GetObject (DeleteStore s) chunkId objectId = (None, Some ErrorFileNotFound))
  /\ GetDelObjects (DeleteStore s) chunkId = (DeleteStore s, [])
  /\ GetAllWatermark (DeleteStore s) = ([], None)
  /\ (forall thresh, IsReadyToCompact (DeleteStore s) chunkId thresh = Panic).
Proof.
  unfold Write, Read, WriteDeleteDentry, MarkDelete, Sync, GetLastOid,
    AllocObjectId, GetWatermark, GetObject, GetDelObjects, GetAllWatermark,
    IsReadyToCompact.
  simpl. rewrite !lookup_empty. rewrite map_to_list_empty.
  repeat split; reflexivity.
Qed.

(** ** The queues of chunk ids *)

(** X10: [MoveChunkToUnavailChan] never blocks and never touches a chunk.
    When the queue of unavailable ids holds two or more it does nothing;
    otherwise it takes the first two available ids (or the only one, or
    none) and appends them, in that order, to the unavailable ones. No id is
    lost or duplicated. *)
Theorem MoveChunkToUnavailChan_moves s :
  exists s',
    MoveChunkToUnavailChan s = Some s'
    /\ chunks s' = chunks s
    /\ (if decide (2 <= len (unavailChunkCh s))
        then s' = s
        else availChunkCh s' = drop 2 (availChunkCh s)
             /\ unavailChunkCh s'
                = unavailChunkCh s ++ take 2 (availChunkCh s))
    /\ availChunkCh s' ++ unavailChunkCh s'
       ≡ₚ availChunkCh s ++ unavailChunkCh s.
Proof.
  unfold MoveChunkToUnavailChan.
  destruct (decide (2 <= len (unavailChunkCh s))) as [Hd|Hd];
    destruct (Z.geb_spec (len (unavailChunkCh s)) 2) as [Hge|Hlt]; try lia.
  - exists s. auto.
  - destruct s as [dir cs avail unavail ssz csz]. simpl in *.
    unfold PutUnAvailChunk, TinyChunkCount, len in *. simpl.
    destruct avail as [|a [|b rest]]; simpl.
    + eexists. split; [reflexivity|]. simpl. rewrite app_nil_r.
      split; [reflexivity|]. split; [split; reflexivity|reflexivity].
    + destruct (Z.ltb_spec (Z.of_nat (length unavail)) (10 + 1)); [|lia]. simpl.
      eexists. split; [reflexivity|]. simpl.
      split; [reflexivity|]. split; [split; reflexivity|].
      symmetry. apply Permutation_cons_append.
    + destruct (Z.ltb_spec (Z.of_nat (length unavail)) (10 + 1)); [|lia]. simpl.
      rewrite length_app. simpl.
      destruct (Z.ltb_spec (Z.of_nat (length unavail + 1)) (10 + 1)); [|lia].
      eexists. split; [reflexivity|]. simpl.
      rewrite <- app_assoc. simpl.
      split; [reflexivity|]. split; [split; reflexivity|].
      rewrite app_assoc.
      apply (Permutation_app_comm (rest ++ unavail) [a; b]).
Qed.

Lemma putAvailAll_queue ids s :
  len (availChunkCh s) + len ids <= TinyChunkCount + 1 ->
  exists s', putAvailAll s ids = Some s'
             /\ availChunkCh s' = availChunkCh s ++ ids
             /\ chunks s' = chunks s
             /\ unavailChunkCh s' = unavailChunkCh s.
Proof.
  revert s. induction ids as [|x ids IH]; intros s Hlen.
  - exists s. rewrite app_nil_r. auto.
  - simpl. unfold PutAvailChunk. unfold len in *. simpl length in Hlen.
    destruct (Z.ltb_spec (Z.of_nat (length (availChunkCh s))) (TinyChunkCount + 1));
      [|lia].
    destruct (IH (setAvail s (availChunkCh s ++ [x]))) as (s' & Hp & Ha & Hc & Hu).
    { simpl. rewrite length_app. simpl. lia. }
    exists s'. split; [exact Hp|]. simpl in *.
    rewrite Ha, <- app_assoc. auto.
Qed.

Lemma getAvailN_queue n s :
  (getAvailN n s).2 = take n (availChunkCh s)
  /\ availChunkCh (getAvailN n s).1 = drop n (availChunkCh s).
Proof.
  revert s. induction n as [|n IH]; intros s; simpl.
  - rewrite drop_0. auto.
  - unfold GetAvailChunk. destruct (availChunkCh s) as [|x q] eqn:E.
    + destruct (IH s) as (H1 & H2). rewrite H1, H2, E. simpl.
      rewrite take_nil, drop_nil. auto.
    + destruct (IH (setAvail s q)) as (H1 & H2).
      destruct (getAvailN n (setAvail s q)) as [s'' got]. simpl in *.
      rewrite H1, H2. auto.
Qed.

(** X11: the queue of available chunk ids is first in, first out and holds
    eleven ids. Ids put with [PutAvailChunk] while there is room are
    accepted, and calls of [GetAvailChunk] then return the ids that were
    queued before followed by the new ones in the order they were put, each
    once; with no room [PutAvailChunk] blocks. *)
Theorem avail_queue_fifo s ids :
  len (availChunkCh s) + len ids <= TinyChunkCount + 1 ->
  (exists s',
     putAvailAll s ids = Some s'
     /\ forall n, (getAvailN n s').2 = take n (availChunkCh s ++ ids))
  /\ (len (availChunkCh s) = TinyChunkCount + 1 ->
      forall chunkId, PutAvailChunk s chunkId = None).
Proof.
  intros Hlen. split.
  - destruct (putAvailAll_queue ids s Hlen) as (s' & Hp & Ha & _).
    exists s'. split; [exact Hp|]. intros n.
    rewrite (proj1 (getAvailN_queue n s')), Ha. reflexivity.
  - intros Hfull chunkId. unfold PutAvailChunk. rewrite Hfull.
    rewrite Z.ltb_irrefl. reflexivity.
Qed.

Lemma avail_queue_fifo_witness :
  len (availChunkCh store0) + len [3; 1; 2] <= TinyChunkCount + 1
  /\ exists s', putAvailAll store0 [3; 1; 2] = Some s'
                /\ (getAvailN 5 s').2 = [3; 1; 2].
Proof.
  assert (H : len (availChunkCh store0) + len [3; 1; 2] <= TinyChunkCount + 1)
    by (vm_compute; discriminate).
  split; [exact H|].
  destruct (proj1 (avail_queue_fifo store0 [3; 1; 2] H)) as (s' & Hp & Hg).
  exists s'. split; [exact Hp|]. rewrite Hg. reflexivity.
Defined.

(** ** All watermarks *)

(** X12: [GetAllWatermark] returns one entry for every chunk of the store
    and no other: an entry is in the list exactly when its FileId names a
    chunk and its Size is that chunk's lastOid, which is what [GetLastOid]
    returns for the id; no FileId occurs twice. *)
Theorem GetAllWatermark_all_chunks s :
  (forall fi,
     fi ∈ (GetAllWatermark s).1
     <-> FileInfo.Source fi = EmptyString
         /\ GetLastOid s (FileInfo.FileId fi) = (FileInfo.Size fi, None))
  /\ NoDup (FileInfo.FileId <$> (GetAllWatermark s).1)
  /\ length (GetAllWatermark s).1 = size (chunks s)
  /\ (GetAllWatermark s).2 = None.
Proof.
  unfold GetAllWatermark. simpl. split; [|split; [|split]].
  - intros fi. rewrite list_elem_of_fmap. unfold GetLastOid, loadLastOid. split.
    + intros ([k c] & -> & Hin). apply elem_of_map_to_list in Hin.
      simpl. rewrite Hin. auto.
    + intros (Hsrc & Hg). destruct fi as [src id sz]. simpl in *. subst src.
      destruct (chunks s !! id) as [c|] eqn:Hc; [|discriminate].
      inversion Hg; subst. exists (id, c). split; [reflexivity|].
      apply elem_of_map_to_list. assumption.
  - rewrite <- list_fmap_compose.
    replace (FileInfo.FileId ∘ _) with (@fst Z Chunk).
    + apply NoDup_fst_map_to_list.
    + reflexivity.
  - rewrite length_fmap. apply length_map_to_list.
  - reflexivity.
Qed.

(** * More properties of the repair *)

(** ** The checksum fits 32 bits *)

Lemma lxor_uint32 a b : is_uint32 a -> is_uint32 b -> is_uint32 (Z.lxor a b).
Proof.
  unfold is_uint32. intros [Ha0 Ha] [Hb0 Hb].
  split; [apply Z.lxor_nonneg; lia|].
  destruct (Z.eq_dec (Z.lxor a b) 0) as [->|Hne]; [lia|].
  assert (Hpos : 0 < Z.lxor a b).
  { pose proof (proj2 (Z.lxor_nonneg a b)) as H. lia. }
  apply Z.log2_lt_pow2; [assumption|].
  pose proof (Z.log2_lxor a b Ha0 Hb0) as Hl.
  assert (Z.log2 a < 32).
  { destruct (Z.eq_dec a 0) as [->|]; [simpl; lia|].
    apply Z.log2_lt_pow2; lia. }
  assert (Z.log2 b < 32).
  { destruct (Z.eq_dec b 0) as [->|]; [simpl; lia|].
    apply Z.log2_lt_pow2; lia. }
  lia.
Qed.

Lemma shiftr1_uint32 c : is_uint32 c -> is_uint32 (Z.shiftr c 1).
Proof.
  unfold is_uint32. intros [H0 H]. rewrite Z.shiftr_div_pow2 by lia.
  change (2 ^ 1) with 2. split; [apply Z.div_pos; lia|].
  apply Z.div_lt_upper_bound; lia.
Qed.

Lemma crc_bits_uint32 n c : is_uint32 c -> is_uint32 (crc_bits n c).
Proof.
  revert c. induction n as [|n IH]; intros c Hc; cbn [crc_bits]; [assumption|].
  apply IH. destruct (Z.testbit c 0).
  - apply lxor_uint32; [apply shiftr1_uint32; assumption|].
    unfold is_uint32, IEEE. lia.
  - apply shiftr1_uint32. assumption.
Qed.

Lemma byte_to_Z_range b : 0 <= byte_to_Z b < 256.
Proof.
  unfold byte_to_Z. pose proof (Byte.to_N_bounded b). lia.
Qed.

Lemma crc_update_uint32 c b : is_uint32 c -> is_uint32 (crc_update c b).
Proof.
  intros Hc. unfold crc_update. apply crc_bits_uint32.
  apply lxor_uint32; [assumption|].
  pose proof (byte_to_Z_range b). unfold is_uint32. lia.
Qed.

Lemma ChecksumIEEE_uint32 data : is_uint32 (ChecksumIEEE data).
Proof.
  unfold ChecksumIEEE.
  assert (H : forall c, is_uint32 c -> is_uint32 (fold_left crc_update data c)).
  { induction data as [|b data IH]; intros c Hc; simpl; [assumption|].
    apply IH. apply crc_update_uint32. assumption. }
  apply lxor_uint32; [apply H|]; unfold is_uint32; lia.
Qed.

(** ** A packet of live objects *)

Lemma slice_middle {A : Type} (pre mid post : list A) :
  slice (pre ++ mid ++ post) (len pre) (len pre + len mid) = Ret mid.
Proof.
  unfold slice. pose proof (len_nonneg pre). pose proof (len_nonneg mid).
  pose proof (len_nonneg post).
  destruct (Z.leb_spec 0 (len pre)); [|lia].
  destruct (Z.leb_spec (len pre) (len pre + len mid)); [|lia].
  destruct (Z.leb_spec (len pre + len mid) (len (pre ++ mid ++ post)));
    [|rewrite !len_app in *; lia].
  simpl. unfold len. rewrite Nat2Z.id.
  replace (Z.to_nat (Z.of_nat (length pre) + Z.of_nat (length mid) - Z.of_nat (length pre)))
    with (length mid) by lia.
  rewrite drop_app_length, take_app_length. reflexivity.
Qed.

Lemma Unmarshal_Marshal o :
  is_uint64 (Object.Oid o) -> is_uint32 (Object.Offset o) ->
  is_uint32 (Object.Size o) -> is_uint32 (Object.Crc o) ->
  Object.Unmarshal (Object.Marshal o) = o.
Proof.
  intros H1 H2 H3 H4.
  pose proof (Unmarshal_Marshal_app o [] H1 H2 H3 H4) as H.
  rewrite app_nil_r in H. rewrite take_ge in H; [assumption|].
  rewrite length_Marshal. lia.
Qed.

Lemma length_wire_cons op rest :
  length (wire (op :: rest))
  = (20 + length op.2 + length (wire rest))%nat.
Proof.
  unfold wire. rewrite fmap_cons. cbn [concat].
  rewrite !length_app, length_Marshal. lia.
Qed.

Lemma wire_cons op rest :
  wire (op :: rest) = Object.Marshal op.1 ++ op.2 ++ wire rest.
Proof.
  unfold wire. rewrite fmap_cons. cbn [concat]. rewrite <- app_assoc.
  reflexivity.
Qed.

Lemma applyLoop_live objs :
  forall fuel pre store blobfileId endObjectId applyObjectId,
    (length (wire objs) < fuel)%nat ->
    is_uint32 blobfileId ->
    Forall liveObject objs ->
    applyLoop fuel store blobfileId (pre ++ wire objs) endObjectId (len pre)
              applyObjectId None
    = Some (applyObjects store blobfileId objs endObjectId applyObjectId).
Proof.
  induction objs as [|op rest IH];
    intros fuel pre store blobfileId endObjectId applyObjectId Hfuel Hid Hall.
  - destruct fuel as [|fuel]; [simpl in Hfuel; lia|].
    cbn [applyLoop applyObjects]. unfold wire. rewrite fmap_nil.
    cbn [concat]. rewrite app_nil_r.
    unfold Object.ObjectHeaderSize.
    destruct (Z.gtb_spec (len pre + 20) (len pre)); [reflexivity|lia].
  - inversion Hall as [|? ? Hop Hrest]; subst.
    destruct op as [o p]. destruct Hop as (Ho & Hoff & Hsz & Hlive & Hcrc).
    simpl in Ho, Hoff, Hsz, Hlive, Hcrc.
    rewrite length_wire_cons in Hfuel. simpl in Hfuel.
    destruct fuel as [|fuel]; [lia|].
    cbn [applyObjects]. simpl fst. simpl snd.
    assert (Hdata : pre ++ wire ((o, p) :: rest)
                    = pre ++ Object.Marshal o ++ (p ++ wire rest)).
    { rewrite wire_cons. reflexivity. }
    assert (Hdata2 : pre ++ wire ((o, p) :: rest)
                     = (pre ++ Object.Marshal o) ++ p ++ wire rest).
    { rewrite Hdata, <- app_assoc. reflexivity. }
    assert (Hdata3 : pre ++ wire ((o, p) :: rest)
                     = (pre ++ Object.Marshal o ++ p) ++ wire rest).
    { rewrite Hdata, <- !app_assoc. reflexivity. }
    pose proof (len_nonneg p) as Hp.
    assert (Hsz32 : is_uint32 (Object.Size o))
      by (unfold is_uint32, Object.TombstoneFileSize in *; lia).
    assert (Hcrc32 : is_uint32 (Object.Crc o))
      by (rewrite Hcrc; apply ChecksumIEEE_uint32).
    assert (Hun : Object.Unmarshal (Object.Marshal o) = o)
      by (apply Unmarshal_Marshal; assumption).
    destruct (Z.geb_spec applyObjectId endObjectId) as [Hge|Hlt].
    { cbn [applyLoop]. unfold Object.ObjectHeaderSize.
      destruct (Z.gtb_spec (len pre + 20) (len (pre ++ wire ((o, p) :: rest))));
        [reflexivity|].
      destruct (Z.geb_spec applyObjectId endObjectId); [reflexivity|lia]. }
    rewrite (applyLoop_crc_match fuel store blobfileId _ endObjectId (len pre)
               applyObjectId (Object.Marshal o) p).
    + rewrite Hun. rewrite (uint32_id _ Hid), (uint64_id _ Ho).
      rewrite int64_id by (unfold is_int64, is_uint32 in *; lia).
      destruct (Write store blobfileId (Object.Oid o) (Object.Size o) p
                      (Object.Crc o)) as [[store1 [e|]]|]; try reflexivity.
      rewrite Hdata3.
      replace (len pre + 20 + Object.Size o)
        with (len (pre ++ Object.Marshal o ++ p))
        by (rewrite !len_app, len_Marshal; unfold Object.ObjectHeaderSize; lia).
      apply IH; [lia|assumption|assumption].
    + rewrite Hdata, !len_app, len_Marshal. unfold Object.ObjectHeaderSize.
      pose proof (len_nonneg (wire rest)). lia.
    + assumption.
    + rewrite Hdata.
      replace (len pre + 20) with (len pre + len (Object.Marshal o))
        by (rewrite len_Marshal; reflexivity).
      apply slice_middle.
    + rewrite Hun. lia.
    + rewrite Hun, Hdata2.
      replace (len pre + 20) with (len (pre ++ Object.Marshal o))
        by (rewrite len_app, len_Marshal; reflexivity).
      rewrite Hsz. apply slice_middle.
    + rewrite Hun. symmetry. assumption.
Qed.

Lemma applyRepairBlobObjects_live_eq store blobfileId objs endObjectId :
  is_uint32 blobfileId ->
  Forall liveObject objs ->
  applyRepairBlobObjects store blobfileId (wire objs) endObjectId
  = Some (applyObjects store blobfileId objs endObjectId 0).
Proof.
  intros Hid Hall. unfold applyRepairBlobObjects.
  apply (applyLoop_live objs (S (length (wire objs))) [] store blobfileId
           endObjectId 0); [lia|assumption|assumption].
Qed.

(** X13: on a packet that carries live objects only, each with a header that
    fits its fields and tells the length and the IEEE checksum of its
    payload, [applyRepairBlobObjects] does what a loop of [Write] calls does:
    it writes the objects in the order of the packet, each with the oid, the
    size and the crc of its header, stops with no error before the first
    object that follows one whose oid has reached endObjectId, and stops with
    the error of the first [Write] that fails. *)
Theorem applyRepairBlobObjects_live store blobfileId objs endObjectId :
  is_uint32 blobfileId ->
  Forall liveObject objs ->
  applyRepairBlobObjects store blobfileId (wire objs) endObjectId
  = Some (applyObjects store blobfileId objs endObjectId 0).
Proof.
  intros Hid Hall. apply applyRepairBlobObjects_live_eq; assumption.
Qed.

Lemma applyRepairBlobObjects_live_witness :
  is_uint32 1 /\ Forall liveObject packetHelloA
  /\ applyRepairBlobObjects store0 1 (wire packetHelloA) 2
     = Some (applyObjects store0 1 packetHelloA 2 0).
Proof.
  assert (H1 : is_uint32 1) by (unfold is_uint32; lia).
  assert (H2 : Forall liveObject packetHelloA).
  { repeat constructor; vm_compute; try reflexivity; intros; discriminate. }
  split; [exact H1|]. split; [exact H2|].
  exact (applyRepairBlobObjects_live store0 1 packetHelloA 2 H1 H2).
Defined.

(** ** The objects of a repaired chunk *)

Lemma payloadBytes_nonneg objs : 0 <= payloadBytes objs.
Proof.
  induction objs as [|op rest IH]; simpl; [lia|].
  pose proof (len_nonneg op.2). lia.
Qed.

Lemma applyObjects_ascending blobfileId endObjectId objs :
  forall store lo applyObjectId c,
    chunks store !! blobfileId = Some c ->
    compactLock c = false ->
    File.closed (file c) = false ->
    File.closed (ObjectTree.idxFile (tree c)) = false ->
    lastOid c <= lo ->
    applyObjectId <= lo ->
    ascendingFrom lo objs ->
    Forall liveObject objs ->
    Forall (fun op => Object.Oid op.1 <= endObjectId) objs ->
    len (File.content (file c)) + payloadBytes objs < 2 ^ 32 ->
    exists s' c',
      applyObjects store blobfileId objs endObjectId applyObjectId = Ret (s', None)
      /\ chunks s' !! blobfileId = Some c'
      /\ lastOid c' = default (lastOid c) (last ((fun op => Object.Oid op.1) <$> objs))
      /\ (forall op, op ∈ objs ->
            Readable s' blobfileId (Object.Oid op.1) (Object.Size op.1) op.2
                     (Object.Crc op.1))
      /\ (forall oid size payload crc,
            Readable store blobfileId oid size payload crc -> oid <= lo ->
            Readable s' blobfileId oid size payload crc).
Proof.
  induction objs as [|op rest IH];
    intros store lo applyObjectId c Hc Hlock Hf Hidx Hlast Happ Hasc Hlive Hend Hlen.
  - exists store, c. cbn [applyObjects]. split; [reflexivity|].
    split; [assumption|]. split; [reflexivity|].
    split; [intros op Hin; inversion Hin|]. intros; assumption.
  - destruct op as [o p]. cbn [ascendingFrom] in Hasc. simpl in Hasc.
    destruct Hasc as [Hlo Hasc].
    inversion Hlive as [|? ? Hop Hlive']; subst.
    inversion Hend as [|? ? Hoe Hend']; subst. simpl in Hoe.
    destruct Hop as (Ho & Hoff & Hsz & Htomb & Hcrc).
    simpl in Ho, Hoff, Hsz, Htomb, Hcrc.
    change (payloadBytes ((o, p) :: rest)) with (len p + payloadBytes rest) in Hlen.
    pose proof (payloadBytes_nonneg rest) as Hpb.
    pose proof (len_nonneg p) as Hp.
    pose proof (len_nonneg (File.content (file c))) as Hfc.
    cbn [applyObjects]. simpl fst. simpl snd.
    destruct (Z.geb_spec applyObjectId endObjectId) as [|_]; [lia|].
    assert (Hle : lastOid c <= Object.Oid o) by lia.
    assert (Hfit : 0 <= Object.Size o <= len p) by lia.
    assert (Hshort : len (File.content (file c)) < 2 ^ 32) by lia.
    destruct (Write_ok store blobfileId (Object.Oid o) (Object.Size o) p
                (Object.Crc o) c Hc Hlock Hle Hf Hidx Hfit)
      as [s1 Hw].
    rewrite Hw.
    pose proof (Write_Readable _ _ _ _ _ _ _ c Hc Hw Hshort Htomb) as Hr1.
    rewrite Hsz in Hr1 at 2. unfold len in Hr1 at 1.
    rewrite Nat2Z.id, firstn_all in Hr1.
    destruct (Write_ok_inv _ _ _ _ _ _ _ Hw)
      as (c0 & c1 & Hc0 & Hs1 & _ & _ & _ & _ & Hfile & Hidx1 & _ & Hlast1 & _ & Hlock1).
    rewrite Hc in Hc0. inversion Hc0; subst c0; clear Hc0.
    assert (Hc1 : chunks s1 !! blobfileId = Some c1)
      by (rewrite Hs1; apply lookup_setChunk).
    assert (Hlen1 : len (File.content (file c1)) + payloadBytes rest < 2 ^ 32).
    { rewrite Hfile. simpl. rewrite len_app.
      replace (take (Z.to_nat (Object.Size o)) p) with p; [lia|].
      rewrite Hsz. unfold len. rewrite Nat2Z.id, firstn_all. reflexivity. }
    assert (Hf1 : File.closed (file c1) = false) by (rewrite Hfile; reflexivity).
    assert (Hi1 : File.closed (ObjectTree.idxFile (tree c1)) = false)
      by (rewrite Hidx1; reflexivity).
    assert (Hl1 : lastOid c1 <= Object.Oid o) by lia.
    destruct (IH s1 (Object.Oid o) (Object.Oid o) c1 Hc1 Hlock1 Hf1 Hi1 Hl1
                (Z.le_refl _) Hasc Hlive' Hend' Hlen1)
      as (s' & c' & Hrun & Hc' & Hlast' & Hnew & Hold).
    exists s', c'. split; [assumption|]. split; [assumption|]. split.
    { rewrite Hlast'. rewrite fmap_cons. simpl.
      destruct ((fun op => Object.Oid op.1) <$> rest) as [|x xs] eqn:Hr.
      - simpl. assumption.
      - rewrite last_cons_cons. destruct (last (x :: xs)) eqn:Hl; [reflexivity|].
        apply last_None in Hl. discriminate. }
    split.
    + intros op Hin. apply elem_of_cons in Hin as [->|Hin].
      * apply Hold; [|simpl; lia]. exact Hr1.
      * apply Hnew. assumption.
    + intros oid size payload crc Hr Hbelow.
      apply Hold; [|lia].
      apply (Readable_Write_other store blobfileId oid size payload crc
               (mkWriteReq blobfileId (Object.Oid o) (Object.Size o) p (Object.Crc o))
               s1 None); [assumption| |exact Hw].
      right. simpl. lia.
Qed.

(** X14: the repair of a chunk puts the objects of the packet where reads
    find them. Let the chunk be present, not locked by a compaction and open,
    with a watermark of at least 0, and let the packet carry live objects
    only, with ids that grow strictly from above the watermark up to at most
    endObjectId, and with payloads that keep the data file shorter than
    4 GiB. Then [applyRepairBlobObjects] returns no error, the watermark of
    the chunk becomes the id of the last object of the packet, every object
    of the packet is read back with its payload and its crc, and whatever was
    readable before still is. *)
Theorem repaired_objects_readable store blobfileId objs endObjectId c :
  is_uint32 blobfileId ->
  chunks store !! blobfileId = Some c ->
  compactLock c = false ->
  File.closed (file c) = false ->
  File.closed (ObjectTree.idxFile (tree c)) = false ->
  0 <= lastOid c ->
  ascendingFrom (lastOid c) objs ->
  Forall liveObject objs ->
  Forall (fun op => Object.Oid op.1 <= endObjectId) objs ->
  len (File.content (file c)) + payloadBytes objs < 2 ^ 32 ->
  exists s',
    applyRepairBlobObjects store blobfileId (wire objs) endObjectId
    = Some (Ret (s', None))
    /\ GetLastOid s' blobfileId
       = (default (lastOid c) (last ((fun op => Object.Oid op.1) <$> objs)), None)
    /\ (forall op nbuf,
          op ∈ objs -> Object.Size op.1 <= len nbuf ->
          Read s' blobfileId (int64 (Object.Oid op.1)) (Object.Size op.1) nbuf
          = Ret (Object.Crc op.1, None, fill nbuf op.2))
    /\ (forall oid size payload crc,
          Readable store blobfileId oid size payload crc ->
          Readable s' blobfileId oid size payload crc).
Proof.
  intros Hid Hc Hlock Hf Hidx H0 Hasc Hlive Hend Hlen.
  destruct (applyObjects_ascending blobfileId endObjectId objs store (lastOid c) 0 c
              Hc Hlock Hf Hidx (Z.le_refl _) H0 Hasc Hlive Hend Hlen)
    as (s' & c' & Hrun & Hc' & Hlast' & Hnew & Hold).
  exists s'. split.
  { rewrite applyRepairBlobObjects_live_eq by assumption. rewrite Hrun. reflexivity. }
  split.
  { unfold GetLastOid. rewrite Hc'. unfold loadLastOid. rewrite Hlast'. reflexivity. }
  split.
  - intros op nbuf Hin Hbuf.
    pose proof (proj1 (Forall_forall _ _) Hlive op Hin) as (Ho & _ & Hsz & _).
    apply Readable_Read; [apply Hnew; assumption|assumption|].
    pose proof (len_nonneg op.2). lia.
  - intros oid size payload crc Hr. apply Hold; [assumption|].
    destruct Hr as (c0 & o & Hc0 & _ & Hoid & _).
    rewrite Hc in Hc0. inversion Hc0; subst. assumption.
Qed.

Lemma repaired_objects_readable_witness :
  exists s',
    applyRepairBlobObjects store0 1 (wire packetHelloA) 2 = Some (Ret (s', None))
    /\ GetLastOid s' 1 = (2, None)
    /\ (forall op nbuf,
          op ∈ packetHelloA -> Object.Size op.1 <= len nbuf ->
          Read s' 1 (int64 (Object.Oid op.1)) (Object.Size op.1) nbuf
          = Ret (Object.Crc op.1, None, fill nbuf op.2))
    /\ (forall oid size payload crc,
          Readable store0 1 oid size payload crc ->
          Readable s' 1 oid size payload crc).
Proof.
  assert (H1 : is_uint32 1) by (unfold is_uint32; lia).
  assert (H2 : chunks store0 !! 1 = Some (chunkOf store0 1))
    by (vm_compute; reflexivity).
  assert (H3 : compactLock (chunkOf store0 1) = false) by reflexivity.
  assert (H4 : File.closed (file (chunkOf store0 1)) = false) by reflexivity.
  assert (H5 : File.closed (ObjectTree.idxFile (tree (chunkOf store0 1))) = false)
    by reflexivity.
  assert (H6 : 0 <= lastOid (chunkOf store0 1)) by (vm_compute; discriminate).
  assert (H7 : ascendingFrom (lastOid (chunkOf store0 1)) packetHelloA)
    by (vm_compute; repeat split).
  assert (H8 : Forall liveObject packetHelloA).
  { repeat constructor; vm_compute; try reflexivity; intros; discriminate. }
  assert (H9 : Forall (fun op => Object.Oid op.1 <= 2) packetHelloA)
    by (repeat constructor; vm_compute; discriminate).
  assert (H10 : len (File.content (file (chunkOf store0 1)))
                + payloadBytes packetHelloA < 2 ^ 32)
    by (vm_compute; reflexivity).
  exact (repaired_objects_readable store0 1 packetHelloA 2 (chunkOf store0 1)
           H1 H2 H3 H4 H5 H6 H7 H8 H9 H10).
Defined.

(** ** Packets of any bytes *)

Lemma be_decode_range bs : 0 <= be_decode bs < 256 ^ Z.of_nat (length bs).
Proof.
  unfold be_decode.
  assert (H : forall acc, 0 <= acc ->
            0 <= fold_left (fun a b => a * 256 + byte_to_Z b) bs acc
            < (acc + 1) * 256 ^ Z.of_nat (length bs)).
  { induction bs as [|b bs IH]; intros acc Hacc.
    - simpl. lia.
    - cbn [fold_left length]. pose proof (byte_to_Z_range b) as Hb.
      destruct (IH (acc * 256 + byte_to_Z b) ltac:(lia)) as [Hlo Hhi].
      split; [assumption|].
      rewrite Nat2Z.inj_succ, Z.pow_succ_r by lia.
      assert (Hp : 0 < 256 ^ Z.of_nat (length bs)) by (apply Z.pow_pos_nonneg; lia).
      nia. }
  specialize (H 0 ltac:(lia)). lia.
Qed.

Lemma Unmarshal_Size_range hdr : is_uint32 (Object.Size (Object.Unmarshal hdr)).
Proof.
  unfold Object.Unmarshal. cbn [Object.Size].
  pose proof (be_decode_range (take 4 (drop 12 hdr))) as H.
  assert (Hl : (length (take 4 (drop 12 hdr)) <= 4)%nat)
    by (rewrite length_take; lia).
  assert (Hp : 256 ^ Z.of_nat (length (take 4 (drop 12 hdr))) <= 256 ^ 4)
    by (apply Z.pow_le_mono_r; lia).
  unfold is_uint32. change (2 ^ 32) with (256 ^ 4). lia.
Qed.

Lemma slice_ok {A : Type} (b : list A) lo hi :
  0 <= lo -> lo <= hi -> hi <= len b ->
  exists d, slice b lo hi = Ret d /\ len d = hi - lo.
Proof.
  intros H0 H1 H2. unfold slice.
  destruct (Z.leb_spec 0 lo); [|lia]. destruct (Z.leb_spec lo hi); [|lia].
  destruct (Z.leb_spec hi (len b)); [|lia]. simpl.
  eexists. split; [reflexivity|].
  unfold len in *. rewrite length_take, length_drop. lia.
Qed.

Lemma Write_errors s fileId objectId size data crc s' e :
  Write s fileId objectId size data crc = Ret (s', Some e) -> storeError e.
Proof.
  unfold Write, storeError. intros H.
  destruct (chunks s !! fileId) as [c|]; [|inversion H; auto].
  destruct (compactLock c); [inversion H; auto|].
  destruct (objectId <? loadLastOid c); [inversion H; auto|].
  unfold File.Stat in H.
  destruct (File.closed (file c)) eqn:Hf; [inversion H; auto|].
  destruct (slice data 0 size) as [d|]; [|discriminate].
  unfold File.WriteAt in H. rewrite Hf in H.
  pose proof (len_nonneg (File.content (file c))) as Hn.
  destruct (Z.ltb_spec (len (File.content (file c))) 0); [lia|].
  unfold ObjectTree.set, ObjectTree.appendToIdxFile, File.Write in H.
  cbn [ObjectTree.idxFile setFile tree] in H.
  destruct (File.closed (ObjectTree.idxFile (tree c)));
    inversion H; auto.
Qed.

Lemma Write_returns s fileId objectId size data crc :
  0 <= size <= len data -> Write s fileId objectId size data crc <> Panic.
Proof.
  intros Hsz. unfold Write.
  destruct (chunks s !! fileId) as [c|]; [|discriminate].
  destruct (compactLock c); [discriminate|].
  destruct (objectId <? loadLastOid c); [discriminate|].
  destruct (File.Stat (file c)) as [fiSize [e|]]; [discriminate|].
  rewrite slice_prefix by assumption.
  destruct (File.WriteAt _ _ _) as [f [e|]]; [discriminate|].
  destruct (ObjectTree.set _ _ _ _ _) as [t [e|]]; discriminate.
Qed.

Lemma WriteDeleteDentry_errors s objectId chunkId crc s' e :
  WriteDeleteDentry s objectId chunkId crc = (s', Some e) -> storeError e.
Proof.
  unfold WriteDeleteDentry, storeError. intros H.
  destruct (chunks s !! chunkId) as [c|]; [|inversion H; auto].
  destruct (compactLock c); [inversion H; auto|].
  unfold File.Stat in H.
  destruct (File.closed (file c)); [inversion H; auto|].
  unfold ObjectTree.appendToIdxFile, File.Write in H.
  destruct (File.closed (ObjectTree.idxFile (tree c)));
    inversion H; auto.
Qed.

Lemma applyLoop_result fuel :
  forall store blobfileId data endObjectId offset applyObjectId,
    0 <= offset ->
    (Z.to_nat (len data - offset) < fuel)%nat ->
    exists s' e,
      applyLoop fuel store blobfileId data endObjectId offset applyObjectId None
      = Some (Ret (s', e))
      /\ (forall x, e = Some x -> storeError x).
Proof.
  induction fuel as [|fuel IH];
    intros store blobfileId data endObjectId offset applyObjectId Hoff Hfuel; [lia|].
  cbn [applyLoop]. unfold Object.ObjectHeaderSize.
  destruct (Z.gtb_spec (offset + 20) (len data)) as [|Hhdr];
    [exists store, None; split; [reflexivity|discriminate]|].
  destruct (applyObjectId >=? endObjectId);
    [exists store, None; split; [reflexivity|discriminate]|].
  destruct (slice_ok data offset (offset + 20)) as (hdr & -> & _); try lia.
  pose proof (Unmarshal_Size_range hdr) as Hsz. unfold is_uint32 in Hsz.
  set (o := Object.Unmarshal hdr) in *.
  destruct (if Object.Size o =? Object.TombstoneFileSize
            then WriteDeleteDentry store (Object.Oid o) blobfileId (Object.Crc o)
            else (store, None)) as [store1 [e1|]] eqn:Hd.
  { exists store1, (Some e1). split; [reflexivity|].
    intros x Hx. inversion Hx; subst x.
    destruct (Object.Size o =? Object.TombstoneFileSize); [|discriminate].
    apply (WriteDeleteDentry_errors _ _ _ _ _ _ Hd). }
  destruct (Z.gtb_spec (offset + 20 + Object.Size o) (len data)) as [|Hbody];
    [exists store1, None; split; [reflexivity|discriminate]|].
  destruct (slice_ok data (offset + 20) (offset + 20 + Object.Size o))
    as (ndata & -> & Hnd); try lia.
  destruct (negb _);
    [exists store1, None; split; [reflexivity|discriminate]|].
  rewrite (int64_id (Object.Size o)) by (unfold is_int64; lia).
  destruct (Write store1 (uint32 blobfileId) (uint64 (Object.Oid o))
                  (Object.Size o) ndata (Object.Crc o))
    as [[store2 [e2|]]|] eqn:Hw.
  - exists store2, (Some e2). split; [reflexivity|].
    intros x Hx. inversion Hx; subst x. apply (Write_errors _ _ _ _ _ _ _ _ Hw).
  - apply IH; [lia|]. lia.
  - exfalso. revert Hw. apply Write_returns. lia.
Qed.

(** X16: whatever bytes a repair packet holds, [applyRepairBlobObjects]
    comes to an end without a panic, and an error that it returns is one of
    the store ([Write] or [WriteDeleteDentry] found no chunk, a chunk locked
    by a compaction, an object id below the watermark or a closed file): a
    packet that is cut short or fails its checksum is never reported. *)
Theorem applyRepairBlobObjects_any_bytes store blobfileId data endObjectId :
  exists s' e,
    applyRepairBlobObjects store blobfileId data endObjectId = Some (Ret (s', e))
    /\ match e with
       | None => True
       | Some x => x = ErrorFileNotFound \/ x = ErrorAgain
                   \/ x = ErrObjectSmaller \/ x = ErrClosed
       end.
Proof.
  unfold applyRepairBlobObjects.
  destruct (applyLoop_result (S (length data)) store blobfileId data endObjectId
              0 0 ltac:(lia) ltac:(unfold len; lia)) as (s' & e & Hrun & He).
  exists s', e. split; [assumption|].
  destruct e as [x|]; [|exact I]. apply (He x). reflexivity.
Qed.

(** ** The end of a stream repair *)

Lemma GetWatermark_some s fileId :
  (exists fi, GetWatermark s fileId = (Some fi, None))
  \/ GetWatermark s fileId = (None, Some ErrorFileNotFound).
Proof.
  unfold GetWatermark. destruct (chunks s !! int64 fileId); eauto.
Qed.

Lemma streamLoop_result incoming :
  forall store remoteBlobFileInfo,
    exists s' e,
      streamLoop store remoteBlobFileInfo incoming = Some (Ret (s', e))
      /\ (e = None ->
          exists fi,
            GetWatermark s' (uint64 (FileInfo.FileId remoteBlobFileInfo))
            = (Some fi, None)
            /\ FileInfo.Size remoteBlobFileInfo <= FileInfo.Size fi).
Proof.
  induction incoming as [|request rest IH]; intros store remote;
    cbn [streamLoop];
    destruct (GetWatermark_some store (uint64 (FileInfo.FileId remote)))
      as [[fi Hg]|Hg]; rewrite Hg;
    try (exists store, (Some ErrorFileNotFound); split;
         [reflexivity|discriminate]).
  - destruct (Z.geb_spec (FileInfo.Size fi) (FileInfo.Size remote)).
    + exists store, None. split; [reflexivity|]. intros _. exists fi.
      split; [assumption|lia].
    + exists store, (Some ErrConn). split; [reflexivity|discriminate].
  - destruct (Z.geb_spec (FileInfo.Size fi) (FileInfo.Size remote)).
    { exists store, None. split; [reflexivity|]. intros _. exists fi.
      split; [assumption|lia]. }
    destruct (_ >? _);
      [exists store, (Some ErrInvalidOffset); split; [reflexivity|discriminate]|].
    destruct (applyLoop_result (S (length (Packet.Data request))) store
                (FileInfo.FileId remote) (Packet.Data request)
                (uint64 (Packet.Offset request)) 0 0
                ltac:(lia) ltac:(unfold len; lia)) as (s1 & e1 & Hrun & _).
    unfold applyRepairBlobObjects. rewrite Hrun.
    destruct e1 as [x|]; [|apply IH].
    exists s1, (Some x). split; [reflexivity|discriminate].
Qed.

Lemma streamLoop_idle store remoteBlobFileInfo rest :
  streamLoop store remoteBlobFileInfo (idlePacket :: rest)
  = streamLoop store remoteBlobFileInfo rest.
Proof.
  assert (Hrest : forall w,
            GetWatermark store (uint64 (FileInfo.FileId remoteBlobFileInfo)) = w ->
            streamLoop store remoteBlobFileInfo rest
            = match w with
              | (_, Some e) => Some (Ret (store, Annotatef (Some e)))
              | (None, None) => Some Panic
              | (Some localBlobFileInfo, None) =>
                  if FileInfo.Size localBlobFileInfo
                     >=? FileInfo.Size remoteBlobFileInfo
                  then Some (Ret (store, None))
                  else streamLoop store remoteBlobFileInfo rest
              end).
  { intros w Hw. destruct rest as [|r rest']; cbn [streamLoop]; rewrite Hw;
      destruct w as [[fi|] [e|]]; try reflexivity;
      destruct (_ >=? _); reflexivity. }
  cbn [streamLoop].
  destruct (GetWatermark store (uint64 (FileInfo.FileId remoteBlobFileInfo)))
    as [[fi|] [e|]] eqn:Hg; rewrite (Hrest _ eq_refl); try reflexivity.
  destruct (FileInfo.Size fi >=? FileInfo.Size remoteBlobFileInfo) eqn:Hge;
    [reflexivity|].
  cbn [idlePacket Packet.Offset Packet.Data].
  pose proof (uint64_range (FileInfo.FileId remoteBlobFileInfo)) as Hr.
  unfold is_uint64 in Hr. change (uint64 0) with 0.
  destruct (Z.gtb_spec 0 (uint64 (FileInfo.FileId remoteBlobFileInfo))); [lia|].
  reflexivity.
Qed.

(** X15: on a connection that delivers finitely many response packets and
    then fails the read, [streamRepairBlobObjects] returns without a panic,
    and when it returns no error the local watermark of the chunk has
    reached the watermark that the leader reported: nil is never returned
    for a chunk that is still behind. The loop has no bound of its own: a
    response packet with offset 0 and no data passes the offset check,
    writes nothing and is followed by the next read, so that with any number
    of such packets put first the call returns what it returns without them;
    it goes round for as long as the leader sends them. *)
Theorem streamRepairBlobObjects_nil_caught_up store remoteBlobFileInfo :
  (forall conn,
     exists s' e,
       streamRepairBlobObjects store remoteBlobFileInfo conn = Some (Ret (s', e))
       /\ (e = None ->
           exists fi,
             GetWatermark s' (uint64 (FileInfo.FileId remoteBlobFileInfo))
             = (Some fi, None)
             /\ FileInfo.Size remoteBlobFileInfo <= FileInfo.Size fi))
  /\ (forall n dial send rest,
        streamRepairBlobObjects store remoteBlobFileInfo
          (mkConn dial send (replicate n idlePacket ++ rest))
        = streamRepairBlobObjects store remoteBlobFileInfo
            (mkConn dial send rest)).
Proof.
  split.
  - intros conn. unfold streamRepairBlobObjects.
    destruct (GetWatermark_some store (uint64 (FileInfo.FileId remoteBlobFileInfo)))
      as [[fi Hg]|Hg]; rewrite Hg.
    + destruct (negb (dialOk conn));
        [exists store, (Some ErrConn); split; [reflexivity|discriminate]|].
      destruct (negb (sendOk conn));
        [exists store, (Some ErrConn); split; [reflexivity|discriminate]|].
      apply streamLoop_result.
    + exists store, (Some ErrorFileNotFound). split; [reflexivity|discriminate].
  - intros n dial send rest. unfold streamRepairBlobObjects. cbn [dialOk sendOk responses].
    destruct (GetWatermark store _) as [[fi|] [e|]]; try reflexivity.
    destruct (negb dial); [reflexivity|]. destruct (negb send); [reflexivity|].
    induction n as [|n IH]; [reflexivity|].
    cbn [replicate app]. rewrite streamLoop_idle. exact IH.
Qed.

Lemma streamRepairBlobObjects_nil_caught_up_witness :
  exists s',
    streamRepairBlobObjects store0 (FileInfo.mk EmptyString 2 2) connHelloA
    = Some (Ret (s', None))
    /\ exists fi,
         GetWatermark s' (uint64 2) = (Some fi, None) /\ 2 <= FileInfo.Size fi.
Proof.
  destruct (proj1 (streamRepairBlobObjects_nil_caught_up store0
                     (FileInfo.mk EmptyString 2 2)) connHelloA)
    as (s' & e & Hrun & He).
  assert (Hnil : e = None).
  { revert Hrun. vm_compute. intros Hrun. inversion Hrun. reflexivity. }
  subst e. exists s'. split; [exact Hrun|]. exact (He eq_refl).
Defined.

(** * The watermarks of the members *)

Lemma lookup_fileMap_from (l : list FileInfo.t) (m : gmap Z FileInfo.t) k :
  foldl (fun m file => <[FileInfo.FileId file := file]> m) m l !! k
  = match last (filter (fun f => FileInfo.FileId f = k) l) with
    | Some f => Some f
    | None => m !! k
    end.
Proof.
  revert m. induction l as [|a l IH]; intros m; [reflexivity|].
  cbn [foldl]. rewrite IH. rewrite filter_cons.
  destruct (decide (FileInfo.FileId a = k)) as [Heq|Hne].
  - destruct (filter _ l) as [|x xs] eqn:Hf.
    + simpl. rewrite <- Heq. apply lookup_insert_eq.
    + rewrite last_cons_cons. destruct (last (x :: xs)) eqn:Hl; [reflexivity|].
      apply last_None in Hl. discriminate.
  - destruct (last (filter _ l)); [reflexivity|].
    apply lookup_insert_ne. assumption.
Qed.

Lemma lookup_fileMap l k :
  fileMap l !! k = last (filter (fun f => FileInfo.FileId f = k) l).
Proof.
  unfold fileMap. rewrite lookup_fileMap_from.
  destruct (last _); [reflexivity|apply lookup_empty].
Qed.

Lemma elem_of_filterFiles all ids fi :
  fi ∈ filterFiles all ids <-> fi ∈ all /\ FileInfo.FileId fi ∈ ids.
Proof.
  unfold filterFiles. rewrite list_elem_of_In, in_flat_map. split.
  - intros (cid & Hin & Hfi). apply in_flat_map in Hfi as (ccid & Hc & Hfi).
    destruct (Z.eqb_spec (FileInfo.FileId cid) ccid) as [Heq|]; [|inversion Hfi].
    destruct Hfi as [<-|[]]. split; [apply list_elem_of_In; assumption|].
    rewrite Heq. apply list_elem_of_In. assumption.
  - intros [Hin Hid]. exists fi. split; [apply list_elem_of_In; assumption|].
    apply in_flat_map. exists (FileInfo.FileId fi).
    split; [apply list_elem_of_In; assumption|].
    rewrite Z.eqb_refl. left. reflexivity.
Qed.

Lemma elem_of_GetAllWatermark s fi :
  fi ∈ (GetAllWatermark s).1
  <-> exists c, chunks s !! FileInfo.FileId fi = Some c
                /\ fi = FileInfo.mk EmptyString (FileInfo.FileId fi) (loadLastOid c).
Proof.
  unfold GetAllWatermark. simpl. rewrite list_elem_of_fmap. split.
  - intros ([k c] & -> & Hin). apply elem_of_map_to_list in Hin.
    exists c. simpl. auto.
  - intros (c & Hc & Hfi). exists (FileInfo.FileId fi, c).
    split; [assumption|]. apply elem_of_map_to_list. assumption.
Qed.

Lemma last_elem_of {A : Type} (l : list A) x : last l = Some x -> x ∈ l.
Proof.
  intros H. apply last_Some in H as [l' ->]. apply elem_of_app. right.
  apply list_elem_of_singleton. reflexivity.
Qed.

(** X17: [getLocalBlobFileMetas] returns the watermarks of the chunks that
    the filter names, and of no other: the map has an entry under an id
    exactly when the id is in the filter and names a chunk of the store, and
    the entry holds that id and the chunk's lastOid, however often the filter
    repeats the id. *)
Theorem getLocalBlobFileMetas_filtered store filterBlobFileids :
  exists m,
    getLocalBlobFileMetas store filterBlobFileids = (Some m, None)
    /\ forall k fi,
         m !! k = Some fi
         <-> k ∈ filterBlobFileids
             /\ FileInfo.Source fi = EmptyString
             /\ FileInfo.FileId fi = k
             /\ GetLastOid store k = (FileInfo.Size fi, None).
Proof.
  unfold getLocalBlobFileMetas.
  destruct (GetAllWatermark store) as [blobFiles err] eqn:Hg.
  assert (Herr : err = None) by (unfold GetAllWatermark in Hg; inversion Hg; auto).
  subst err. eexists. split; [reflexivity|].
  assert (Hall : forall fi, fi ∈ blobFiles
            <-> exists c, chunks store !! FileInfo.FileId fi = Some c
                  /\ fi = FileInfo.mk EmptyString (FileInfo.FileId fi) (loadLastOid c)).
  { intros fi. rewrite <- elem_of_GetAllWatermark, Hg. reflexivity. }
  intros k fi. rewrite lookup_fileMap. unfold GetLastOid. split.
  - intros Hl. apply last_elem_of in Hl.
    apply list_elem_of_filter in Hl as [Hk Hin].
    apply elem_of_filterFiles in Hin as [Hin Hid].
    apply Hall in Hin as (c & Hc & Hfi).
    rewrite Hk in *. split; [assumption|].
    rewrite Hfi. simpl. rewrite Hc. auto.
  - intros (Hid & Hsrc & Hk & Hlast).
    destruct (chunks store !! k) as [c|] eqn:Hc; [|discriminate].
    assert (Hfi : fi = FileInfo.mk EmptyString k (loadLastOid c)).
    { destruct fi as [src id sz]. simpl in *. inversion Hlast. subst. reflexivity. }
    assert (Hin : fi ∈ filter (fun f => FileInfo.FileId f = k)
                         (filterFiles blobFiles filterBlobFileids)).
    { apply list_elem_of_filter. split; [assumption|].
      apply elem_of_filterFiles. split; [|rewrite Hk; assumption].
      apply Hall. exists c. rewrite Hk. auto. }
    destruct (last (filter _ (filterFiles blobFiles filterBlobFileids)))
      as [fi'|] eqn:Hl.
    + f_equal. pose proof (last_elem_of _ _ Hl) as Hin'.
      apply list_elem_of_filter in Hin' as [Hk' Hin'].
      apply elem_of_filterFiles in Hin' as [Hin' _].
      apply Hall in Hin' as (c' & Hc' & Hfi').
      rewrite Hk' in *. rewrite Hc in Hc'. inversion Hc'; subst c'.
      rewrite Hfi, Hfi'. reflexivity.
    + apply last_None in Hl. rewrite Hl in Hin. inversion Hin.
Qed.

(** X18: [getRemoteBlobFileMetas] does not apply its filter: when the reply
    decodes to a list, the map holds an entry under every FileId of the
    list, in the filter or not, namely the last entry of the list with that
    id; two calls that differ in the filter only return the same. *)
Theorem getRemoteBlobFileMetas_unfiltered allFiles filterBlobFileids :
  exists m,
    getRemoteBlobFileMetas (Files allFiles) filterBlobFileids = (Some m, None)
    /\ (forall k,
          m !! k = last (filter (fun f => FileInfo.FileId f = k) allFiles))
    /\ (forall fi, fi ∈ allFiles -> is_Some (m !! FileInfo.FileId fi))
    /\ forall other,
         getRemoteBlobFileMetas (Files allFiles) other
         = getRemoteBlobFileMetas (Files allFiles) filterBlobFileids.
Proof.
  eexists. split; [reflexivity|]. split; [apply lookup_fileMap|]. split.
  - intros fi Hin. rewrite lookup_fileMap.
    destruct (last _) eqn:Hl; [eauto|].
    apply last_None in Hl.
    assert (H : fi ∈ filter (fun f => FileInfo.FileId f = FileInfo.FileId fi) allFiles)
      by (apply list_elem_of_filter; auto).
    rewrite Hl in H. inversion H.
  - reflexivity.
Qed.

(** * Deleting an object *)

Lemma MarkDelete_eval s fileId offset size c old :
  chunks s !! fileId = Some c ->
  File.closed (ObjectTree.idxFile (tree c)) = false ->
  ObjectTree.tree (tree c) !! uint64 offset = Some old ->
  exists c',
    MarkDelete s fileId offset size = (setChunk s fileId c', None)
    /\ file c' = file c
    /\ lastOid c' = lastOid c
    /\ ObjectTree.tree (tree c')
       = <[uint64 offset := Object.mk (uint64 offset) 0 Object.TombstoneFileSize 0]>
           (ObjectTree.tree (tree c))
    /\ ObjectTree.idxFile (tree c')
       = File.mk false
           (File.content (ObjectTree.idxFile (tree c))
            ++ Object.Marshal
                 (Object.mk (uint64 offset) 0 Object.TombstoneFileSize 0)).
Proof.
  intros Hc Hidx Hold. unfold MarkDelete. rewrite Hc.
  unfold ObjectTree.delete. rewrite Hold.
  unfold ObjectTree.set, ObjectTree.appendToIdxFile, File.Write.
  cbn [ObjectTree.idxFile]. rewrite Hidx.
  eexists. split; [reflexivity|]. repeat split.
Qed.

(** X19: [MarkDelete] of an object that the index of a chunk knows (the
    index file being open) returns no error and hides that object and no
    other: [GetObject] and, with the data file open and the id within the
    watermark, [Read] fail for it with ErrorObjNotFound, the watermark of the
    chunk is as before, and every other object that was readable still is.
    It does not look at the lock of the compaction nor at its [size]
    argument. For an object id that the index does not know it returns
    ErrorObjNotFound and the chunks are as before. *)
Theorem MarkDelete_hides_object s fileId offset size c :
  chunks s !! fileId = Some c ->
  File.closed (ObjectTree.idxFile (tree c)) = false ->
  (is_Some (ObjectTree.tree (tree c) !! uint64 offset) ->
   exists s',
     MarkDelete s fileId offset size = (s', None)
     /\ GetObject s' fileId (uint64 offset) = (None, Some ErrorObjNotFound)
     /\ (forall sz nbuf,
           File.closed (file c) = false -> uint64 offset <= lastOid c ->
           Read s' fileId offset sz nbuf = Ret (0, Some ErrorObjNotFound, nbuf))
     /\ GetLastOid s' fileId = GetLastOid s fileId
     /\ forall f oid sz payload crc,
          Readable s f oid sz payload crc ->
          f <> fileId \/ oid <> uint64 offset ->
          Readable s' f oid sz payload crc)
  /\ (ObjectTree.tree (tree c) !! uint64 offset = None ->
      exists s',
        MarkDelete s fileId offset size = (s', Some ErrorObjNotFound)
        /\ chunks s' = chunks s).
Proof.
  intros Hc Hidx. split.
  - intros [old Hold].
    destruct (MarkDelete_eval s fileId offset size c old Hc Hidx Hold)
      as (c' & Hm & Hfile & Hlast & Htree & _).
    exists (setChunk s fileId c'). split; [assumption|].
    assert (Hget : ObjectTree.get (tree c') (uint64 offset) = None).
    { unfold ObjectTree.get. rewrite Htree, lookup_insert_eq. reflexivity. }
    split; [unfold GetObject; rewrite lookup_setChunk, Hget; reflexivity|].
    split.
    { intros sz nbuf Hf Hle.
      apply (Read_index_miss _ _ _ _ _ c'); [apply lookup_setChunk| | |assumption].
      - rewrite Hlast. assumption.
      - rewrite Hfile. assumption. }
    split.
    { unfold GetLastOid. rewrite lookup_setChunk, Hc. unfold loadLastOid.
      rewrite Hlast. reflexivity. }
    intros f oid sz payload crc
           (c0 & o & Hc0 & Hf0 & Hoid & Ht & Htomb & Hsz & Hcrc & Hsz0 & Hoff & Hi64 & Hin & Hpay)
           Hother.
    destruct (decide (f = fileId)) as [->|Hne].
    + rewrite Hc in Hc0. inversion Hc0; subst c0; clear Hc0.
      assert (Hoid' : uint64 offset <> oid) by (destruct Hother; congruence).
      exists c', o. split; [apply lookup_setChunk|].
      rewrite Hfile, Hlast, Htree, lookup_insert_ne by assumption.
      repeat (split; [assumption|]). assumption.
    + exists c0, o. split; [rewrite lookup_setChunk_ne by congruence; assumption|].
      repeat (split; [assumption|]). assumption.
  - intros Hnone. unfold MarkDelete. rewrite Hc. unfold ObjectTree.delete.
    rewrite Hnone. eexists. split; [reflexivity|].
    unfold setChunk. simpl. apply insert_id.
    rewrite Hc. f_equal. destruct c. reflexivity.
Qed.

Lemma MarkDelete_hides_object_witness :
  exists s',
    MarkDelete storeHelloA 1 1 5 = (s', None)
    /\ GetObject s' 1 (uint64 1) = (None, Some ErrorObjNotFound)
    /\ (forall sz nbuf,
          File.closed (file (chunkOf storeHelloA 1)) = false ->
          uint64 1 <= lastOid (chunkOf storeHelloA 1) ->
          Read s' 1 1 sz nbuf = Ret (0, Some ErrorObjNotFound, nbuf))
    /\ GetLastOid s' 1 = GetLastOid storeHelloA 1
    /\ forall f oid sz payload crc,
         Readable storeHelloA f oid sz payload crc ->
         f <> 1 \/ oid <> uint64 1 ->
         Readable s' f oid sz payload crc.
Proof.
  assert (H1 : chunks storeHelloA !! 1 = Some (chunkOf storeHelloA 1))
    by (vm_compute; reflexivity).
  assert (H2 : File.closed (ObjectTree.idxFile (tree (chunkOf storeHelloA 1))) = false)
    by reflexivity.
  assert (H3 : is_Some (ObjectTree.tree (tree (chunkOf storeHelloA 1)) !! uint64 1))
    by (vm_compute; eauto).
  exact (proj1 (MarkDelete_hides_object storeHelloA 1 1 5 (chunkOf storeHelloA 1)
                  H1 H2) H3).
Defined.

(** * The deletes that a chunk lists *)

Lemma upTo_all L rs :
  Forall (fun r => Object.Oid r <= L) rs -> upTo L rs = rs.
Proof.
  induction 1 as [|r rs Hr _ IH]; [reflexivity|]. cbn [upTo].
  destruct (Z.gtb_spec (Object.Oid r) L); [lia|]. rewrite IH. reflexivity.
Qed.

Lemma tombstonesUpTo_snoc L L' rs r :
  Forall (fun r => Object.Oid r <= L) rs ->
  L <= L' -> Object.Oid r <= L' ->
  tombstonesUpTo L' (rs ++ [r])
  = tombstonesUpTo L rs ++ (if Object.isTombstone r then [Object.Oid r] else []).
Proof.
  intros Hrs HL Hr. unfold tombstonesUpTo.
  rewrite (upTo_all L rs) by assumption.
  rewrite (upTo_all L' (rs ++ [r])).
  2:{ apply Forall_app. split.
      - eapply Forall_impl; [eassumption|]. simpl. intros; lia.
      - constructor; [assumption|constructor]. }
  rewrite filter_app, map_app. f_equal.
  rewrite filter_cons, filter_nil.
  destruct (decide (Is_true (Object.isTombstone r))) as [Ht|Ht].
  - apply Is_true_true in Ht. rewrite Ht. reflexivity.
  - apply Is_true_false in Ht. rewrite Ht. reflexivity.
Qed.

Lemma GetDelObjects_open s fileId c :
  chunks s !! fileId = Some c ->
  File.closed (ObjectTree.idxFile (tree c)) = false ->
  (GetDelObjects s fileId).2
  = tombstonesUpTo (lastOid c) (idxRecords (ObjectTree.idxFile (tree c))).
Proof.
  intros Hc Hidx. unfold GetDelObjects. rewrite Hc.
  unfold WalkIndexFile, loadLastOid. simpl. rewrite Hidx.
  pose proof (walk_delObjects (lastOid c)
                (idxRecords (ObjectTree.idxFile (tree c))) []) as Hw.
  destruct (walk _ _ _) as [objects e]. simpl in Hw. subst objects.
  reflexivity.
Qed.

Lemma GetDelObjects_same_chunks s s1 fileId :
  chunks s1 = chunks s ->
  (GetDelObjects s1 fileId).2 = (GetDelObjects s fileId).2.
Proof.
  intros E. unfold GetDelObjects. rewrite E.
  destruct (chunks s !! fileId) as [c|]; [|reflexivity].
  destruct (WalkIndexFile _ _ _) as [objects e]. reflexivity.
Qed.

Lemma logValid_append c c' r :
  logValid c ->
  ObjectTree.idxFile (tree c')
  = File.mk false (File.content (ObjectTree.idxFile (tree c)) ++ Object.Marshal r) ->
  is_uint64 (Object.Oid r) -> is_uint32 (Object.Offset r) ->
  is_uint32 (Object.Size r) -> is_uint32 (Object.Crc r) ->
  lastOid c <= lastOid c' -> Object.Oid r <= lastOid c' ->
  logValid c'
  /\ idxRecords (ObjectTree.idxFile (tree c'))
     = idxRecords (ObjectTree.idxFile (tree c)) ++ [r].
Proof.
  intros [Hmod Hall] Hidx H1 H2 H3 H4 Hle Hr.
  assert (Hrs : idxRecords (ObjectTree.idxFile (tree c'))
                = idxRecords (ObjectTree.idxFile (tree c)) ++ [r]).
  { rewrite Hidx. apply idxRecords_append; assumption. }
  split; [|assumption]. split.
  - rewrite Hidx. cbn [File.content]. rewrite len_app, len_Marshal.
    unfold Object.ObjectHeaderSize in *.
    rewrite <- Z.add_mod_idemp_l by lia. rewrite Hmod. reflexivity.
  - rewrite Hrs. apply Forall_app. split.
    + eapply Forall_impl; [eassumption|]. simpl. intros; lia.
    + constructor; [assumption|constructor].
Qed.

(** What a chunk lists after a record was appended to its index file. *)
Lemma listed_after_append s s1 fileId c c' r :
  chunks s !! fileId = Some c ->
  chunks s1 !! fileId = Some c' ->
  File.closed (ObjectTree.idxFile (tree c)) = false ->
  logValid c ->
  ObjectTree.idxFile (tree c')
  = File.mk false (File.content (ObjectTree.idxFile (tree c)) ++ Object.Marshal r) ->
  is_uint64 (Object.Oid r) -> is_uint32 (Object.Offset r) ->
  is_uint32 (Object.Size r) -> is_uint32 (Object.Crc r) ->
  lastOid c <= lastOid c' -> Object.Oid r <= lastOid c' ->
  (GetDelObjects s1 fileId).2
  = (GetDelObjects s fileId).2
    ++ (if Object.isTombstone r then [Object.Oid r] else []).
Proof.
  intros Hc Hc' Hopen Hlog Hidx H1 H2 H3 H4 Hle Hr.
  destruct (logValid_append c c' r Hlog Hidx H1 H2 H3 H4 Hle Hr) as [_ Hrs].
  rewrite (GetDelObjects_open s fileId c Hc Hopen).
  rewrite (GetDelObjects_open s1 fileId c' Hc') by (rewrite Hidx; reflexivity).
  rewrite Hrs. apply tombstonesUpTo_snoc; [apply Hlog|assumption|assumption].
Qed.

Lemma logsValid_setChunk s id c' :
  logsValid s -> logValid c' -> logsValid (setChunk s id c').
Proof.
  intros Hs Hc' k c Hk. destruct (decide (id = k)) as [->|Hne].
  - rewrite lookup_setChunk in Hk. inversion Hk; subst. assumption.
  - rewrite lookup_setChunk_ne in Hk by assumption. apply (Hs k). assumption.
Qed.

Lemma logsValid_same_chunks (s s' : BlobStore) :
  chunks s' = chunks s -> logsValid s -> logsValid s'.
Proof. intros E Hs k c Hk. rewrite E in Hk. apply (Hs k). assumption. Qed.

Lemma NewBlobStore_logsValid dir size : logsValid (NewBlobStore dir size).
Proof.
  intros k c Hk.
  change (chunks (NewBlobStore dir size)) with initChunkFile in Hk.
  unfold initChunkFile in Hk. rewrite lookup_foldr_insert in Hk.
  destruct (decide (k ∈ seqZ 1 TinyChunkCount)); inversion Hk.
  split; [reflexivity|]. constructor.
Qed.

Lemma WriteDeleteDentry_fails_unchanged s objectId chunkId crc s' e :
  indexValid s ->
  WriteDeleteDentry s objectId chunkId crc = (s', Some e) -> s' = s.
Proof.
  intros Hs. unfold WriteDeleteDentry.
  destruct (chunks s !! chunkId) as [c|] eqn:Hc; [|intros H; inversion H; auto].
  destruct (Hs _ _ Hc) as (Hf & Hidx & _).
  destruct (compactLock c); [intros H; inversion H; auto|].
  unfold File.Stat. rewrite Hf.
  rewrite appendToIdxFile_open by assumption. discriminate.
Qed.

Lemma MarkDelete_fails_unchanged s fileId offset size s' e :
  indexValid s ->
  MarkDelete s fileId offset size = (s', Some e) -> chunks s' = chunks s.
Proof.
  intros Hs. unfold MarkDelete.
  destruct (chunks s !! fileId) as [c|] eqn:Hc; [|intros H; inversion H; auto].
  destruct (Hs _ _ Hc) as (_ & Hidx & _).
  unfold ObjectTree.delete.
  destruct (ObjectTree.tree (tree c) !! uint64 offset) as [old|] eqn:Hold.
  - destruct (set_open (tree c) (uint64 offset) 0 Object.TombstoneFileSize 0 Hidx)
      as [t Ht].
    rewrite Ht. discriminate.
  - intros H. inversion H; subst. unfold setChunk. simpl. apply insert_id.
    rewrite Hc. f_equal. destruct c. reflexivity.
Qed.

Lemma MarkDelete_ok_inv s fileId offset size s' :
  indexValid s ->
  MarkDelete s fileId offset size = (s', None) ->
  exists c c',
    chunks s !! fileId = Some c
    /\ s' = setChunk s fileId c'
    /\ lastOid c' = lastOid c
    /\ uint64 offset <= lastOid c
    /\ ObjectTree.idxFile (tree c')
       = File.mk false
           (File.content (ObjectTree.idxFile (tree c))
            ++ Object.Marshal
                 (Object.mk (uint64 offset) 0 Object.TombstoneFileSize 0)).
Proof.
  intros Hs Hm.
  destruct (chunks s !! fileId) as [c|] eqn:Hc.
  2:{ unfold MarkDelete in Hm. rewrite Hc in Hm. discriminate. }
  destruct (Hs _ _ Hc) as (_ & Hidx & Hrec).
  destruct (ObjectTree.tree (tree c) !! uint64 offset) as [old|] eqn:Hold.
  2:{ unfold MarkDelete, ObjectTree.delete in Hm. rewrite Hc, Hold in Hm.
      discriminate. }
  destruct (MarkDelete_eval s fileId offset size c old Hc Hidx Hold)
    as (c' & Hm' & _ & Hlast & _ & Hidx').
  rewrite Hm in Hm'. inversion Hm'; subst s'.
  exists c, c'. split; [reflexivity|]. split; [reflexivity|].
  split; [assumption|]. split; [apply (Hrec _ _ Hold)|assumption].
Qed.

Lemma tombstone_fits : is_uint32 Object.TombstoneFileSize.
Proof. unfold is_uint32, Object.TombstoneFileSize. lia. Qed.

Lemma zero_fits : is_uint32 0.
Proof. unfold is_uint32. lia. Qed.

Lemma stepOp_logsValid s op s' :
  indexValid s -> logsValid s -> opTyped op ->
  stepOp s op = Some s' -> logsValid s'.
Proof.
  intros Hs Hl Hty Hstep. destruct op; simpl in Hstep, Hty.
  - destruct Hty as [Hoid Hcrc].
    destruct (Write s _ _ _ _ _) as [[s1 e]|] eqn:Hw; [|discriminate].
    inversion Hstep; subst s1; clear Hstep.
    destruct (chunks s !! wFileId w) as [c|] eqn:Hc.
    2:{ unfold Write in Hw. rewrite Hc in Hw. inversion Hw; subst. assumption. }
    destruct (Hs _ _ Hc) as (_ & Hidx & _).
    destruct (Write_changes_only_on_success _ _ _ _ _ _ _ _ _ Hc Hidx Hw)
      as [-> | ->]; [assumption|].
    destruct (Write_ok_inv _ _ _ _ _ _ _ Hw)
      as (c0 & c' & Hc0 & -> & _ & Hle & _ & _ & _ & Hidx' & _ & Hlast & _).
    rewrite Hc in Hc0. inversion Hc0; subst c0; clear Hc0.
    apply logsValid_setChunk; [assumption|].
    apply (logValid_append c c' _ (Hl _ _ Hc) Hidx'); cbn;
      try assumption; try apply uint32_range; lia.
  - destruct Hty as [Hoid Hcrc]. inversion Hstep; subst s'; clear Hstep.
    destruct (WriteDeleteDentry s objectId chunkId crc) as [s1 [e|]] eqn:Hw.
    { rewrite (WriteDeleteDentry_fails_unchanged _ _ _ _ _ _ Hs Hw). assumption. }
    destruct (WriteDeleteDentry_ok_inv _ _ _ _ _ Hw)
      as (c & c' & Hc & -> & _ & _ & _ & Hidx' & _ & _ & _ & Hlast & _).
    apply logsValid_setChunk; [assumption|].
    apply (logValid_append c c' _ (Hl _ _ Hc) Hidx'); cbn;
      try assumption; try apply uint32_range; try apply tombstone_fits; lia.
  - inversion Hstep; subst s'; clear Hstep.
    destruct (MarkDelete s fileId offset size) as [s1 [e|]] eqn:Hm.
    { apply (logsValid_same_chunks s); [|assumption].
      apply (MarkDelete_fails_unchanged _ _ _ _ _ _ Hs Hm). }
    destruct (MarkDelete_ok_inv _ _ _ _ _ Hs Hm)
      as (c & c' & Hc & -> & Hlast & Hle & Hidx').
    apply logsValid_setChunk; [assumption|].
    apply (logValid_append c c' _ (Hl _ _ Hc) Hidx'); cbn;
      try apply uint64_range; try apply zero_fits; try apply tombstone_fits; lia.
  - inversion Hstep; subst s'; clear Hstep.
    destruct (GetDelObjects_inv s fileId) as [-> | (c & Hc & ->)]; [assumption|].
    apply logsValid_setChunk; [assumption|]. apply (Hl _ _ Hc).
  - inversion Hstep.
    apply (logsValid_same_chunks s); [apply GetAvailChunk_chunks|assumption].
  - inversion Hstep.
    apply (logsValid_same_chunks s); [apply GetChunkForWrite_chunks|assumption].
  - apply (logsValid_same_chunks s);
      [eapply PutAvailChunk_chunks; eassumption|assumption].
  - inversion Hstep.
    apply (logsValid_same_chunks s); [apply GetUnAvailChunk_chunks|assumption].
  - apply (logsValid_same_chunks s);
      [eapply PutUnAvailChunk_chunks; eassumption|assumption].
  - apply (logsValid_same_chunks s);
      [eapply MoveChunkToUnavailChan_chunks; eassumption|assumption].
Qed.

Lemma runOps_logsValid ops s s' :
  indexValid s -> logsValid s -> Forall opTyped ops ->
  runOps s ops = Some s' -> logsValid s'.
Proof.
  revert s. induction ops as [|op ops IH]; intros s Hs Hl Hty Hrun; simpl in Hrun.
  - inversion Hrun; subst. assumption.
  - inversion Hty; subst.
    destruct (stepOp s op) as [s1|] eqn:Hstep; [|discriminate].
    apply (IH s1); try assumption.
    + eapply stepOp_valid; eassumption.
    + eapply stepOp_logsValid; eassumption.
Qed.

Lemma MarkDelete_live s fileId offset sz o :
  indexValid s ->
  GetObject s fileId (uint64 offset) = (Some o, None) ->
  exists c c',
    chunks s !! fileId = Some c
    /\ MarkDelete s fileId offset sz = (setChunk s fileId c', None)
    /\ lastOid c' = lastOid c
    /\ uint64 offset <= lastOid c
    /\ ObjectTree.idxFile (tree c')
       = File.mk false
           (File.content (ObjectTree.idxFile (tree c))
            ++ Object.Marshal
                 (Object.mk (uint64 offset) 0 Object.TombstoneFileSize 0)).
Proof.
  intros Hs Hg. unfold GetObject in Hg.
  destruct (chunks s !! fileId) as [c|] eqn:Hc; [|discriminate].
  destruct (Hs _ _ Hc) as (_ & Hidx & Hrec).
  unfold ObjectTree.get in Hg.
  destruct (ObjectTree.tree (tree c) !! uint64 offset) as [old|] eqn:Hold;
    [|discriminate].
  destruct (MarkDelete_eval s fileId offset sz c old Hc Hidx Hold)
    as (c' & Hm & _ & Hlast & _ & Hidx').
  exists c, c'. split; [reflexivity|]. split; [assumption|].
  split; [assumption|]. split; [apply (Hrec _ _ Hold)|assumption].
Qed.

(** X20: the list of [GetDelObjects] is the log of the deletes of a chunk.
    Take a store that a run of [Write], [WriteDeleteDentry], [MarkDelete],
    [GetDelObjects] and queue calls with arguments of their types has made of
    a new store, no [MarkDelete] of the run having met an entry that was a
    tombstone already. On it a [MarkDelete] of an object that [GetObject]
    finds succeeds and adds the id of the object to the end of what
    [GetDelObjects] returns for the chunk; a [WriteDeleteDentry] that
    succeeds adds its object id in the same way; a [Write] that succeeds adds
    its object id when its size, cut to 32 bits, is the tombstone sentinel
    and adds nothing otherwise; a call of the three that fails adds nothing;
    and the list of a new store is empty. *)
Theorem deletes_are_listed dir size ops s fileId :
  Forall opTyped ops ->
  noRepeatedDelete (NewBlobStore dir size) ops = true ->
  runOps (NewBlobStore dir size) ops = Some s ->
  (forall offset sz o,
     GetObject s fileId (uint64 offset) = (Some o, None) ->
     exists s1,
       MarkDelete s fileId offset sz = (s1, None)
       /\ (GetDelObjects s1 fileId).2
          = (GetDelObjects s fileId).2 ++ [uint64 offset])
  /\ (forall offset sz s1 e,
        MarkDelete s fileId offset sz = (s1, Some e) ->
        (GetDelObjects s1 fileId).2 = (GetDelObjects s fileId).2)
  /\ (forall objectId crc s1 e,
        is_uint64 objectId -> is_uint32 crc ->
        WriteDeleteDentry s objectId fileId crc = (s1, e) ->
        (GetDelObjects s1 fileId).2
        = (GetDelObjects s fileId).2
          ++ (if e is None then [objectId] else []))
  /\ (forall objectId sz data crc s1 e,
        is_uint64 objectId -> is_uint32 crc ->
        Write s fileId objectId sz data crc = Ret (s1, e) ->
        (GetDelObjects s1 fileId).2
        = (GetDelObjects s fileId).2
          ++ (if e is None
              then if uint32 sz =? Object.TombstoneFileSize then [objectId] else []
              else []))
  /\ (GetDelObjects (NewBlobStore dir size) fileId).2 = [].
Proof.
  intros Hty _ Hrun.
  pose proof (runOps_valid _ _ _ (NewBlobStore_valid dir size) Hrun) as Hs.
  pose proof (runOps_logsValid _ _ _ (NewBlobStore_valid dir size)
                (NewBlobStore_logsValid dir size) Hty Hrun) as Hl.
  split; [|split; [|split; [|split]]].
  - intros offset sz o Hg.
    destruct (MarkDelete_live s fileId offset sz o Hs Hg)
      as (c & c' & Hc & Hm & Hlast & Hle & Hidx').
    exists (setChunk s fileId c'). split; [assumption|].
    destruct (Hs _ _ Hc) as (_ & Hidx & _).
    rewrite (listed_after_append s (setChunk s fileId c') fileId c c' _ Hc
               (lookup_setChunk _ _ _) Hidx (Hl _ _ Hc) Hidx'); cbn;
      try reflexivity;
      try apply uint64_range; try apply zero_fits; try apply tombstone_fits; lia.
  - intros offset sz s1 e Hm. apply GetDelObjects_same_chunks.
    apply (MarkDelete_fails_unchanged _ _ _ _ _ _ Hs Hm).
  - intros objectId crc s1 [e|] Hoid Hcrc Hw.
    + rewrite app_nil_r.
      rewrite (WriteDeleteDentry_fails_unchanged _ _ _ _ _ _ Hs Hw). reflexivity.
    + destruct (WriteDeleteDentry_ok_inv _ _ _ _ _ Hw)
        as (c & c' & Hc & -> & _ & _ & _ & Hidx' & _ & _ & _ & Hlast & _).
      destruct (Hs _ _ Hc) as (_ & Hidx & _).
      rewrite (listed_after_append s (setChunk s fileId c') fileId c c' _ Hc
                 (lookup_setChunk _ _ _) Hidx (Hl _ _ Hc) Hidx'); cbn;
        try reflexivity; try assumption;
        try apply uint32_range; try apply tombstone_fits; lia.
  - intros objectId sz data crc s1 e Hoid Hcrc Hw.
    destruct (chunks s !! fileId) as [c|] eqn:Hc.
    2:{ unfold Write in Hw. rewrite Hc in Hw. inversion Hw; subst.
        rewrite app_nil_r. reflexivity. }
    destruct (Hs _ _ Hc) as (_ & Hidx & _).
    destruct (Write_changes_only_on_success _ _ _ _ _ _ _ _ _ Hc Hidx Hw)
      as [-> | ->].
    + destruct e as [e|]; [rewrite app_nil_r; reflexivity|].
      destruct (Write_ok_inv _ _ _ _ _ _ _ Hw)
        as (c0 & c' & Hc0 & Heq & _ & Hle & _ & _ & _ & Hidx' & _ & Hlast & _).
      rewrite Hc in Hc0. inversion Hc0; subst c0; clear Hc0.
      rewrite Heq at 1.
      rewrite (listed_after_append s (setChunk s fileId c') fileId c c' _ Hc
                 (lookup_setChunk _ _ _) Hidx (Hl _ _ Hc) Hidx'); cbn;
        try reflexivity; try assumption; try apply uint32_range; lia.
    + destruct (Write_ok_inv _ _ _ _ _ _ _ Hw)
        as (c0 & c' & Hc0 & -> & _ & Hle & _ & _ & _ & Hidx' & _ & Hlast & _).
      rewrite Hc in Hc0. inversion Hc0; subst c0; clear Hc0.
      rewrite (listed_after_append s (setChunk s fileId c') fileId c c' _ Hc
                 (lookup_setChunk _ _ _) Hidx (Hl _ _ Hc) Hidx'); cbn;
        try reflexivity; try assumption; try apply uint32_range; lia.
  - unfold GetDelObjects.
    change (chunks (NewBlobStore dir size)) with initChunkFile.
    unfold initChunkFile. rewrite lookup_foldr_insert.
    destruct (decide (fileId ∈ seqZ 1 TinyChunkCount)); reflexivity.
Qed.

Lemma deletes_are_listed_witness :
  (forall offset sz o,
     GetObject storeDemo 1 (uint64 offset) = (Some o, None) ->
     exists s1,
       MarkDelete storeDemo 1 offset sz = (s1, None)
       /\ (GetDelObjects s1 1).2
          = (GetDelObjects storeDemo 1).2 ++ [uint64 offset])
  /\ (forall offset sz s1 e,
        MarkDelete storeDemo 1 offset sz = (s1, Some e) ->
        (GetDelObjects s1 1).2 = (GetDelObjects storeDemo 1).2)
  /\ (forall objectId crc s1 e,
        is_uint64 objectId -> is_uint32 crc ->
        WriteDeleteDentry storeDemo objectId 1 crc = (s1, e) ->
        (GetDelObjects s1 1).2
        = (GetDelObjects storeDemo 1).2
          ++ (if e is None then [objectId] else []))
  /\ (forall objectId sz data crc s1 e,
        is_uint64 objectId -> is_uint32 crc ->
        Write storeDemo 1 objectId sz data crc = Ret (s1, e) ->
        (GetDelObjects s1 1).2
        = (GetDelObjects storeDemo 1).2
          ++ (if e is None
              then if uint32 sz =? Object.TombstoneFileSize then [objectId] else []
              else []))
  /\ (GetDelObjects (NewBlobStore "/data" 104857600) 1).2 = [].
Proof.
  assert (H1 : Forall opTyped opsDemo).
  { repeat constructor; cbn; unfold is_uint64, is_uint32, crcHello, crcA; lia. }
  assert (H2 : noRepeatedDelete (NewBlobStore "/data" 104857600) opsDemo = true)
    by (vm_compute; reflexivity).
  assert (H3 : runOps (NewBlobStore "/data" 104857600) opsDemo = Some storeDemo)
    by (vm_compute; reflexivity).
  exact (deletes_are_listed "/data" 104857600 opsDemo storeDemo 1 H1 H2 H3).
Defined.

(** * Chunks and objects in a run *)

(** ** One chunk does not see the calls on another *)

Lemma stepOp_other_chunk s op s' k :
  stepOp s op = Some s' -> opChunk op <> Some k ->
  chunks s' !! k = chunks s !! k.
Proof.
  intros Hstep Hk. destruct op; simpl in Hstep, Hk.
  - destruct (Write s _ _ _ _ _) as [[s1 e]|] eqn:Hw; [|discriminate].
    inversion Hstep; subst s1.
    destruct (Write_inv _ _ _ _ _ _ _ _ Hw)
      as [-> | (c0 & c0' & extra & _ & -> & _)]; [reflexivity|].
    apply lookup_setChunk_ne. congruence.
  - inversion Hstep; subst s'.
    destruct (WriteDeleteDentry s objectId chunkId crc) as [s1 e] eqn:Hw.
    destruct (WriteDeleteDentry_inv _ _ _ _ _ _ Hw)
      as [-> | (c0 & c0' & _ & -> & _)]; [reflexivity|].
    apply lookup_setChunk_ne. congruence.
  - inversion Hstep; subst s'.
    destruct (MarkDelete s fileId offset size) as [s1 e] eqn:Hm.
    destruct (MarkDelete_inv _ _ _ _ _ _ Hm)
      as [-> | (c0 & c0' & _ & -> & _)]; [reflexivity|].
    apply lookup_setChunk_ne. congruence.
  - inversion Hstep; subst s'.
    destruct (GetDelObjects_inv s fileId) as [-> | (c0 & _ & ->)]; [reflexivity|].
    apply lookup_setChunk_ne. congruence.
  - inversion Hstep. rewrite GetAvailChunk_chunks. reflexivity.
  - inversion Hstep. rewrite GetChunkForWrite_chunks. reflexivity.
  - rewrite (PutAvailChunk_chunks _ _ _ Hstep). reflexivity.
  - inversion Hstep. rewrite GetUnAvailChunk_chunks. reflexivity.
  - rewrite (PutUnAvailChunk_chunks _ _ _ Hstep). reflexivity.
  - rewrite (MoveChunkToUnavailChan_chunks _ _ Hstep). reflexivity.
Qed.

Lemma runOps_other_chunk ops s s' k :
  runOps s ops = Some s' -> Forall (fun op => opChunk op <> Some k) ops ->
  chunks s' !! k = chunks s !! k.
Proof.
  revert s. induction ops as [|op ops IH]; intros s Hrun Hall; simpl in Hrun.
  - inversion Hrun. reflexivity.
  - inversion Hall; subst.
    destruct (stepOp s op) as [s1|] eqn:Hstep; [|discriminate].
    rewrite (IH s1) by assumption. eapply stepOp_other_chunk; eassumption.
Qed.

(** X21: a chunk does not see the calls made on other chunks. After any run
    of [Write], [WriteDeleteDentry], [MarkDelete] and [GetDelObjects] calls
    on chunks other than [k] and of calls on the queues ([GetAvailChunk],
    [GetChunkForWrite], [PutAvailChunk], [GetUnAvailChunk],
    [PutUnAvailChunk], [MoveChunkToUnavailChan]), the chunk is what it was,
    and [Read], [GetLastOid], [GetObject], [AllocObjectId] and the list of
    [GetDelObjects] for it are what they were before the run. ([CloseAll]
    and [DeleteStore], which touch every chunk, and the compaction are not
    calls of such a run.) *)
Theorem chunks_are_isolated ops s s' k :
  runOps s ops = Some s' ->
  Forall (fun op => opChunk op <> Some k) ops ->
  chunks s' !! k = chunks s !! k
  /\ (forall offset size nbuf,
        Read s' k offset size nbuf = Read s k offset size nbuf)
  /\ GetLastOid s' k = GetLastOid s k
  /\ AllocObjectId s' k = AllocObjectId s k
  /\ (forall objectId, GetObject s' k objectId = GetObject s k objectId)
  /\ (GetDelObjects s' k).2 = (GetDelObjects s k).2.
Proof.
  intros Hrun Hall.
  pose proof (runOps_other_chunk _ _ _ _ Hrun Hall) as E.
  split; [assumption|].
  split; [intros; unfold Read; rewrite E; reflexivity|].
  split; [unfold GetLastOid; rewrite E; reflexivity|].
  split; [unfold AllocObjectId; rewrite E; reflexivity|].
  split; [intros; unfold GetObject; rewrite E; reflexivity|].
  unfold GetDelObjects. rewrite E.
  destruct (chunks s !! k) as [c|]; [|reflexivity].
  destruct (WalkIndexFile _ _ _) as [objects e]. reflexivity.
Qed.

Lemma chunks_are_isolated_witness :
  chunks storeDemo !! 2 = chunks store0 !! 2
  /\ (forall offset size nbuf,
        Read storeDemo 2 offset size nbuf = Read store0 2 offset size nbuf)
  /\ GetLastOid storeDemo 2 = GetLastOid store0 2
  /\ AllocObjectId storeDemo 2 = AllocObjectId store0 2
  /\ (forall objectId, GetObject storeDemo 2 objectId = GetObject store0 2 objectId)
  /\ (GetDelObjects storeDemo 2).2 = (GetDelObjects store0 2).2.
Proof.
  assert (H1 : runOps store0 opsDemo = Some storeDemo) by (vm_compute; reflexivity).
  assert (H2 : Forall (fun op => opChunk op <> Some 2) opsDemo)
    by (repeat constructor; cbn; discriminate).
  exact (chunks_are_isolated opsDemo store0 storeDemo 2 H1 H2).
Defined.

(** ** The files of a chunk only grow *)

Lemma grows_refl c : grows c c.
Proof. exists [], []. rewrite !app_nil_r. auto. Qed.

Lemma grows_trans c1 c2 c3 : grows c1 c2 -> grows c2 c3 -> grows c1 c3.
Proof.
  intros (d1 & i1 & Hd1 & Hi1) (d2 & i2 & Hd2 & Hi2).
  exists (d1 ++ d2), (i1 ++ i2). rewrite Hd2, Hd1, Hi2, Hi1, !app_assoc. auto.
Qed.

Lemma grows_setChunk s f c c' k c0 :
  chunks s !! f = Some c -> grows c c' ->
  chunks s !! k = Some c0 ->
  exists c0', chunks (setChunk s f c') !! k = Some c0' /\ grows c0 c0'.
Proof.
  intros Hc Hg Hk. destruct (decide (f = k)) as [->|Hne].
  - rewrite Hc in Hk. inversion Hk; subst c0.
    exists c'. split; [apply lookup_setChunk|assumption].
  - exists c0. split; [rewrite lookup_setChunk_ne by assumption; assumption|].
    apply grows_refl.
Qed.

Lemma grows_same_chunks (s s' : BlobStore) k c0 :
  chunks s' = chunks s -> chunks s !! k = Some c0 ->
  exists c0', chunks s' !! k = Some c0' /\ grows c0 c0'.
Proof. intros -> Hk. exists c0. split; [assumption|apply grows_refl]. Qed.

Lemma appendToIdxFile_grows t obj :
  exists i,
    File.content (ObjectTree.idxFile (ObjectTree.appendToIdxFile t obj).1)
    = File.content (ObjectTree.idxFile t) ++ i.
Proof.
  unfold ObjectTree.appendToIdxFile, File.Write.
  destruct (File.closed (ObjectTree.idxFile t)); simpl.
  - exists []. rewrite app_nil_r. reflexivity.
  - eexists. reflexivity.
Qed.

Lemma Write_grows s fileId objectId size data crc s' e :
  Write s fileId objectId size data crc = Ret (s', e) ->
  s' = s
  \/ exists c c', chunks s !! fileId = Some c
                  /\ s' = setChunk s fileId c' /\ grows c c'.
Proof.
  unfold Write. intros H.
  destruct (chunks s !! fileId) as [c|] eqn:Hc; [|inversion H; auto].
  destruct (compactLock c); [inversion H; auto|].
  destruct (objectId <? loadLastOid c); [inversion H; auto|].
  unfold File.Stat in H.
  destruct (File.closed (file c)) eqn:Hf; [inversion H; auto|].
  destruct (slice data 0 size) as [d|]; [|discriminate].
  rewrite WriteAt_eof in H by assumption.
  right. exists c.
  set (c1 := setFile c (File.mk false (File.content (file c) ++ d))) in *.
  destruct (appendToIdxFile_grows
              (ObjectTree.mk (ObjectTree.idxFile (tree c1))
                 (<[objectId := Object.mk objectId
                                  (uint32 (len (File.content (file c))))
                                  (uint32 size) crc]> (ObjectTree.tree (tree c1)))
                 (if Object.isTombstone
                       (Object.mk objectId (uint32 (len (File.content (file c))))
                                  (uint32 size) crc)
                  then ObjectTree.fileBytes (tree c1)
                  else uint64 (ObjectTree.fileBytes (tree c1) + uint32 size))
                 (uint64 (ObjectTree.deleteBytes (tree c1)
                          + match ObjectTree.tree (tree c1) !! objectId with
                            | Some old => if Object.isTombstone old then 0
                                          else Object.Size old
                            | None => 0
                            end)))
              (Object.mk objectId (uint32 (len (File.content (file c))))
                         (uint32 size) crc)) as [i Hi].
  unfold ObjectTree.set in H.
  destruct (ObjectTree.appendToIdxFile _ _) as [t err] eqn:Ha.
  simpl in Hi.
  destruct err as [e'|]; inversion H; subst; clear H;
    eexists; (split; [reflexivity|]); (split; [reflexivity|]);
    exists d, i.
  - split; [reflexivity|assumption].
  - unfold loadLastOid, storeLastOid. simpl.
    destruct (_ <? _); simpl; split; [reflexivity|assumption|reflexivity|assumption].
Qed.

Lemma WriteDeleteDentry_grows s objectId chunkId crc s' e :
  WriteDeleteDentry s objectId chunkId crc = (s', e) ->
  s' = s
  \/ exists c c', chunks s !! chunkId = Some c
                  /\ s' = setChunk s chunkId c' /\ grows c c'.
Proof.
  unfold WriteDeleteDentry. intros H.
  destruct (chunks s !! chunkId) as [c|] eqn:Hc; [|inversion H; auto].
  destruct (compactLock c); [inversion H; auto|].
  unfold File.Stat in H.
  destruct (File.closed (file c)) eqn:Hf; [inversion H; auto|].
  right. exists c.
  destruct (appendToIdxFile_grows (tree c)
              (Object.mk objectId (uint32 (len (File.content (file c))))
                         Object.TombstoneFileSize crc)) as [i Hi].
  destruct (ObjectTree.appendToIdxFile _ _) as [t err] eqn:Ha.
  simpl in Hi.
  destruct err as [e'|]; inversion H; subst; clear H;
    eexists; (split; [reflexivity|]); (split; [reflexivity|]);
    exists [], i; rewrite app_nil_r.
  - split; [reflexivity|assumption].
  - unfold loadLastOid, storeLastOid. simpl.
    destruct (_ <? _); simpl; split; [reflexivity|assumption|reflexivity|assumption].
Qed.

Lemma MarkDelete_grows s fileId offset size s' e :
  MarkDelete s fileId offset size = (s', e) ->
  s' = s
  \/ exists c c', chunks s !! fileId = Some c
                  /\ s' = setChunk s fileId c' /\ grows c c'.
Proof.
  unfold MarkDelete. intros H.
  destruct (chunks s !! fileId) as [c|] eqn:Hc; [|inversion H; auto].
  right. exists c. unfold ObjectTree.delete in H.
  destruct (ObjectTree.tree (tree c) !! uint64 offset) as [old|].
  - unfold ObjectTree.set in H.
    match type of H with
    | context [ObjectTree.appendToIdxFile ?t ?o] =>
        destruct (appendToIdxFile_grows t o) as [i Hi];
        destruct (ObjectTree.appendToIdxFile t o) as [t' err]
    end.
    simpl in Hi. inversion H; subst; clear H.
    eexists. split; [reflexivity|]. split; [reflexivity|].
    exists [], i. rewrite app_nil_r. split; [reflexivity|assumption].
  - inversion H; subst; clear H.
    eexists. split; [reflexivity|]. split; [reflexivity|].
    exists [], []. rewrite !app_nil_r. split; reflexivity.
Qed.

Lemma stepOp_grows s op s' k c0 :
  stepOp s op = Some s' -> chunks s !! k = Some c0 ->
  exists c0', chunks s' !! k = Some c0' /\ grows c0 c0'.
Proof.
  intros Hstep Hk. destruct op; simpl in Hstep.
  - destruct (Write s _ _ _ _ _) as [[s1 e]|] eqn:Hw; [|discriminate].
    inversion Hstep; subst s1.
    destruct (Write_grows _ _ _ _ _ _ _ _ Hw) as [-> | (c & c' & Hc & -> & Hg)].
    + exists c0. split; [assumption|apply grows_refl].
    + apply (grows_setChunk _ _ c); assumption.
  - inversion Hstep; subst s'.
    destruct (WriteDeleteDentry s objectId chunkId crc) as [s1 e] eqn:Hw.
    destruct (WriteDeleteDentry_grows _ _ _ _ _ _ Hw)
      as [-> | (c & c' & Hc & -> & Hg)].
    + exists c0. split; [assumption|apply grows_refl].
    + apply (grows_setChunk _ _ c); assumption.
  - inversion Hstep; subst s'.
    destruct (MarkDelete s fileId offset size) as [s1 e] eqn:Hm.
    destruct (MarkDelete_grows _ _ _ _ _ _ Hm) as [-> | (c & c' & Hc & -> & Hg)].
    + exists c0. split; [assumption|apply grows_refl].
    + apply (grows_setChunk _ _ c); assumption.
  - inversion Hstep; subst s'.
    destruct (GetDelObjects_inv s fileId) as [-> | (c & Hc & ->)].
    + exists c0. split; [assumption|apply grows_refl].
    + apply (grows_setChunk _ _ c); [assumption| |assumption].
      exists [], []. rewrite !app_nil_r. split; reflexivity.
  - inversion Hstep. apply (grows_same_chunks s); [apply GetAvailChunk_chunks|assumption].
  - inversion Hstep.
    apply (grows_same_chunks s); [apply GetChunkForWrite_chunks|assumption].
  - apply (grows_same_chunks s); [eapply PutAvailChunk_chunks; eassumption|assumption].
  - inversion Hstep.
    apply (grows_same_chunks s); [apply GetUnAvailChunk_chunks|assumption].
  - apply (grows_same_chunks s); [eapply PutUnAvailChunk_chunks; eassumption|assumption].
  - apply (grows_same_chunks s);
      [eapply MoveChunkToUnavailChan_chunks; eassumption|assumption].
Qed.

(** X22: [Write], [WriteDeleteDentry], [MarkDelete], [GetDelObjects] and
    the calls on the queues only ever append to the files of a chunk.
    Whatever a run of these calls does and whatever they return, a chunk of
    the store is still there afterwards, and its data file and its index file
    are the files it had with bytes added at the end: none of these calls
    changes or removes a byte once written. ([DeleteStore], which removes the
    chunks, and the compaction, which rewrites both files, are not calls of
    such a run.) *)
Theorem files_only_grow ops s s' k c :
  runOps s ops = Some s' ->
  chunks s !! k = Some c ->
  exists c' d i,
    chunks s' !! k = Some c'
    /\ File.content (file c') = File.content (file c) ++ d
    /\ File.content (ObjectTree.idxFile (tree c'))
       = File.content (ObjectTree.idxFile (tree c)) ++ i.
Proof.
  intros Hrun Hc.
  assert (H : exists c', chunks s' !! k = Some c' /\ grows c c').
  { revert s c Hrun Hc. induction ops as [|op ops IH]; intros s c Hrun Hc;
      simpl in Hrun.
    - inversion Hrun; subst. exists c. split; [assumption|apply grows_refl].
    - destruct (stepOp s op) as [s1|] eqn:Hstep; [|discriminate].
      destruct (stepOp_grows _ _ _ _ _ Hstep Hc) as (c1 & Hc1 & Hg1).
      destruct (IH s1 c1 Hrun Hc1) as (c' & Hc' & Hg').
      exists c'. split; [assumption|]. eapply grows_trans; eassumption. }
  destruct H as (c' & Hc' & d & i & Hd & Hi). exists c', d, i. auto.
Qed.

Lemma files_only_grow_witness :
  exists c' d i,
    chunks storeDemo !! 1 = Some c'
    /\ File.content (file c') = File.content (file (chunkOf store0 1)) ++ d
    /\ File.content (ObjectTree.idxFile (tree c'))
       = File.content (ObjectTree.idxFile (tree (chunkOf store0 1))) ++ i.
Proof.
  assert (H1 : runOps store0 opsDemo = Some storeDemo) by (vm_compute; reflexivity).
  assert (H2 : chunks store0 !! 1 = Some (chunkOf store0 1))
    by (vm_compute; reflexivity).
  exact (files_only_grow opsDemo store0 storeDemo 1 (chunkOf store0 1) H1 H2).
Defined.

(** ** An object stays readable *)

Lemma Readable_same_chunk s s' fileId oid size payload crc :
  chunks s' !! fileId = chunks s !! fileId ->
  Readable s fileId oid size payload crc ->
  Readable s' fileId oid size payload crc.
Proof.
  intros E (c & o & Hc & H). exists c, o. rewrite E. auto.
Qed.

Lemma Readable_setChunk s f c c' fileId oid size payload crc :
  chunks s !! f = Some c ->
  file c' = file c ->
  lastOid c <= lastOid c' ->
  (f = fileId -> ObjectTree.tree (tree c') !! oid = ObjectTree.tree (tree c) !! oid) ->
  Readable s fileId oid size payload crc ->
  Readable (setChunk s f c') fileId oid size payload crc.
Proof.
  intros Hc Hfile Hlast Htree
         (c0 & o & Hc0 & Hf & Hoid & Ht & Htomb & Hsz & Hcrc & Hsz0 & Hoff & Hi64 & Hin & Hpay).
  destruct (decide (f = fileId)) as [Heq|Hne].
  - subst f. rewrite Hc in Hc0. inversion Hc0; subst c0; clear Hc0.
    exists c', o. split; [apply lookup_setChunk|].
    rewrite Hfile, (Htree eq_refl).
    split; [assumption|]. split; [lia|].
    repeat (split; [assumption|]). assumption.
  - exists c0, o. split; [rewrite lookup_setChunk_ne by assumption; assumption|].
    repeat (split; [assumption|]). assumption.
Qed.

Lemma Readable_stepOp s op s' fileId oid size payload crc :
  Readable s fileId oid size payload crc ->
  ~ sameObject fileId oid op ->
  stepOp s op = Some s' ->
  Readable s' fileId oid size payload crc.
Proof.
  intros Hr Hnot Hstep.
  destruct op as [w|objectId chunkId opCrc|opFile offset opSize|opFile| | |cid| |cid|];
    simpl in Hstep, Hnot.
  - destruct (Write s _ _ _ _ _) as [[s1 e]|] eqn:Hw; [|discriminate].
    inversion Hstep; subst s1.
    apply (Readable_Write_other s _ _ _ _ _ w s' e); [assumption| |assumption].
    unfold otherObject.
    destruct (decide (wFileId w = fileId)); [|auto].
    destruct (decide (wOid w = oid)); [|auto]. exfalso. auto.
  - inversion Hstep; subst s'.
    destruct (WriteDeleteDentry s objectId chunkId opCrc) as [s1 e] eqn:Hw.
    destruct (WriteDeleteDentry_inv _ _ _ _ _ _ Hw)
      as [-> | (c & c' & Hc & -> & Hfile & Htree & _ & Hle & _)];
      [simpl; assumption|].
    simpl. apply (Readable_setChunk _ _ c); try assumption.
    intros _. rewrite Htree. reflexivity.
  - inversion Hstep; subst s'.
    destruct (MarkDelete s opFile offset opSize) as [s1 e] eqn:Hm.
    destruct (MarkDelete_inv _ _ _ _ _ _ Hm)
      as [-> | (c & c' & Hc & -> & Hfile & Hlast & _ & _ & Htree)];
      [simpl; assumption|].
    simpl. apply (Readable_setChunk _ _ c); try assumption; [lia|].
    intros Heq. destruct Htree as [-> | (_ & ->)]; [reflexivity|].
    apply lookup_insert_ne. intros E. apply Hnot. auto.
  - inversion Hstep; subst s'.
    destruct (GetDelObjects_inv s opFile) as [-> | (c & Hc & ->)]; [assumption|].
    apply (Readable_setChunk _ _ c); try assumption; [reflexivity|simpl; lia|].
    reflexivity.
  - inversion Hstep. apply (Readable_same_chunk s); [|assumption].
    rewrite GetAvailChunk_chunks. reflexivity.
  - inversion Hstep. apply (Readable_same_chunk s); [|assumption].
    rewrite GetChunkForWrite_chunks. reflexivity.
  - apply (Readable_same_chunk s); [|assumption].
    rewrite (PutAvailChunk_chunks _ _ _ Hstep). reflexivity.
  - inversion Hstep. apply (Readable_same_chunk s); [|assumption].
    rewrite GetUnAvailChunk_chunks. reflexivity.
  - apply (Readable_same_chunk s); [|assumption].
    rewrite (PutUnAvailChunk_chunks _ _ _ Hstep). reflexivity.
  - apply (Readable_same_chunk s); [|assumption].
    rewrite (MoveChunkToUnavailChan_chunks _ _ Hstep). reflexivity.
Qed.

Lemma Readable_runOps ops s s' fileId oid size payload crc :
  Readable s fileId oid size payload crc ->
  Forall (fun op => ~ sameObject fileId oid op) ops ->
  runOps s ops = Some s' ->
  Readable s' fileId oid size payload crc.
Proof.
  revert s. induction ops as [|op ops IH]; intros s Hr Hall Hrun; simpl in Hrun.
  - inversion Hrun; subst. assumption.
  - inversion Hall; subst.
    destruct (stepOp s op) as [s1|] eqn:Hstep; [|discriminate].
    apply (IH s1); [|assumption|assumption].
    eapply Readable_stepOp; eassumption.
Qed.

(** X24: what was written stays readable until the same object is written
    or mark-deleted again. If a [Write] of a size below the tombstone
    sentinel succeeds on a chunk whose data file is shorter than 4 GiB, then
    after any run of calls that contains no [Write] and no [MarkDelete] of
    that object of that chunk (it may write and delete other objects, enter
    tombstones with [WriteDeleteDentry], this object's included, list the
    deleted objects and move chunk ids between the queues), a [Read] of the
    object with a buffer of at least its size succeeds and returns the crc
    and the bytes that were written. *)
Theorem written_object_survives s fileId oid size data crc c s1 ops s2 nbuf :
  chunks s !! fileId = Some c ->
  len (File.content (file c)) < 2 ^ 32 ->
  size < Object.TombstoneFileSize ->
  is_uint64 oid ->
  Write s fileId oid size data crc = Ret (s1, None) ->
  Forall (fun op => ~ sameObject fileId oid op) ops ->
  runOps s1 ops = Some s2 ->
  size <= len nbuf ->
  Read s2 fileId (int64 oid) size nbuf
  = Ret (crc, None, fill nbuf (take (Z.to_nat size) data)).
Proof.
  intros Hc Hlen Hsz Hoid Hw Hall Hrun Hbuf.
  pose proof (Write_Readable _ _ _ _ _ _ _ c Hc Hw Hlen Hsz) as Hr.
  pose proof (Readable_runOps _ _ _ _ _ _ _ _ Hr Hall Hrun) as Hr2.
  apply Readable_Read; [assumption|assumption|].
  destruct (Write_ok_inv _ _ _ _ _ _ _ Hw) as (_ & _ & _ & _ & _ & _ & _ & Hs & _).
  lia.
Qed.


Lemma written_object_survives_witness :
  Read storeOther 1 (int64 1) 5 hello
  = Ret (crcHello, None, fill hello (take (Z.to_nat 5) hello)).
Proof.
  assert (H1 : chunks store0 !! 1 = Some (chunkOf store0 1))
    by (vm_compute; reflexivity).
  assert (H2 : len (File.content (file (chunkOf store0 1))) < 2 ^ 32)
    by (vm_compute; reflexivity).
  assert (H3 : 5 < Object.TombstoneFileSize) by (vm_compute; reflexivity).
  assert (H4 : is_uint64 1) by (unfold is_uint64; lia).
  assert (H5 : Write store0 1 1 5 hello crcHello = Ret (storeHello, None))
    by (vm_compute; reflexivity).
  assert (H6 : Forall (fun op => ~ sameObject 1 1 op) opsOther).
  { repeat constructor; cbn; try tauto. intros [_ H]. discriminate H. }
  assert (H7 : runOps storeHello opsOther = Some storeOther)
    by (vm_compute; reflexivity).
  assert (H8 : 5 <= len hello) by (vm_compute; discriminate).
  exact (written_object_survives store0 1 1 5 hello crcHello (chunkOf store0 1)
           storeHello opsOther storeOther hello H1 H2 H3 H4 H5 H6 H7 H8).
Defined.

(** ** Live objects do not overlap *)

Lemma storeDisjoint_setChunk s f c' :
  storeDisjoint s -> liveDisjoint c' -> storeDisjoint (setChunk s f c').
Proof.
  intros Hs Hc' k c Hk. destruct (decide (f = k)) as [->|Hne].
  - rewrite lookup_setChunk in Hk. inversion Hk; subst. assumption.
  - rewrite lookup_setChunk_ne in Hk by assumption. apply (Hs k). assumption.
Qed.

Lemma storeDisjoint_same_chunks (s s' : BlobStore) :
  chunks s' = chunks s -> storeDisjoint s -> storeDisjoint s'.
Proof. intros E Hs k c Hk. rewrite E in Hk. apply (Hs k). assumption. Qed.

Lemma liveDisjoint_same c c' :
  file c' = file c -> ObjectTree.tree (tree c') = ObjectTree.tree (tree c) ->
  liveDisjoint c -> liveDisjoint c'.
Proof.
  intros Hf Ht Hd. unfold liveDisjoint. rewrite Hf, Ht. exact Hd.
Qed.

Lemma disjointObjects_sym o1 o2 : disjointObjects o1 o2 -> disjointObjects o2 o1.
Proof. unfold disjointObjects. tauto. Qed.

Lemma Write_liveDisjoint s fileId objectId size data crc s' e :
  indexValid s -> storeDisjoint s ->
  Write s fileId objectId size data crc = Ret (s', e) ->
  storeDisjoint s'.
Proof.
  intros Hs Hd Hw.
  destruct (chunks s !! fileId) as [c|] eqn:Hc.
  2:{ unfold Write in Hw. rewrite Hc in Hw. inversion Hw; subst. assumption. }
  destruct (Hs _ _ Hc) as (Hf & Hidx & Hrec).
  destruct (Write_changes_only_on_success _ _ _ _ _ _ _ _ _ Hc Hidx Hw)
    as [-> | ->]; [assumption|].
  destruct (Write_ok_inv _ _ _ _ _ _ _ Hw)
    as (c0 & c' & Hc0 & -> & _ & _ & _ & Hsize & Hfile & _ & Htree & _).
  rewrite Hc in Hc0. inversion Hc0; subst c0; clear Hc0.
  apply storeDisjoint_setChunk; [assumption|].
  pose proof (len_nonneg (File.content (file c))) as Hnn.
  intros Hlen oid1 oid2 o1 o2 H1 H2 Hne Hl1 Hl2.
  rewrite Hfile in Hlen. simpl in Hlen.
  rewrite len_app, len_take_prefix in Hlen by assumption.
  assert (Hoff : uint32 (len (File.content (file c))) = len (File.content (file c)))
    by (apply uint32_id; unfold is_uint32; lia).
  assert (Hold : forall oid o, ObjectTree.tree (tree c) !! oid = Some o ->
            Object.isTombstone o = false ->
            Object.Offset o + Object.Size o <= len (File.content (file c))).
  { intros oid o Ho Hl. destruct (Hrec _ _ Ho) as (_ & _ & H). apply H. assumption. }
  rewrite Htree in H1, H2.
  destruct (decide (objectId = oid1)) as [E1|N1];
    destruct (decide (objectId = oid2)) as [E2|N2].
  - congruence.
  - subst oid1. rewrite lookup_insert_eq in H1. inversion H1; subst o1; clear H1.
    rewrite lookup_insert_ne in H2 by assumption.
    right. cbn [Object.Offset]. rewrite Hoff. apply (Hold _ _ H2 Hl2).
  - subst oid2. rewrite lookup_insert_eq in H2. inversion H2; subst o2; clear H2.
    rewrite lookup_insert_ne in H1 by assumption.
    left. cbn [Object.Offset]. rewrite Hoff. apply (Hold _ _ H1 Hl1).
  - rewrite lookup_insert_ne in H1 by assumption.
    rewrite lookup_insert_ne in H2 by assumption.
    apply (Hd _ _ Hc ltac:(lia) oid1 oid2); assumption.
Qed.

Lemma stepOp_liveDisjoint s op s' :
  indexValid s -> storeDisjoint s -> stepOp s op = Some s' -> storeDisjoint s'.
Proof.
  intros Hs Hd Hstep.
  destruct op as [w|objectId chunkId opCrc|opFile offset opSize|opFile| | |cid| |cid|];
    simpl in Hstep.
  - destruct (Write s _ _ _ _ _) as [[s1 e]|] eqn:Hw; [|discriminate].
    inversion Hstep; subst s1. eapply Write_liveDisjoint; eassumption.
  - inversion Hstep; subst s'.
    destruct (WriteDeleteDentry s objectId chunkId opCrc) as [s1 e] eqn:Hw.
    destruct (WriteDeleteDentry_inv _ _ _ _ _ _ Hw)
      as [-> | (c & c' & Hc & -> & Hfile & Htree & _)]; simpl; [assumption|].
    apply storeDisjoint_setChunk; [assumption|].
    apply (liveDisjoint_same c); [assumption|assumption|apply (Hd _ _ Hc)].
  - inversion Hstep; subst s'.
    destruct (MarkDelete s opFile offset opSize) as [s1 e] eqn:Hm.
    destruct (MarkDelete_inv _ _ _ _ _ _ Hm)
      as [-> | (c & c' & Hc & -> & Hfile & _ & _ & _ & Htree)]; simpl; [assumption|].
    apply storeDisjoint_setChunk; [assumption|].
    destruct Htree as [Ht | (_ & Ht)].
    + apply (liveDisjoint_same c); [assumption|assumption|apply (Hd _ _ Hc)].
    + intros Hlen oid1 oid2 o1 o2 H1 H2 Hne Hl1 Hl2.
      rewrite Hfile in Hlen. rewrite Ht in H1, H2.
      destruct (decide (uint64 offset = oid1)) as [E1|N1].
      { subst oid1. rewrite lookup_insert_eq in H1. inversion H1; subst o1.
        discriminate Hl1. }
      destruct (decide (uint64 offset = oid2)) as [E2|N2].
      { subst oid2. rewrite lookup_insert_eq in H2. inversion H2; subst o2.
        discriminate Hl2. }
      rewrite lookup_insert_ne in H1 by assumption.
      rewrite lookup_insert_ne in H2 by assumption.
      apply (Hd _ _ Hc Hlen oid1 oid2); assumption.
  - inversion Hstep; subst s'.
    destruct (GetDelObjects_inv s opFile) as [-> | (c & Hc & ->)]; [assumption|].
    apply storeDisjoint_setChunk; [assumption|].
    apply (liveDisjoint_same c); [reflexivity|reflexivity|apply (Hd _ _ Hc)].
  - inversion Hstep.
    apply (storeDisjoint_same_chunks s); [apply GetAvailChunk_chunks|assumption].
  - inversion Hstep.
    apply (storeDisjoint_same_chunks s); [apply GetChunkForWrite_chunks|assumption].
  - apply (storeDisjoint_same_chunks s);
      [eapply PutAvailChunk_chunks; eassumption|assumption].
  - inversion Hstep.
    apply (storeDisjoint_same_chunks s); [apply GetUnAvailChunk_chunks|assumption].
  - apply (storeDisjoint_same_chunks s);
      [eapply PutUnAvailChunk_chunks; eassumption|assumption].
  - apply (storeDisjoint_same_chunks s);
      [eapply MoveChunkToUnavailChan_chunks; eassumption|assumption].
Qed.

Lemma runOps_liveDisjoint ops s s' :
  indexValid s -> storeDisjoint s -> runOps s ops = Some s' -> storeDisjoint s'.
Proof.
  revert s. induction ops as [|op ops IH]; intros s Hs Hd Hrun; simpl in Hrun.
  - inversion Hrun; subst. assumption.
  - destruct (stepOp s op) as [s1|] eqn:Hstep; [|discriminate].
    apply (IH s1); try assumption.
    + eapply stepOp_valid; eassumption.
    + eapply stepOp_liveDisjoint; eassumption.
Qed.

Lemma NewBlobStore_disjoint dir size : storeDisjoint (NewBlobStore dir size).
Proof.
  intros k c Hk.
  change (chunks (NewBlobStore dir size)) with initChunkFile in Hk.
  unfold initChunkFile in Hk. rewrite lookup_foldr_insert in Hk.
  destruct (decide (k ∈ seqZ 1 TinyChunkCount)); inversion Hk.
  intros _ oid1 oid2 o1 o2 H1. simpl in H1. rewrite lookup_empty in H1.
  discriminate.
Qed.

(** X23: no two objects share a byte of the data file. In a store that a
    run of calls has made of a new store, as long as the data file of a chunk
    is shorter than 4 GiB, two objects with different ids that [GetObject]
    finds in the chunk lie apart: the bytes of one end before the bytes of
    the other begin. *)
Theorem live_objects_disjoint dir size ops s fileId c oid1 oid2 o1 o2 :
  runOps (NewBlobStore dir size) ops = Some s ->
  chunks s !! fileId = Some c ->
  len (File.content (file c)) < 2 ^ 32 ->
  GetObject s fileId oid1 = (Some o1, None) ->
  GetObject s fileId oid2 = (Some o2, None) ->
  oid1 <> oid2 ->
  Object.Offset o1 + Object.Size o1 <= Object.Offset o2
  \/ Object.Offset o2 + Object.Size o2 <= Object.Offset o1.
Proof.
  intros Hrun Hc Hlen H1 H2 Hne.
  pose proof (runOps_liveDisjoint _ _ _ (NewBlobStore_valid dir size)
                (NewBlobStore_disjoint dir size) Hrun) as Hd.
  unfold GetObject in H1, H2. rewrite Hc in H1, H2.
  unfold ObjectTree.get in H1, H2.
  destruct (ObjectTree.tree (tree c) !! oid1) as [a1|] eqn:Ht1; [|discriminate].
  destruct (Object.isTombstone a1) eqn:Hl1; [discriminate|].
  destruct (ObjectTree.tree (tree c) !! oid2) as [a2|] eqn:Ht2; [|discriminate].
  destruct (Object.isTombstone a2) eqn:Hl2; [discriminate|].
  inversion H1; subst a1. inversion H2; subst a2.
  apply (Hd _ _ Hc Hlen oid1 oid2); assumption.
Qed.

Lemma live_objects_disjoint_witness :
  Object.Offset (Object.mk 1 0 5 crcHello) + Object.Size (Object.mk 1 0 5 crcHello)
  <= Object.Offset (Object.mk 2 5 1 crcA)
  \/ Object.Offset (Object.mk 2 5 1 crcA) + Object.Size (Object.mk 2 5 1 crcA)
     <= Object.Offset (Object.mk 1 0 5 crcHello).
Proof.
  assert (H1 : runOps (NewBlobStore "/data" 104857600) opsHelloA = Some storeHelloA)
    by (vm_compute; reflexivity).
  assert (H2 : chunks storeHelloA !! 1 = Some (chunkOf storeHelloA 1))
    by (vm_compute; reflexivity).
  assert (H3 : len (File.content (file (chunkOf storeHelloA 1))) < 2 ^ 32)
    by (vm_compute; reflexivity).
  assert (H4 : GetObject storeHelloA 1 1 = (Some (Object.mk 1 0 5 crcHello), None))
    by (vm_compute; reflexivity).
  assert (H5 : GetObject storeHelloA 1 2 = (Some (Object.mk 2 5 1 crcA), None))
    by (vm_compute; reflexivity).
  assert (H6 : (1 : Z) <> 2) by discriminate.
  exact (live_objects_disjoint "/data" 104857600 opsHelloA storeHelloA 1
           (chunkOf storeHelloA 1) 1 2 _ _ H1 H2 H3 H4 H5 H6).
Defined.
